(** * A shallow embedding of the Nitter web scraper backend

    The development follows the three source files of the backend:
    - [storage.py]        : the SQLite store ([Storage]);
    - [nitter_client.py]  : instance rotation, token bucket and backoff, the
                            two feed parsers and [fetch_target];
    - [app.py]            : the event broker, the scheduler's due test and the
                            fetch pipeline ([_store_entries], [_fetch_target]),
                            one pass of the scheduler and the handlers that
                            read and write targets and posts.

    Conventions of the embedding.
    - A SQLite table is the list of its rows in rowid (insertion) order.
    - Python floats that hold times and token balances are exact rationals
      ([Q]); the statements about them use [==], [<=] and [<] of [Q].
    - Clocks are oracles: [time.monotonic()] and [datetime.now()] are read
      through a counter, one reading per call in the source.
    - External libraries (json, feedparser, requests, SQLite built-ins) are
      not re-implemented: their results enter as parameters or as data.
    - A text that the program stores or passes on is a [string]. The page
      that [_parse_html] scans with [re] is the list of its code points,
      and what the parser cuts out of it is passed on in UTF-8. *)

From Stdlib Require Import ZArith QArith Qminmax Lqa String Ascii DecimalString.
From Stdlib Require Import Sorted Permutation.
From Stdlib Require OrderedTypeEx.
From stdpp Require Import base option list gmap strings.

Open Scope string_scope.
Open Scope list_scope.
Open Scope Z_scope.

(** ** Python helpers shared by the three modules *)

(** Truthiness of a [str]: the empty string is falsy. *)
Definition str_truthy (s : string) : bool :=
  match s with EmptyString => false | String _ _ => true end.

(** Truthiness of an [Optional[str]]: [None] and [""] are falsy. *)
Definition opt_truthy (o : option string) : bool :=
  match o with None => false | Some s => str_truthy s end.

(** [x or d] on an optional string with a string default. *)
Definition str_or (o : option string) (d : string) : string :=
  match o with
  | Some s => if str_truthy s then s else d
  | None => d
  end.

(** [str(n)] of a Python int. *)
Definition str_of_int (n : Z) : string := NilZero.string_of_int (Z.to_int n).

(** A small JSON value type, enough for what the program stores and emits. *)
#[warnings="-register-all"]
Inductive JSON : Type :=
  | JNull
  | JBool (b : bool)
  | JNum (n : Z)
  | JStr (s : string)
  | JArr (l : list JSON)
  | JObj (fields : list (string * JSON)).

(** An [Optional[str]] as a JSON value. *)
Definition JOpt (o : option string) : JSON :=
  match o with Some s => JStr s | None => JNull end.

(** * storage.py *)

Module Storage.

(** A row of table [tweets]; every column is TEXT. *)
Record TweetRow := mkTweet {
  tw_id : string;
  tw_target : string;
  tw_content : string;
  tw_created_at : string;
  tw_raw : string;
  tw_fetched_at : string;
  tw_instance : string
}.

(** A row of table [targets]. *)
Record TargetRow := mkTarget {
  tg_id : Z;
  tg_type : string;
  tg_value : string;
  tg_poll_interval_seconds : option Z;
  tg_last_fetched_id : option string;
  tg_last_fetched_at : option string
}.

(** The database: both tables, and the AUTOINCREMENT counter of [targets]. *)
Record DB := mkDB {
  tweets : list TweetRow;
  targets : list TargetRow;
  next_target_id : Z
}.

Definition empty_db : DB := mkDB [] [] 1.

Definition with_tweets (db : DB) (t : list TweetRow) : DB :=
  mkDB t (targets db) (next_target_id db).

Definition with_targets (db : DB) (t : list TargetRow) : DB :=
  mkDB (tweets db) t (next_target_id db).

Definition ids (t : list TweetRow) : list string := map tw_id t.

(** Membership of a TEXT value in a list of TEXT values ([IN (...)]). *)
Definition mem (i : string) (l : list string) : bool :=
  existsb (String.eqb i) l.

(** [add_target]: INSERT with an AUTOINCREMENT id, which is returned. *)
Definition add_target (target_type value : string)
    (poll_interval_seconds : Z) (db : DB) : Z * DB :=
  let i := next_target_id db in
  (i, mkDB (tweets db)
           (targets db ++
              [mkTarget i target_type value (Some poll_interval_seconds)
                        None None])
           (i + 1)).

(** [delete_target]: DELETE FROM targets WHERE id = ?. *)
Definition delete_target (target_id : Z) (db : DB) : DB :=
  with_targets db
    (List.filter (fun r => negb (tg_id r =? target_id)) (targets db)).

(** [get_targets]: ORDER BY id ASC. Ids are handed out increasingly and rows
    are appended, so the table is already in that order. *)
Definition get_targets (db : DB) : list TargetRow := targets db.

(** [get_target]: [fetchone()] of the row with that id. *)
Definition get_target (target_id : Z) (db : DB) : option TargetRow :=
  List.find (fun r => tg_id r =? target_id) (targets db).

(** [update_target_fetch_state]: UPDATE ... WHERE id = ?. *)
Definition update_target_fetch_state (target_id : Z)
    (last_fetched_id last_fetched_at : option string) (db : DB) : DB :=
  with_targets db
    (map (fun r =>
            if tg_id r =? target_id
            then mkTarget (tg_id r) (tg_type r) (tg_value r)
                          (tg_poll_interval_seconds r)
                          last_fetched_id last_fetched_at
            else r)
         (targets db)).

(** An [int] that [sqlite3] can bind as a parameter of a statement: an
    INTEGER of SQLite has 64 bits, and binding an [int] outside that range
    raises [OverflowError]. *)
Definition sqlite_int (n : Z) : bool :=
  (-9223372036854775808 <=? n) && (n <=? 9223372036854775807).

(** SQLite compares NULL below every TEXT value and TEXT values bytewise. *)
Definition sql_le (a b : option string) : bool :=
  match a, b with
  | None, _ => true
  | Some _, None => false
  | Some x, Some y => String.leb x y
  end.

(** [LIMIT n]: a negative limit is no limit. *)
Definition sql_limit {A} (n : Z) (l : list A) : list A :=
  if n <? 0 then l else take (Z.to_nat n) l.

(** [SELECT DISTINCT target FROM tweets]. *)
Definition distinct_targets (t : list TweetRow) : list string :=
  remove_dups (map tw_target t).

(** [SELECT ... FROM tweets WHERE target = ?]. *)
Definition rows_of (target : string) (t : list TweetRow) : list TweetRow :=
  List.filter (fun r => String.eqb (tw_target r) target) t.

(** A sorter that satisfies the contract of ORDER BY ... DESC for the key
    [key]: insertion sort, rows with equal keys in rowid order. *)
Fixpoint insert_desc (key : TweetRow → option string) (r : TweetRow)
    (l : list TweetRow) : list TweetRow :=
  match l with
  | [] => [r]
  | x :: l' =>
      if sql_le (key x) (key r) then r :: x :: l'
      else x :: insert_desc key r l'
  end.

Definition sort_desc (key : TweetRow → option string) (l : list TweetRow)
    : list TweetRow :=
  fold_right (insert_desc key) [] l.

Section WithSqlite.
(** [json.dumps(_, ensure_ascii=False)] and [json.loads]; the latter
    raises on text that is not JSON ([None]). *)
Variable json_dumps : JSON → string.
Variable json_loads : string → option JSON.
(** SQLite's [datetime(X)]: NULL when [X] is not a time value. *)
Variable datetime : string → option string.
(** The sorter behind [ORDER BY datetime(created_at) DESC]. SQLite does
    not say how it orders rows with equal keys, so the sorter is a
    parameter; what is known of it is [sorter_ok] below. *)
Variable order_by : list TweetRow → list TweetRow.

Definition sort_key (r : TweetRow) : option string :=
  datetime (tw_created_at r).

(** [a] may come before [b] in descending order. *)
Definition desc (a b : TweetRow) : Prop :=
  sql_le (sort_key b) (sort_key a) = true.

(** The contract of ORDER BY: the same rows, in descending key order. *)
Definition sorter_ok : Prop :=
  ∀ l, Permutation (order_by l) l ∧ Sorted desc (order_by l).

(** [upsert_tweet]: INSERT OR IGNORE on the primary key [id]; the result
    is [cursor.rowcount > 0]. *)
Definition upsert_tweet (tweet_id target content created_at : string)
    (raw : JSON) (fetched_at instance : string) (db : DB) : bool * DB :=
  let raw_json := json_dumps raw in
  if mem tweet_id (ids (tweets db)) then (false, db)
  else (true,
        with_tweets db
          (tweets db ++
             [mkTweet tweet_id target content created_at raw_json
                      fetched_at instance])).

(** The arguments of one call of [upsert_tweet]. *)
Record UpsertCall := mkCall {
  c_id : string; c_target : string; c_content : string;
  c_created_at : string; c_raw : JSON; c_fetched_at : string;
  c_instance : string
}.

Definition call (c : UpsertCall) (db : DB) : bool * DB :=
  upsert_tweet (c_id c) (c_target c) (c_content c) (c_created_at c)
               (c_raw c) (c_fetched_at c) (c_instance c) db.

(** A sequence of calls, with the result of each. *)
Fixpoint calls (cs : list UpsertCall) (db : DB) : list bool * DB :=
  match cs with
  | [] => ([], db)
  | c :: cs' =>
      let '(b, db1) := call c db in
      let '(bs, db2) := calls cs' db1 in
      (b :: bs, db2)
  end.

(** The dictionary built for one row in [export_tweets]; [json.loads]
    is applied to [row["raw"] or "{}"] with no handler around it. *)
Definition export_data (row : TweetRow) : option JSON :=
  match json_loads (str_or (Some (tw_raw row)) "{}") with
  | Some raw =>
      Some (JObj [("id", JStr (tw_id row));
                  ("target", JStr (tw_target row));
                  ("content", JStr (tw_content row));
                  ("created_at", JStr (tw_created_at row));
                  ("raw", raw);
                  ("fetched_at", JStr (tw_fetched_at row));
                  ("instance", JStr (tw_instance row))])
  | None => None
  end.

(** What a consumer of the generator sees: the lines yielded so far and
    whether the generator ended normally or by an exception. *)
Inductive Outcome := Exhausted | Raised.

Fixpoint export_rows (rows : list TweetRow) : list string * Outcome :=
  match rows with
  | [] => ([], Exhausted)
  | row :: rest =>
      match export_data row with
      | None => ([], Raised)
      | Some data =>
          let '(ls, o) := export_rows rest in
          (json_dumps data :: ls, o)
      end
  end.

(** [export_tweets]. *)
Definition export_tweets (db : DB) : list string * Outcome :=
  export_rows (order_by (tweets db)).

(** The ids selected by the sub-query of [prune_old_entries]. *)
Definition newest_ids (target : string) (max_per_target : Z)
    (t : list TweetRow) : list string :=
  ids (sql_limit max_per_target (order_by (rows_of target t))).

(** One DELETE statement of [prune_old_entries]. *)
Definition prune_target (max_per_target : Z) (t : list TweetRow)
    (target : string) : list TweetRow :=
  let keep := newest_ids target max_per_target t in
  List.filter
    (fun r => negb (negb (mem (tw_id r) keep)
                    && String.eqb (tw_target r) target))
    t.

(** [prune_old_entries]: one DELETE per distinct target. *)
Definition prune_old_entries (max_per_target : Z) (db : DB) : DB :=
  with_tweets db
    (fold_left (prune_target max_per_target)
               (distinct_targets (tweets db)) (tweets db)).
End WithSqlite.

(** ** Sequences of calls on the targets table *)

(** The calls that write the targets table. *)
Inductive TargetOp :=
  | TAdd (target_type value : string) (poll_interval_seconds : Z)
  | TDelete (target_id : Z)
  | TUpdate (target_id : Z) (last_fetched_id last_fetched_at : option string).

Definition target_step (db : DB) (op : TargetOp) : DB :=
  match op with
  | TAdd ty v p => (add_target ty v p db).2
  | TDelete i => delete_target i db
  | TUpdate i lid lat => update_target_fetch_state i lid lat db
  end.

(** What holds of the targets table whatever calls were made: every id is
    below the AUTOINCREMENT counter and the rows are in ascending order of
    id. *)
Definition targets_ok (db : DB) : Prop :=
  Forall (fun r => tg_id r < next_target_id db) (targets db)
  ∧ StronglySorted (fun a b => tg_id a < tg_id b) (targets db).

(** ** [get_tweets] *)

(** The case folding of SQLite's LIKE: ASCII letters only. *)
Definition lower (c : ascii) : ascii :=
  let n := N_of_ascii c in
  if (65 <=? n)%N && (n <=? 90)%N then ascii_of_N (n + 32) else c.

Definition percent : ascii := "%"%char.
Definition underscore : ascii := "_"%char.

(** SQLite's [text LIKE pattern] with no ESCAPE clause: [%] stands for any
    run of characters, [_] for any one character, and every other character
    for itself up to the case of ASCII letters. *)
Fixpoint like (pattern text : list ascii) {struct pattern} : bool :=
  match pattern with
  | [] => match text with [] => true | _ :: _ => false end
  | c :: p =>
      if Ascii.eqb c percent
      then (fix any (t : list ascii) : bool :=
              like p t || match t with [] => false | _ :: t' => any t' end)
             text
      else match text with
           | [] => false
           | d :: t =>
               (Ascii.eqb c underscore || Ascii.eqb (lower c) (lower d))
               && like p t
           end
  end.

(** The WHERE clause that [get_tweets] builds: a condition is added only
    for a truthy [target] and for a truthy [query]. *)
Definition where_clause (target query : option string) (r : TweetRow) : bool :=
  (if opt_truthy target then String.eqb (tw_target r) (str_or target "")
   else true)
  && (if opt_truthy query
      then like (percent
                   :: list_ascii_of_string (str_or query "") ++ [percent])
                (list_ascii_of_string (tw_content r))
      else true).

(** [get_tweets], for the sorter [order_by] behind
    ORDER BY datetime(created_at) DESC. *)
Definition get_tweets (order_by : list TweetRow → list TweetRow)
    (target : option string) (limit : Z) (query : option string) (db : DB)
    : list TweetRow :=
  sql_limit limit (order_by (List.filter (where_clause target query) (tweets db))).

(** [needle] occurs in [text] up to the case of ASCII letters. *)
Definition occurs_nocase (needle text : list ascii) : Prop :=
  ∃ pre mid post, text = pre ++ mid ++ post ∧ map lower mid = map lower needle.

(** [q] holds neither of the two wildcards of LIKE. *)
Definition literal (q : list ascii) : Prop :=
  Forall (fun c => c ≠ percent ∧ c ≠ underscore) q.

End Storage.

(** * nitter_client.py *)

Module Nitter.

(** [x < y] on floats. *)
Definition Qltb (x y : Q) : bool := negb (Qle_bool y x).

(** Python's [min(a, b)]: [b] only when it is strictly smaller. *)
Definition pymin (a b : Q) : Q := if Qltb b a then b else a.

(** The dataclass [InstanceState]. *)
Record InstanceState := mkState {
  base_url : string;
  tokens : Q;
  last_refill : Q;
  backoff_until : Q;
  consecutive_errors : Z;
  last_rtt : option Q;
  last_error : option string
}.

(** The fields of [NitterClient] that the rotation uses. The state objects
    are shared and mutated in place: a state is referred to by its index
    in [states], and every mutation is written back at that index. *)
Record NitterClient := mkClient {
  backoff_base_seconds : Z;
  states : list InstanceState;
  max_requests_per_minute : Z;
  rotation_index : nat
}.

Definition with_states (c : NitterClient) (s : list InstanceState)
    : NitterClient :=
  mkClient (backoff_base_seconds c) s (max_requests_per_minute c)
           (rotation_index c).

Definition with_rotation (c : NitterClient) (i : nat) : NitterClient :=
  mkClient (backoff_base_seconds c) (states c) (max_requests_per_minute c) i.

Definition set_tokens (s : InstanceState) (tk lr : Q) : InstanceState :=
  mkState (base_url s) tk lr (backoff_until s) (consecutive_errors s)
          (last_rtt s) (last_error s).

(** [s.rstrip("/")]. *)
Fixpoint rstrip_slash (s : string) : string :=
  match s with
  | EmptyString => EmptyString
  | String c r =>
      match rstrip_slash r with
      | EmptyString => if Ascii.eqb c "/" then EmptyString else String c EmptyString
      | r' => String c r'
      end
  end.

(** ** Text scanning for [_parse_html]

    The body that [_parse_html] scans is a Python [str]: a sequence of code
    points (numbers below 0x110000). [re] matches, counts and slices by
    code point, so the body is a [list N] here. The ids and excerpts that
    the parser cuts out of the body are handed on as Rocq strings in their
    UTF-8 encoding, the form in which SQLite stores a text. *)

(** The UTF-8 encoding of one code point. *)
Definition utf8_char (c : N) : list ascii :=
  if (c <? 128)%N then [ascii_of_N c]
  else if (c <? 2048)%N then
    [ascii_of_N (192 + c / 64); ascii_of_N (128 + c mod 64)]
  else if (c <? 65536)%N then
    [ascii_of_N (224 + c / 4096); ascii_of_N (128 + (c / 64) mod 64);
     ascii_of_N (128 + c mod 64)]
  else
    [ascii_of_N (240 + c / 262144); ascii_of_N (128 + (c / 4096) mod 64);
     ascii_of_N (128 + (c / 64) mod 64); ascii_of_N (128 + c mod 64)].

Definition utf8 (s : list N) : string :=
  string_of_list_ascii (flat_map utf8_char s).

(** The code points of a text written with characters below U+0100. *)
Definition codepoints (s : string) : list N :=
  map N_of_ascii (list_ascii_of_string s).

(** The class [\s] of [re] on a [str]: the characters for which
    [str.isspace] holds. *)
Definition is_space (c : N) : bool :=
  ((9 <=? c)%N && (c <=? 13)%N) || ((28 <=? c)%N && (c <=? 32)%N)
  || (c =? 133)%N || (c =? 160)%N || (c =? 5760)%N
  || ((8192 <=? c)%N && (c <=? 8202)%N)
  || (c =? 8232)%N || (c =? 8233)%N || (c =? 8239)%N || (c =? 8287)%N
  || (c =? 12288)%N.

Fixpoint strip_prefix (p s : list N) : option (list N) :=
  match p, s with
  | [], _ => Some s
  | a :: p', b :: s' => if (a =? b)%N then strip_prefix p' s' else None
  | _ :: _, [] => None
  end.

Definition status_prefix : list N := Eval cbv in codepoints "/status/".

(** [re.sub(r"\s+", " ", s)]; [in_run] says that the previous character
    was white space already replaced. *)
Fixpoint sub_ws (in_run : bool) (s : list N) : list N :=
  match s with
  | [] => []
  | c :: r =>
      if is_space c
      then (if in_run then sub_ws true r else 32%N :: sub_ws true r)
      else c :: sub_ws false r
  end.

(** [s[a:b]] for [0 <= a <= b]. *)
Definition slice (s : list N) (a b : nat) : list N :=
  take (b - a) (drop a s).

(** [needle in hay]. *)
Fixpoint contains (needle hay : string) : bool :=
  String.prefix needle hay
  || match hay with
     | String _ r => contains needle r
     | EmptyString => false
     end.

(** ** Feed entries *)

(** An entry of [feedparser]'s result: [id] and [guid] are read with the
    default [None], the other attributes with the default [""]; [fe_dict]
    is the entry as a whole, the dictionary that [json.dumps] is given. *)
Record FeedEntry := mkFeedEntry {
  fe_id : option string;
  fe_guid : option string;
  fe_title : string;
  fe_summary : string;
  fe_link : string;
  fe_published : string;
  fe_dict : JSON
}.

(** [feedparser.parse(response.content)]. *)
Record Feed := mkFeed {
  bozo : bool;
  feed_entries : list FeedEntry
}.

(** The value under ["raw"]: the feed entry itself, or [{"excerpt": _}]. *)
Inductive Raw :=
  | RawEntry (e : FeedEntry)
  | RawExcerpt (excerpt : string).

(** The dictionaries built by the two parsers. *)
Record Entry := mkEntry {
  e_id : string;
  e_title : string;
  e_summary : string;
  e_link : string;
  e_published : string;
  e_raw : Raw
}.

(** What the program reads of a [requests.Response]; [feed] is what
    [feedparser] makes of [response.content]. *)
Record Response := mkResponse {
  status_code : Z;
  content_type : option string;
  feed : Feed;
  text : list N
}.

(** An exception object, of which only [str(exc)] is used. *)
Record Exn := mkExn { exn_str : string }.

(** [self.session.get(url, timeout=20)] returns or raises. *)
Inductive HttpOutcome :=
  | Returned (r : Response)
  | Raises (e : Exn).

(** [_construct_url]. *)
Definition _construct_url (state : InstanceState) (target_type value : string)
    : string :=
  let path :=
    if String.eqb target_type "user"
    then "/" +:+ value +:+ "/rss"
    else "/search/rss?f=tweets&q=%23" +:+ value in
  base_url state +:+ path.

(** [_fetch]: the try/except around [session.get]. *)
Definition _fetch (net : string → HttpOutcome) (url : string)
    : option Response * option Exn :=
  match net url with
  | Returned r => (Some r, None)
  | Raises e => (None, Some e)
  end.

(** [_parse_rss]. *)
Definition rss_entry (entry : FeedEntry) : option Entry :=
  let tweet_id :=
    if opt_truthy (fe_id entry) then str_or (fe_id entry) ""
    else str_or (fe_guid entry) "" in
  if str_truthy tweet_id
  then Some (mkEntry tweet_id (fe_title entry) (fe_summary entry)
                     (fe_link entry) (fe_published entry) (RawEntry entry))
  else None.

Definition _parse_rss (response : Response) : list Entry :=
  if bozo (feed response) then []
  else omap rss_entry (feed_entries (feed response)).

Section WithUnicode.
(** The class [\d] of [re] on a [str] is the set of decimal digits
    (category Nd) of the interpreter's Unicode data. Below U+0080 these
    are [0-9]; the members above it are a table of the interpreter, not of
    the program, and enter as the parameter [decimal]. *)
Variable decimal : N → bool.

Definition is_digit (c : N) : bool :=
  if (c <? 128)%N then (48 <=? c)%N && (c <=? 57)%N else decimal c.

Fixpoint take_digits (s : list N) : list N :=
  match s with
  | c :: r => if is_digit c then c :: take_digits r else []
  | [] => []
  end.

(** The regular expression [/status/(\d+)] tried at the head of [s]; the
    result is group 1. The digits are taken greedily and nothing follows
    them in the pattern, so there is no backtracking. *)
Definition match_at (s : list N) : option (list N) :=
  match strip_prefix status_prefix s with
  | Some r =>
      match take_digits r with
      | [] => None
      | ds => Some ds
      end
  | None => None
  end.

(** [pattern.finditer]: the matches from left to right, each search
    resuming where the previous match ended ([skip] characters remain
    inside the previous match). A match is [(match.start(), group(1))]. *)
Fixpoint finditer (skip pos : nat) (s : list N)
    : list (nat * list N) :=
  match s with
  | [] => []
  | _ :: r =>
      match skip with
      | S k => finditer k (S pos) r
      | O =>
          match match_at s with
          | Some ds => (pos, ds) :: finditer (7 + length ds) (S pos) r
          | None => finditer 0 (S pos) r
          end
      end
  end.

(** The excerpt of [_parse_html] for a match that starts at [pos]. *)
Definition excerpt_at (html : list N) (pos : nat) : string :=
  let start := (pos - 200)%nat in
  utf8 (sub_ws false (slice html start (start + 400))).

Definition html_entry (html : list N) (m : nat * list N) : Entry :=
  let tweet_id := utf8 (snd m) in
  let excerpt := excerpt_at html (fst m) in
  mkEntry tweet_id "Tweet" excerpt tweet_id "" (RawExcerpt excerpt).

(** [_parse_html]. *)
Definition _parse_html (html : list N) : list Entry :=
  map (html_entry html) (finditer 0 0 html).

(** The parse step at the end of [fetch_target]. *)
Definition parse_response (response : Response) : list Entry :=
  let entries := _parse_rss response in
  match entries with
  | [] =>
      if negb (contains "xml" (str_or (content_type response) ""))
      then _parse_html (text response)
      else entries
  | _ => entries
  end.

(** ** Rotation, token bucket and backoff *)

(** The text recorded by [_release_instance_on_error]; [if status_code]
    is false for [None] and for [0]. *)
Definition error_text (status_code : option Z) : string :=
  match status_code with
  | Some c => if c =? 0 then "Request-Fehler" else "HTTP " +:+ str_of_int c
  | None => "Request-Fehler"
  end.

(** [min(600, base * 2 ** (errors - 1))]. [errors] is at least 1 where this
    is computed, so the exponent is never negative. *)
Definition penalty (base errors : Z) : Z :=
  Z.min 600 (base * 2 ^ (errors - 1)).

(** The body of [_release_instance_on_error] on the state object, [now]
    being the reading of [time.monotonic()]. *)
Definition on_error (base : Z) (status_code : option Z) (now : Q)
    (state : InstanceState) : InstanceState :=
  let errors := consecutive_errors state + 1 in
  mkState (base_url state) (tokens state) (last_refill state)
          (now + inject_Z (penalty base errors))%Q
          errors (last_rtt state) (Some (error_text status_code)).

(** The body of [_release_instance_on_success]. *)
Definition on_success (rtt : Q) (state : InstanceState) : InstanceState :=
  mkState (base_url state) (tokens state) (last_refill state) 0%Q 0
          (Some rtt) None.

Section WithClock.
(** [time.monotonic()]: the [n]-th reading of the clock. Every function
    below takes the number of readings made so far and returns it
    increased by the readings it made. *)
Variable monotonic : nat → Q.

(** The list comprehension of [__init__]: [last_refill] is read from the
    clock when each state is built. *)
Fixpoint init_states (instances : list string) (max_rpm : Z) (t : nat)
    : list InstanceState * nat :=
  match instances with
  | [] => ([], t)
  | i :: rest =>
      let st := mkState (rstrip_slash i) (inject_Z max_rpm) (monotonic t)
                        0%Q 0 None None in
      let '(sts, t') := init_states rest max_rpm (S t) in
      (st :: sts, t')
  end.

(** [NitterClient.__init__]; [None] is the [ValueError] for an empty
    list of instances. *)
Definition init (instances : list string) (user_agent : string)
    (max_requests_per_minute backoff_base_seconds : Z) (t : nat)
    : option (NitterClient * nat) :=
  match instances with
  | [] => None
  | _ =>
      let '(sts, t') := init_states instances max_requests_per_minute t in
      Some (mkClient (Z.max 1 backoff_base_seconds) sts
                     max_requests_per_minute 0, t')
  end.

(** [_refill_tokens]. *)
Definition _refill_tokens (max_rpm : Z) (state : InstanceState) (t : nat)
    : InstanceState * nat :=
  let now := monotonic t in
  let elapsed := (now - last_refill state)%Q in
  let tokens_to_add := ((inject_Z max_rpm / 60) * elapsed)%Q in
  if Qltb 0 tokens_to_add
  then (set_tokens state
          (pymin (inject_Z max_rpm) (tokens state + tokens_to_add)%Q) now,
        S t)
  else (state, S t).

(** The loop of [_acquire_instance], [n] iterations left. The result is
    the index of the acquired state. *)
Fixpoint acquire_loop (n : nat) (c : NitterClient) (t : nat)
    : option nat * NitterClient * nat :=
  match n with
  | O => (None, c, t)
  | S n' =>
      let i := rotation_index c in
      match states c !! i with
      | None => (None, c, t)
      | Some state =>
          let c1 := with_rotation c ((i + 1) mod length (states c))%nat in
          let '(state1, t1) :=
            _refill_tokens (max_requests_per_minute c) state t in
          let c2 := with_states c1 (<[i := state1]> (states c1)) in
          let now := monotonic t1 in
          let t2 := S t1 in
          if Qltb now (backoff_until state1) then acquire_loop n' c2 t2
          else if Qltb (tokens state1) 1 then acquire_loop n' c2 t2
          else
            let state2 :=
              set_tokens state1 (tokens state1 - 1)%Q (last_refill state1) in
            (Some i, with_states c2 (<[i := state2]> (states c2)), t2)
      end
  end.

(** [_acquire_instance]. *)
Definition _acquire_instance (c : NitterClient) (t : nat)
    : option nat * NitterClient * nat :=
  acquire_loop (length (states c)) c t.

(** [_release_instance_on_error] on the state at index [i]. *)
Definition _release_instance_on_error (i : nat) (status_code : option Z)
    (c : NitterClient) (t : nat) : NitterClient * nat :=
  (with_states c
     (alter (on_error (backoff_base_seconds c) status_code (monotonic t))
            i (states c)),
   S t).

(** [_release_instance_on_success] on the state at index [i]. *)
Definition _release_instance_on_success (i : nat) (rtt : Q)
    (c : NitterClient) : NitterClient :=
  with_states c (alter (on_success rtt) i (states c)).

(** [fetch_target]: (entries, instance, error), the client and the clock
    count after the call. *)
Definition fetch_target (net : string → HttpOutcome)
    (target_type value : string) (c : NitterClient) (t : nat)
    : (list Entry * option string * option string) * NitterClient * nat :=
  let '(acquired, c1, t1) := _acquire_instance c t in
  match acquired with
  | None =>
      (([], None,
        Some "Keine verfügbare Instanz (Rate-Limit oder Backoff)."),
       c1, t1)
  | Some i =>
      let state := default (mkState "" 0 0 0 0 None None) (states c1 !! i) in
      let url := _construct_url state target_type value in
      let start := monotonic t1 in
      let '(response, error) := _fetch net url in
      let rtt := (monotonic (S t1) - start)%Q in
      let t2 := S (S t1) in
      match error with
      | Some exc =>
          let '(c2, t3) := _release_instance_on_error i None c1 t2 in
          (([], Some (base_url state), Some (exn_str exc)), c2, t3)
      | None =>
          match response with
          | None =>
              let '(c2, t3) := _release_instance_on_error i None c1 t2 in
              (([], Some (base_url state), Some "Unbekannter Fehler"),
               c2, t3)
          | Some r =>
              if 400 <=? status_code r
              then
                let '(c2, t3) :=
                  _release_instance_on_error i (Some (status_code r)) c1 t2 in
                (([], Some (base_url state),
                  Some ("HTTP " +:+ str_of_int (status_code r))), c2, t3)
              else
                let entries := parse_response r in
                let c2 := _release_instance_on_success i rtt c1 in
                ((entries, Some (base_url state), None), c2, t2)
          end
      end
  end.

(** The operations of the pool, for statements about sequences of them. A
    release names the state it was given by its index. *)
Inductive Op :=
  | OpRefill (i : nat)
  | OpAcquire
  | OpSuccess (i : nat) (rtt : Q)
  | OpFailure (i : nat) (status_code : option Z).

Definition step (w : NitterClient * nat) (op : Op) : NitterClient * nat :=
  let '(c, t) := w in
  match op with
  | OpRefill i =>
      match states c !! i with
      | Some s =>
          let '(s', t') := _refill_tokens (max_requests_per_minute c) s t in
          (with_states c (<[i := s']> (states c)), t')
      | None => (c, t)
      end
  | OpAcquire => let '(_, c', t') := _acquire_instance c t in (c', t')
  | OpSuccess i rtt => (_release_instance_on_success i rtt c, t)
  | OpFailure i status_code => _release_instance_on_error i status_code c t
  end.

Definition run (ops : list Op) (w : NitterClient * nat) : NitterClient * nat :=
  fold_left step ops w.

(** [op] is a release on success of the state at index [i]. *)
Definition is_success_on (i : nat) (op : Op) : bool :=
  match op with
  | OpSuccess j _ => Nat.eqb i j
  | _ => false
  end.

(** [op] is a release on failure of the state at index [i]. *)
Definition is_failure_on (i : nat) (op : Op) : bool :=
  match op with
  | OpFailure j _ => Nat.eqb i j
  | _ => false
  end.

(** The number of releases on failure of the state at index [i]. *)
Definition failures_on (i : nat) (ops : list Op) : nat :=
  length (List.filter (is_failure_on i) ops).

(** The number of acquisitions, in the run of [ops] from [w], that
    returned the state at index [i]. *)
Fixpoint acquisitions (i : nat) (ops : list Op) (w : NitterClient * nat)
    : nat :=
  match ops with
  | [] => O
  | op :: rest =>
      (match op with
       | OpAcquire =>
           match (_acquire_instance w.1 w.2).1.1 with
           | Some j => if Nat.eqb i j then 1 else 0
           | None => 0
           end
       | _ => 0
       end
       + acquisitions i rest (step w op))%nat
  end.

End WithClock.
End WithUnicode.

(** The invariant of §3 on one state, for the capacity [max_rpm]. *)
Definition state_ok (max_rpm : Z) (s : InstanceState) : Prop :=
  (0 <= tokens s)%Q ∧ (tokens s <= inject_Z max_rpm)%Q
  ∧ (0 <= backoff_until s)%Q.

(** [s'] is [s] but for the two fields that the token bucket writes. *)
Definition only_tokens (s s' : InstanceState) : Prop :=
  s' = set_tokens s (tokens s') (last_refill s').

(** What the pool keeps fixed, and the invariant on all its states. *)
Definition pool_ok (m base : Z) (c : NitterClient) : Prop :=
  max_requests_per_minute c = m ∧ backoff_base_seconds c = base
  ∧ Forall (state_ok m) (states c).

(** The error counter of the state at index [i]. *)
Definition errors_at (i : nat) (c : NitterClient) : option Z :=
  consecutive_errors <$> states c !! i.

(** Bookkeeping for a bucket of capacity 2 (one token per 30 seconds) that
    started full at time [c0] and from which [h] tokens were taken, all
    clock readings lying in [[c0, cend]]. *)
Definition bucket (c0 cend : Q) (h : Z) (s : InstanceState) : Prop :=
  (c0 <= last_refill s)%Q ∧ (last_refill s <= cend)%Q
  ∧ (2 - inject_Z h <= tokens s)%Q
  ∧ (tokens s <= 2 - inject_Z h + (1 # 30) * (last_refill s - c0))%Q
  ∧ (backoff_until s <= 0)%Q.

(** The base URL of an acquired state. *)
Definition acquired_url (r : option nat * NitterClient * nat) : option string :=
  match r.1.1 with
  | Some i => base_url <$> states r.1.2 !! i
  | None => None
  end.

(** The pool of scenario S1 with [ha] and [hb] tokens taken from its two
    instances and the cursor at [rot]. *)
Definition pool2 (c0 cend : Q) (ha hb : Z) (rot : nat) (c : NitterClient)
    : Prop :=
  ∃ sa sb, states c = [sa; sb]
    ∧ base_url sa = "https://a" ∧ base_url sb = "https://b"
    ∧ bucket c0 cend ha sa ∧ bucket c0 cend hb sb
    ∧ rotation_index c = rot ∧ max_requests_per_minute c = 2.

(** The text [h] reads, from position [p] on, [/status/] and then the
    non-empty run of digits [ds], which no further digit follows. *)
Definition occurrence (decimal : N → bool) (h : list N) (p : nat)
    (ds : list N) : Prop :=
  ∃ rest, drop p h = status_prefix ++ ds ++ rest
    ∧ ds ≠ [] ∧ forallb (is_digit decimal) ds = true
    ∧ match rest with c :: _ => is_digit decimal c = false | [] => True end.

(** The excerpt as the specification words it, "the 200 characters
    preceding and the 200 characters following the match", for a match of
    [len] characters at [p], in its three readings: 200 characters to each
    side of the start of the match; 200 characters before the match to 200
    after its end; and the same with the match itself left out. *)
Definition worded_from_start (h : list N) (p : nat) : string :=
  utf8 (sub_ws false (slice h (p - 200) (p + 200))).

Definition worded_around (h : list N) (p len : nat) : string :=
  utf8 (sub_ws false (slice h (p - 200) (p + len + 200))).

Definition worded_without_match (h : list N) (p len : nat) : string :=
  utf8
    (sub_ws false (slice h (p - 200) p ++ slice h (p + len) (p + len + 200))).

(** ** Predicates for further statements about the pool *)

(** The last character of a string, if it has one. *)
Definition last_char (s : string) : option ascii :=
  last (list_ascii_of_string s).

(** The rotation cursor points at a state. *)
Definition cursor_ok (c : NitterClient) : Prop :=
  (rotation_index c < length (states c))%nat.

(** The state [s] does not pass the two tests of [_acquire_instance] when
    the clock reads [now]. *)
Definition blocked (now : Q) (s : InstanceState) : Prop :=
  (now < backoff_until s)%Q ∨ (tokens s < 1)%Q.

(** The tokens of a bucket of capacity [m], less what its refill rate of
    [m / 60] tokens per second has yielded up to its last refill. *)
Definition potential (m : Z) (s : InstanceState) : Q :=
  (tokens s - inject_Z m * (1 # 60) * last_refill s)%Q.

(** [s'] comes from [s] by refills and by [k] acquisitions, between the
    clock readings [t] and [t']: what the bucket holds beyond the yield of
    its rate went down by [k] at least. *)
Definition spent (monotonic : nat → Q) (m : Z) (k : nat) (t t' : nat)
    (s s' : InstanceState) : Prop :=
  (potential m s' + inject_Z (Z.of_nat k) <= potential m s)%Q
  ∧ (last_refill s' = last_refill s
     ∨ ∃ r, (t ≤ r < t')%nat ∧ last_refill s' = monotonic r).

(** No two neighbours in the text are both the space character. *)
Definition no_double_space (l : list N) : Prop :=
  ∀ i, l !! i = Some 32%N → l !! S i ≠ Some 32%N.

End Nitter.

(** * app.py *)

Module App.

(** ** The event broker *)

(** A [queue.Queue]: [maxsize <= 0] means no bound. *)
Record Queue := mkQueue {
  maxsize : Z;
  items : list string
}.

Definition full (q : Queue) : bool :=
  (0 <? maxsize q) && (maxsize q <=? Z.of_nat (length (items q))).

(** [put_nowait]: [None] is the exception [queue.Full]. It never waits. *)
Definition put_nowait (q : Queue) (x : string) : option Queue :=
  if full q then None else Some (mkQueue (maxsize q) (items q ++ [x])).

(** [EventBroker]. Queues are objects compared by identity: [clients]
    holds references, [objects] maps a reference to the queue's state (a
    queue lives on after it is removed from [clients]). *)
Record EventBroker := mkBroker {
  clients : list nat;
  objects : gmap nat Queue;
  next_ref : nat
}.

Definition new_broker : EventBroker := mkBroker [] ∅ O.

(** [list.remove(x)]: the first occurrence only. *)
Fixpoint list_remove (x : nat) (l : list nat) : list nat :=
  match l with
  | [] => []
  | y :: r => if Nat.eqb x y then r else y :: list_remove x r
  end.

(** [register]: a fresh [queue.Queue()], that is, one without bound. *)
Definition register (b : EventBroker) : nat * EventBroker :=
  let r := next_ref b in
  (r, mkBroker (clients b ++ [r]) (<[r := mkQueue 0 []]> (objects b)) (S r)).

(** [unregister]. *)
Definition unregister (client_queue : nat) (b : EventBroker) : EventBroker :=
  if existsb (Nat.eqb client_queue) (clients b)
  then mkBroker (list_remove client_queue (clients b)) (objects b) (next_ref b)
  else b.

(** The loop of [publish] over the copy [list(self._clients)]. *)
Fixpoint publish_loop (payload : string) (snapshot : list nat)
    (b : EventBroker) : EventBroker :=
  match snapshot with
  | [] => b
  | client :: rest =>
      match objects b !! client with
      | None => publish_loop payload rest b
      | Some q =>
          match put_nowait q payload with
          | Some q' =>
              publish_loop payload rest
                (mkBroker (clients b) (<[client := q']> (objects b))
                          (next_ref b))
          | None =>
              publish_loop payload rest
                (mkBroker (list_remove client (clients b)) (objects b)
                          (next_ref b))
          end
      end
  end.

(** The queue behind the reference [r] raises [queue.Full] on a put. *)
Definition is_full (b : EventBroker) (r : nat) : bool :=
  match objects b !! r with
  | Some q => full q
  | None => false
  end.

(** What a put that does not raise leaves in the queue. *)
Definition appended (q : Queue) (payload : string) : Queue :=
  mkQueue (maxsize q) (items q ++ [payload]).

(** The calls that the program makes on the broker. *)
Inductive BrokerOp :=
  | BRegister
  | BUnregister (client_queue : nat)
  | BPublish (payload : string).

Definition broker_step (b : EventBroker) (op : BrokerOp) : EventBroker :=
  match op with
  | BRegister => (register b).2
  | BUnregister r => unregister r b
  | BPublish payload => publish_loop payload (clients b) b
  end.

(** The broker after the calls [ops] on a new one. *)
Definition broker_after (ops : list BrokerOp) : EventBroker :=
  fold_left broker_step ops new_broker.

(** What holds of every broker that the program can build: the subscriber
    list has no reference twice, every reference was handed out by
    [register], and every queue is without bound. *)
Definition broker_ok (b : EventBroker) : Prop :=
  NoDup (clients b)
  ∧ (∀ r, r ∈ clients b → is_Some (objects b !! r))
  ∧ (∀ r q, objects b !! r = Some q → maxsize q = 0 ∧ (r < next_ref b)%nat).

(** The payloads published by the calls [ops], in their order. *)
Definition published (ops : list BrokerOp) : list string :=
  omap (fun op => match op with BPublish p => Some p | _ => None end) ops.

(** The row [r] as [update_target_fetch_state] leaves it. *)
Definition fetched (last_id last_at : option string) (r : Storage.TargetRow)
    : Storage.TargetRow :=
  Storage.mkTarget (Storage.tg_id r) (Storage.tg_type r) (Storage.tg_value r)
                   (Storage.tg_poll_interval_seconds r) last_id last_at.

(** What the program reads of [config.json]. *)
Record Config := mkConfig {
  nitter_instances : list string;
  user_agent : string;
  max_requests_per_instance_per_minute : Z;
  cfg_backoff_base_seconds : Z;
  enable_sse : bool;
  keep_only_last_n_per_target : option Z
}.

(** The objects shared by the closures of [create_app], and the number of
    readings made so far of the monotonic and of the wall clock. *)
Record AppState := mkApp {
  storage : Storage.DB;
  client : Nitter.NitterClient;
  broker : option EventBroker;
  last_run : option string;
  mono_reads : nat;
  wall_reads : nat
}.

(** The dictionary returned by [_fetch_target]. *)
Record FetchResult := mkResult {
  r_target : string;
  r_new : Z;
  r_error : option string;
  r_instance : option string
}.

(** The id under which [_store_entries] stores an entry: its id, or its
    link when the id is empty. *)
Definition tweet_id_of (entry : Nitter.Entry) : string :=
  if str_truthy (Nitter.e_id entry) then Nitter.e_id entry
  else Nitter.e_link entry.

(** [row] is a row that [_store_entries] writes for [entry]. *)
Definition new_row (target_row : Storage.TargetRow) (instance : option string)
    (entry : Nitter.Entry) (row : Storage.TweetRow) : Prop :=
  Storage.tw_id row = tweet_id_of entry
  ∧ Storage.tw_id row ≠ ""
  ∧ Storage.tw_target row
    = Storage.tg_type target_row +:+ ":" +:+ Storage.tg_value target_row
  ∧ Storage.tw_instance row = str_or instance "".

(** The columns of a target that a fetch never writes. *)
Definition fixed_columns (r : Storage.TargetRow)
    : Z * string * string * option Z :=
  (Storage.tg_id r, Storage.tg_type r, Storage.tg_value r,
   Storage.tg_poll_interval_seconds r).

(** [json.dumps] input for the value under ["raw"]. *)
Definition raw_json (r : Nitter.Raw) : JSON :=
  match r with
  | Nitter.RawExcerpt x => JObj [("excerpt", JStr x)]
  | Nitter.RawEntry e => Nitter.fe_dict e
  end.

(** ** The scheduler and the HTTP handlers *)

(** The fields of [Scheduler] that its loop writes. *)
Record Scheduler := mkScheduler {
  sched_last_run : option string;
  queue_size : Z
}.

(** [Scheduler.__init__]. *)
Definition new_scheduler : Scheduler := mkScheduler None 0.

(** What a handler gives back: an exception that escapes it, or
    [jsonify(body), status]. *)
Inductive ApiOutcome :=
  | ApiRaised
  | ApiResponse (status : Z) (body : JSON).

(** Truthiness of a value decoded from JSON. *)
Definition py_truthy (j : JSON) : bool :=
  match j with
  | JNull => false
  | JBool b => b
  | JNum n => negb (n =? 0)
  | JStr s => str_truthy s
  | JArr l => match l with [] => false | _ :: _ => true end
  | JObj f => match f with [] => false | _ :: _ => true end
  end.

(** [d.get(key)] on the dict decoded from a JSON object: the last of the
    fields with that key counts, and a missing key gives [None]. *)
Fixpoint dict_get (key : string) (fields : list (string * JSON)) : JSON :=
  match fields with
  | [] => JNull
  | (k, v) :: rest =>
      if String.eqb k key && negb (existsb (fun f => String.eqb f.1 key) rest)
      then v else dict_get key rest
  end.

(** [str.isspace] of a character below U+0100. *)
Definition isspace (c : ascii) : bool := Nitter.is_space (N_of_ascii c).

(** [s.lstrip()] and [s.strip()] on the characters of a text. *)
Fixpoint lstrip (s : list ascii) : list ascii :=
  match s with
  | c :: r => if isspace c then lstrip r else s
  | [] => []
  end.

Definition strip (s : string) : string :=
  string_of_list_ascii
    (rev (lstrip (rev (lstrip (list_ascii_of_string s))))).

(** The dictionary that [api_tweets] makes of a row: [dict(row)] with
    [raw] replaced by what [json.loads] makes of it, or by the empty
    object when [json.loads] raises. *)
Definition tweet_json (json_loads : string → option JSON)
    (row : Storage.TweetRow) : JSON :=
  JObj [("id", JStr (Storage.tw_id row));
        ("target", JStr (Storage.tw_target row));
        ("content", JStr (Storage.tw_content row));
        ("created_at", JStr (Storage.tw_created_at row));
        ("raw", match json_loads (Storage.tw_raw row) with
                | Some j => j
                | None => JObj []
                end);
        ("fetched_at", JStr (Storage.tw_fetched_at row));
        ("instance", JStr (Storage.tw_instance row))].

(** [api_tweets] on the query parameters [target], [limit] and [q];
    [int_of_str] is [int] on a text, [None] being its [ValueError].
    [storage.get_tweets] binds the limit as a parameter of its SELECT: for
    a limit outside the 64 bits of SQLite that raises [OverflowError].
    Neither exception is caught. *)
Definition api_tweets (json_loads : string → option JSON)
    (order_by : list Storage.TweetRow → list Storage.TweetRow)
    (int_of_str : string → option Z) (target limit q : option string)
    (db : Storage.DB) : ApiOutcome :=
  match (match limit with Some s => int_of_str s | None => Some 50 end) with
  | None => ApiRaised
  | Some n =>
      if negb (Storage.sqlite_int n) then ApiRaised
      else
        ApiResponse 200
          (JArr (map (tweet_json json_loads)
                     (Storage.get_tweets order_by target n q db)))
  end.

(** A text that neither starts nor ends with white space. *)
Definition stripped (s : list ascii) : Prop :=
  (∀ c, head s = Some c → isspace c = false)
  ∧ (∀ c, last s = Some c → isspace c = false).

(** One entry of ["failedInstances"] and the dictionary [summary] of
    [api_fetch_once]. *)
Record Failed := mkFailed {
  f_instance : option string;
  f_error : option string;
  f_target : string
}.

Record Summary := mkSummary {
  newCountsByTarget : gmap string Z;
  failedInstances : list Failed
}.

(** The start of [create_app]: the configured targets are written when the
    targets table is empty. A configured target is its type, value and
    poll interval. *)
Definition seed_targets (configured : list (string * string * Z))
    (db : Storage.DB) : Storage.DB :=
  match Storage.get_targets db with
  | [] =>
      fold_left
        (fun d (t : string * string * Z) =>
           (Storage.add_target t.1.1 t.1.2 t.2 d).2)
        configured db
  | _ :: _ => db
  end.

Section WithEnvironment.
Variable json_dumps : JSON → string.
Variable order_by : list Storage.TweetRow → list Storage.TweetRow.
Variable decimal : N → bool.
Variable monotonic : nat → Q.
(** [datetime.now(timezone.utc)]: the [n]-th reading of the wall clock,
    in microseconds; [isoformat] and [fromisoformat] of [datetime], the
    latter raising [ValueError] ([None]) on other text. A text without a
    UTC offset is [naive]: [fromisoformat] makes a datetime without a time
    zone of it, which stands for no instant. *)
Variable utcnow : nat → Z.
Variable isoformat : Z → string.
Variable fromisoformat : string → option Z.
Variable naive : string → bool.

(** [EventBroker.publish]. *)
Definition publish (event_type : string) (data : JSON) (b : EventBroker)
    : EventBroker :=
  let payload :=
    json_dumps (JObj [("type", JStr event_type); ("data", data)]) in
  publish_loop payload (clients b) b.

(** [if broker: broker.publish(...)]. *)
Definition publish_opt (event_type : string) (data : JSON)
    (b : option EventBroker) : option EventBroker :=
  match b with
  | Some br => Some (publish event_type data br)
  | None => None
  end.

(** The due test of [Scheduler.run] for one target at time [now], for a
    [last_fetched_at] that carries a UTC offset, as every text does that
    the program wrote there; [due_raises] below has the other case. *)
Definition interval_of (target : Storage.TargetRow) : Z :=
  match Storage.tg_poll_interval_seconds target with
  | Some n => if n =? 0 then 300 else n
  | None => 300
  end.

Definition is_due (now : Z) (target : Storage.TargetRow) : bool :=
  match Storage.tg_last_fetched_at target with
  | Some last_fetch =>
      if str_truthy last_fetch
      then match fromisoformat last_fetch with
           | Some last_dt => interval_of target * 1000000 <=? now - last_dt
           | None => true
           end
      else true
  | None => true
  end.

(** The due test raises: [fromisoformat] accepts [last_fetched_at] and
    makes a naive datetime of it, and [now - last_dt], [now] being aware of
    its time zone, raises [TypeError], which the [except ValueError] around
    the test does not catch. *)
Definition due_raises (target : Storage.TargetRow) : bool :=
  match Storage.tg_last_fetched_at target with
  | Some last_fetch =>
      str_truthy last_fetch
      && match fromisoformat last_fetch with
         | Some _ => naive last_fetch
         | None => false
         end
  | None => false
  end.

(** [str(exc)] of that [TypeError]. *)
Definition type_error_text : string :=
  "can't subtract offset-naive and offset-aware datetimes".

(** One iteration of the loop of [_store_entries]. *)
Definition store_entry (target_row : Storage.TargetRow)
    (instance : option string) (entry : Nitter.Entry)
    (acc : Z * AppState) : Z * AppState :=
  let '(new_count, a) := acc in
  let tweet_id :=
    if str_truthy (Nitter.e_id entry) then Nitter.e_id entry
    else Nitter.e_link entry in
  let content :=
    if str_truthy (Nitter.e_title entry) then Nitter.e_title entry
    else if str_truthy (Nitter.e_summary entry) then Nitter.e_summary entry
    else "" in
  let '(created_at, w1) :=
    if str_truthy (Nitter.e_published entry)
    then (Nitter.e_published entry, wall_reads a)
    else (isoformat (utcnow (wall_reads a)), S (wall_reads a)) in
  let raw := Nitter.e_raw entry in
  if negb (str_truthy tweet_id)
  then (new_count,
        mkApp (storage a) (client a) (broker a) (last_run a)
              (mono_reads a) w1)
  else
    let '(stored, db) :=
      Storage.upsert_tweet json_dumps tweet_id
        (Storage.tg_type target_row +:+ ":" +:+ Storage.tg_value target_row)
        content created_at (raw_json raw)
        (isoformat (utcnow w1)) (str_or instance "") (storage a) in
    let w2 := S w1 in
    if stored
    then (new_count + 1,
          mkApp db (client a)
                (publish_opt "new_tweet"
                   (JObj [("target", JStr (Storage.tg_value target_row));
                          ("target_id", JNum (Storage.tg_id target_row));
                          ("tweet_id", JStr tweet_id);
                          ("created_at", JStr created_at)])
                   (broker a))
                (last_run a) (mono_reads a) w2)
    else (new_count,
          mkApp db (client a) (broker a) (last_run a) (mono_reads a) w2).

(** [_store_entries]. *)
Definition _store_entries (config : Config)
    (target_row : Storage.TargetRow) (entries : list Nitter.Entry)
    (instance : option string) (a : AppState) : Z * AppState :=
  let '(new_count, a1) :=
    fold_left (fun acc e => store_entry target_row instance e acc)
              entries (0, a) in
  match keep_only_last_n_per_target config with
  | Some keep_limit =>
      if keep_limit =? 0 then (new_count, a1)
      else (new_count,
            mkApp (Storage.prune_old_entries order_by keep_limit (storage a1))
                  (client a1) (broker a1) (last_run a1)
                  (mono_reads a1) (wall_reads a1))
  | None => (new_count, a1)
  end.

(** [_fetch_target]. *)
Definition _fetch_target (config : Config)
    (net : string → Nitter.HttpOutcome)
    (target_row : Storage.TargetRow) (a : AppState)
    : FetchResult * AppState :=
  let '((entries, instance, error), c1, t1) :=
    Nitter.fetch_target decimal monotonic net (Storage.tg_type target_row)
      (Storage.tg_value target_row) (client a) (mono_reads a) in
  let now_iso := isoformat (utcnow (wall_reads a)) in
  let a1 := mkApp (storage a) c1 (broker a) (last_run a) t1
                  (S (wall_reads a)) in
  if opt_truthy error
  then
    (mkResult (Storage.tg_value target_row) 0 error instance,
     mkApp (storage a1) (client a1)
           (publish_opt "error"
              (JObj [("target", JStr (Storage.tg_value target_row));
                     ("message", JOpt error);
                     ("instance", JOpt instance)])
              (broker a1))
           (last_run a1) (mono_reads a1) (wall_reads a1))
  else
    let '(new_count, a2) :=
      _store_entries config target_row entries instance a1 in
    let first_id :=
      match entries with
      | e :: _ => Some (Nitter.e_id e)
      | [] => None
      end in
    let db :=
      Storage.update_target_fetch_state (Storage.tg_id target_row)
        first_id (Some now_iso) (storage a2) in
    (mkResult (Storage.tg_value target_row) new_count None instance,
     mkApp db (client a2)
           (publish_opt "cooldown"
              (JObj [("target", JStr (Storage.tg_value target_row));
                     ("next_run_in",
                      match Storage.tg_poll_interval_seconds target_row with
                      | Some n => JNum n
                      | None => JNull
                      end)])
              (broker a2))
           (Some now_iso) (mono_reads a2) (wall_reads a2)).
(** The body of the loop of [Scheduler.run] for one target whose due test
    does not raise; [now] was read before the loop. The callback is
    [_fetch_target], which returns. *)
Definition run_target (config : Config) (net : string → Nitter.HttpOutcome)
    (now : Z) (acc : AppState * Scheduler) (target : Storage.TargetRow)
    : AppState * Scheduler :=
  let '(a, s) := acc in
  if is_due now target
  then
    let size := queue_size s + 1 in
    let a1 :=
      mkApp (storage a) (client a)
            (publish_opt "tick"
               (JObj [("target", JStr (Storage.tg_value target));
                      ("target_id", JNum (Storage.tg_id target));
                      ("scheduled_at", JStr (isoformat now))])
               (broker a))
            (last_run a) (mono_reads a) (wall_reads a) in
    let '(_, a2) := _fetch_target config net target a1 in
    let last := isoformat (utcnow (wall_reads a2)) in
    (mkApp (storage a2) (client a2) (broker a2) (last_run a2)
           (mono_reads a2) (S (wall_reads a2)),
     mkScheduler (Some last) (Z.max 0 (size - 1)))
  else (a, s).

(** The [for] loop of [Scheduler.run]: the result says whether the loop
    was left by the exception of a due test, the targets from that one on
    not being looked at. *)
Fixpoint run_targets (config : Config) (net : string → Nitter.HttpOutcome)
    (now : Z) (targets : list Storage.TargetRow) (w : AppState * Scheduler)
    : (AppState * Scheduler) * bool :=
  match targets with
  | [] => (w, false)
  | target :: rest =>
      if due_raises target then (w, true)
      else run_targets config net now rest (run_target config net now w target)
  end.

(** One pass of the loop of [Scheduler.run], up to the sleep: the [for]
    loop and the [except Exception] around it, which logs the exception
    and publishes it as an [error] event. *)
Definition run_cycle (config : Config) (net : string → Nitter.HttpOutcome)
    (w : AppState * Scheduler) : AppState * Scheduler :=
  let '(a, s) := w in
  let targets := Storage.get_targets (storage a) in
  let now := utcnow (wall_reads a) in
  let '((a1, s1), raised) :=
    run_targets config net now targets
      (mkApp (storage a) (client a) (broker a) (last_run a) (mono_reads a)
             (S (wall_reads a)),
       s) in
  if raised
  then (mkApp (storage a1) (client a1)
              (publish_opt "error"
                 (JObj [("message", JStr type_error_text)]) (broker a1))
              (last_run a1) (mono_reads a1) (wall_reads a1),
        s1)
  else (a1, s1).

(** The targets that a pass looks at: those before the first one whose
    due test raises. *)
Fixpoint tested (targets : list Storage.TargetRow) : list Storage.TargetRow :=
  match targets with
  | [] => []
  | target :: rest =>
      if due_raises target then [] else target :: tested rest
  end.

(** [api_targets_create] on the decoded request body. [int_of_str] is
    [int] on a text, [None] being its [ValueError]. The exceptions are the
    [AttributeError] of [.get] and [.strip] on a value that has no such
    method, the errors of [int], and the [TypeError] of hashing a list or a
    dict for the set membership test. The numbers of [JSON] are integers; a
    number with a fraction is outside this model. *)
Definition api_targets_create (int_of_str : string → option Z)
    (payload : JSON) (a : AppState) : ApiOutcome * AppState :=
  match payload with
  | JObj fields =>
      let target_type := dict_get "type" fields in
      let v := dict_get "value" fields in
      let value :=
        if py_truthy v
        then match v with JStr s => Some (strip s) | _ => None end
        else Some (strip "") in
      let p := dict_get "poll_interval_seconds" fields in
      let poll_interval :=
        if py_truthy p
        then match p with
             | JNum n => Some n
             | JBool b => Some (if b then 1 else 0)
             | JStr s => int_of_str s
             | _ => None
             end
        else Some 300 in
      match value, poll_interval with
      | Some value, Some poll_interval =>
          match target_type with
          | JArr _ | JObj _ => (ApiRaised, a)
          | _ =>
              match target_type with
              | JStr ty =>
                  if String.eqb ty "user" || String.eqb ty "hashtag"
                  then
                    if negb (str_truthy value)
                    then (ApiResponse 400
                            (JObj [("error",
                                    JStr "value darf nicht leer sein")]),
                          a)
                    else if poll_interval <? 60
                    then (ApiResponse 400
                            (JObj [("error",
                                    JStr "poll_interval_seconds muss >= 60 sein")]),
                          a)
                    else
                      let '(new_id, db) :=
                        Storage.add_target ty value poll_interval (storage a) in
                      let '(b, w) :=
                        match broker a with
                        | Some br =>
                            (Some
                               (publish "tick"
                                  (JObj [("target", JStr value);
                                         ("target_id", JNum new_id);
                                         ("scheduled_at",
                                          JStr (isoformat
                                                  (utcnow (wall_reads a))))])
                                  br),
                             S (wall_reads a))
                        | None => (None, wall_reads a)
                        end in
                      (ApiResponse 200
                         (JObj [("id", JNum new_id); ("type", JStr ty);
                                ("value", JStr value);
                                ("poll_interval_seconds", JNum poll_interval)]),
                       mkApp db (client a) b (last_run a) (mono_reads a) w)
                  else (ApiResponse 400
                          (JObj [("error",
                                  JStr "type muss user oder hashtag sein")]),
                        a)
              | _ => (ApiResponse 400
                        (JObj [("error",
                                JStr "type muss user oder hashtag sein")]),
                      a)
              end
          end
      | _, _ => (ApiRaised, a)
      end
  | _ => (ApiRaised, a)
  end.

(** [api_targets_delete] on the id that the route converter [int] made of
    the path. [storage.get_target] binds the id as a parameter of its
    SELECT: for an id outside the 64 bits of SQLite that raises
    [OverflowError], which the handler does not catch. *)
Definition api_targets_delete (target_id : Z) (a : AppState)
    : ApiOutcome * AppState :=
  if negb (Storage.sqlite_int target_id) then (ApiRaised, a)
  else
    match Storage.get_target target_id (storage a) with
    | None =>
        (ApiResponse 404 (JObj [("error", JStr "Target nicht gefunden")]), a)
    | Some _ =>
        (ApiResponse 200 (JObj [("status", JStr "deleted")]),
         mkApp (Storage.delete_target target_id (storage a)) (client a)
               (publish_opt "cooldown"
                  (JObj [("target", JNum target_id); ("deleted", JBool true)])
                  (broker a))
               (last_run a) (mono_reads a) (wall_reads a))
    end.

(** One iteration of the loop of [api_fetch_once]. *)
Definition fetch_once_step (config : Config)
    (net : string → Nitter.HttpOutcome) (acc : Summary * AppState)
    (target : Storage.TargetRow) : Summary * AppState :=
  let '(summary, a) := acc in
  let '(result, a1) := _fetch_target config net target a in
  let counts :=
    <[Storage.tg_value target := r_new result]> (newCountsByTarget summary) in
  let failed :=
    if opt_truthy (r_error result)
    then failedInstances summary
         ++ [mkFailed (r_instance result) (r_error result)
                      (Storage.tg_value target)]
    else failedInstances summary in
  (mkSummary counts failed, a1).

(** [api_fetch_once]: the summary that is returned as JSON. *)
Definition api_fetch_once (config : Config)
    (net : string → Nitter.HttpOutcome) (a : AppState) : Summary * AppState :=
  fold_left (fetch_once_step config net) (Storage.get_targets (storage a))
            (mkSummary ∅ [], a).
End WithEnvironment.

End App.

(** * Concrete data for the scenarios *)

Module Examples.

(** A [json.loads] that knows the empty object only. *)
Definition loads_only_empty (s : string) : option JSON :=
  if String.eqb s "{}" then Some (JObj []) else None.

Definition dumps_const (j : JSON) : string := "{}".

(** A [datetime] that takes its argument to be a time value already. *)
Definition datetime_id (s : string) : option string := Some s.

Definition sorter : list Storage.TweetRow → list Storage.TweetRow :=
  Storage.sort_desc (Storage.sort_key datetime_id).

Definition row (i created_at raw : string) : Storage.TweetRow :=
  Storage.mkTweet i "user:alice" "text" created_at raw
                  "2024-01-02 00:00:00" "https://a".

(** Three posts of [user:alice] at times T1 < T2 < T3. *)
Definition three_posts : Storage.DB :=
  Storage.mkDB
    [row "t1" "2024-01-01 00:00:01" "{}";
     row "t3" "2024-01-01 00:00:03" "{}";
     row "t2" "2024-01-01 00:00:02" "{}"]
    [] 1.

(** A [datetime] that reads the texts that start with a digit, as the
    times of ISO 8601 do, and gives NULL for every other text. *)
Definition datetime_iso (s : string) : option string :=
  match s with
  | String c _ =>
      if Nat.leb 48 (nat_of_ascii c) && Nat.leb (nat_of_ascii c) 57
      then Some s else None
  | EmptyString => None
  end.

Definition sorter_iso : list Storage.TweetRow → list Storage.TweetRow :=
  Storage.sort_desc (Storage.sort_key datetime_iso).

(** Three posts of [user:alice] as they come from a feed, stored in the
    order of their times T1 < T2 < T3; [created_at] is the [pubDate] of
    the feed, a date of RFC 822. *)
Definition feed_posts : Storage.DB :=
  Storage.mkDB
    [row "t1" "Mon, 01 Jan 2024 00:00:01 GMT" "{}";
     row "t2" "Mon, 01 Jan 2024 00:00:02 GMT" "{}";
     row "t3" "Mon, 01 Jan 2024 00:00:03 GMT" "{}"]
    [] 1.

(** A table with a row whose [raw] is not JSON. *)
Definition damaged : Storage.DB :=
  Storage.mkDB
    [row "t1" "2024-01-01 00:00:01" "{}";
     row "t2" "2024-01-01 00:00:02" "{"]
    [] 1.

(** A monotonic clock that advances by a tenth of a second per reading. *)
Definition clock (n : nat) : Q := Z.of_nat n # 10.

(** The pool of scenario S1 right after startup, and the result of the
    [n]-th acquisition in a row. *)
Definition s1_start : Nitter.NitterClient * nat :=
  default (Nitter.mkClient 1 [] 0 0, O)
          (Nitter.init clock ["https://a"; "https://b"] "agent" 2 2 0).

Fixpoint s1_acquire (n : nat) : option nat * Nitter.NitterClient * nat :=
  match n with
  | O => (None, s1_start.1, s1_start.2)
  | S n' =>
      let r := s1_acquire n' in
      Nitter._acquire_instance clock r.1.2 r.2
  end.

(** A page that starts with a status link and goes on for 500 characters. *)
Definition long_page : list N :=
  Nitter.codepoints "/status/1" ++ repeat 120%N 500.

(** Two blocks of the table of decimal digits beyond [0-9]: the
    Arabic-Indic digits and their extended forms. *)
Definition decimal (c : N) : bool :=
  ((1632 <=? c)%N && (c <=? 1641)%N) || ((1776 <=? c)%N && (c <=? 1785)%N).

(** The double quote character, as a string. *)
Definition dquote : string := String (ascii_of_nat 34) EmptyString.

(** The response of scenario S4: HTML that [feedparser] makes nothing of. *)
Definition s4_response : Nitter.Response :=
  Nitter.mkResponse 200 (Some "text/html; charset=utf-8")
    (Nitter.mkFeed true [])
    (Nitter.codepoints
       ("<a href=" +:+ dquote +:+ "/user/status/12345" +:+ dquote
        +:+ ">a post</a>")).

(** A wall clock that starts at some instant and advances one second per
    reading, with a decimal notation for instants standing in for ISO 8601. *)
Definition utcnow (n : nat) : Z := 1700000000000000 + Z.of_nat n * 1000000.

Definition isoformat (z : Z) : string := str_of_int z.

Definition fromisoformat (s : string) : option Z :=
  Z.of_int <$> NilZero.int_of_string s.

(** In that notation a leading minus sign stands for a time without a
    UTC offset. *)
Definition naive (s : string) : bool := String.prefix "-" s.

Definition config : App.Config :=
  App.mkConfig ["https://a"; "https://b"] "agent" 2 2 true (Some 2).

(** The target [alice], last fetched a while ago. *)
Definition alice : Storage.TargetRow :=
  Storage.mkTarget 1 "user" "alice" (Some 60) (Some "t9")
                   (Some (isoformat 1699999000000000)).

(** The application right after startup, with three posts stored. *)
Definition app0 : App.AppState :=
  App.mkApp
    (Storage.mkDB (Storage.tweets three_posts) [alice] 2)
    s1_start.1 (Some (App.register App.new_broker).2) None s1_start.2 O.

(** The target [bob], whose [last_fetched_at] was written by another
    hand, without a UTC offset; and the application with [bob] before
    [alice] in the table. *)
Definition bob : Storage.TargetRow :=
  Storage.mkTarget 2 "user" "bob" (Some 60) None (Some "-1699999000000000").

Definition app_naive : App.AppState :=
  App.mkApp
    (Storage.mkDB (Storage.tweets three_posts) [bob; alice] 3)
    s1_start.1 (Some (App.register App.new_broker).2) None s1_start.2 O.

(** A network on which every request raises an exception whose [str()] is
    empty, such as [TimeoutError()]. *)
Definition net_silent_failure (url : string) : Nitter.HttpOutcome :=
  Nitter.Raises (Nitter.mkExn "").

(** A network that answers every request with an empty, well-formed feed. *)
Definition net_empty_feed (url : string) : Nitter.HttpOutcome :=
  Nitter.Returned
    (Nitter.mkResponse 200 (Some "application/rss+xml")
                       (Nitter.mkFeed false []) []).

(** A pool configured with trailing slashes on a URL and a backoff base
    of zero, right after startup. *)
Definition slash_start : Nitter.NitterClient * nat :=
  default (Nitter.mkClient 1 [] 0 0, O)
          (Nitter.init clock ["https://a//"; "https://b"] "agent" 2 0 0).

(** An entry as the parsers build it, with the id [i]. *)
Definition post (i : string) : Nitter.Entry :=
  Nitter.mkEntry i "a post" "" i "2024-01-01 00:00:04"
                 (Nitter.RawExcerpt "a post").

(** A network on which every request raises a connection error. *)
Definition net_down (url : string) : Nitter.HttpOutcome :=
  Nitter.Raises (Nitter.mkExn "connection refused").

(** [int] on the decimal notation of an integer. *)
Definition int_of_str (s : string) : option Z :=
  Z.of_int <$> NilZero.int_of_string s.

End Examples.

(** * Properties of the helpers *)

Lemma str_truthy_true (s : string) : str_truthy s = true ↔ s ≠ "".
Proof. destruct s; simpl; split; intros; congruence. Qed.

Lemma str_truthy_false (s : string) : str_truthy s = false ↔ s = "".
Proof. destruct s; simpl; split; intros; congruence. Qed.

(** * Properties of the store *)

Section StorageFacts.
Import Storage.
Variable json_dumps : JSON → string.

Lemma mem_elem_of (i : string) (l : list string) : mem i l = true ↔ i ∈ l.
Proof.
  unfold mem. rewrite existsb_exists. split.
  - intros (x & Hx & He). apply String.eqb_eq in He. subst.
    by apply list_elem_of_In.
  - intros H. exists i. split; [by apply list_elem_of_In | apply String.eqb_refl].
Qed.

Lemma mem_false (i : string) (l : list string) : mem i l = false ↔ i ∉ l.
Proof.
  rewrite <- mem_elem_of. destruct (mem i l); split; intros; congruence.
Qed.

Lemma ids_app (a b : list TweetRow) : ids (a ++ b) = ids a ++ ids b.
Proof. unfold ids. apply map_app. Qed.

(** A call on an id that is present changes nothing and answers [False]. *)
Lemma call_present (c : UpsertCall) (db : DB) :
  c_id c ∈ ids (tweets db) → call json_dumps c db = (false, db).
Proof.
  intros H. unfold call, upsert_tweet.
  apply mem_elem_of in H. by rewrite H.
Qed.

(** A call on an absent id appends exactly the new row and answers [True]. *)
Lemma call_absent (c : UpsertCall) (db : DB) :
  c_id c ∉ ids (tweets db) →
  call json_dumps c db =
    (true,
     with_tweets db
       (tweets db ++
          [mkTweet (c_id c) (c_target c) (c_content c) (c_created_at c)
                   (json_dumps (c_raw c)) (c_fetched_at c) (c_instance c)])).
Proof.
  intros H. unfold call, upsert_tweet.
  apply mem_false in H. by rewrite H.
Qed.

Lemma call_ids (c : UpsertCall) (db : DB) (i : string) :
  i ∈ ids (tweets (call json_dumps c db).2) ↔ i ∈ ids (tweets db) ∨ i = c_id c.
Proof.
  destruct (decide (c_id c ∈ ids (tweets db))) as [Hin | Hout].
  - rewrite call_present by done. simpl. split; [auto |].
    intros [H | ->]; done.
  - rewrite call_absent by done. simpl. rewrite ids_app. simpl.
    rewrite elem_of_app, list_elem_of_singleton. done.
Qed.

Lemma call_NoDup (c : UpsertCall) (db : DB) :
  NoDup (ids (tweets db)) → NoDup (ids (tweets (call json_dumps c db).2)).
Proof.
  intros Hnd. destruct (decide (c_id c ∈ ids (tweets db))) as [Hin | Hout].
  - by rewrite call_present.
  - rewrite call_absent by done. simpl. rewrite ids_app. simpl.
    apply NoDup_app. split; [done |]. split.
    + intros x Hx Hx'. apply list_elem_of_singleton in Hx'. by subst.
    + apply NoDup_singleton.
Qed.

Lemma calls_app (cs1 cs2 : list UpsertCall) (db : DB) :
  calls json_dumps (cs1 ++ cs2) db =
    ((calls json_dumps cs1 db).1
       ++ (calls json_dumps cs2 (calls json_dumps cs1 db).2).1,
     (calls json_dumps cs2 (calls json_dumps cs1 db).2).2).
Proof.
  revert db. induction cs1 as [| c cs1 IH]; intros db; simpl.
  - by destruct (calls json_dumps cs2 db).
  - destruct (call json_dumps c db) as [b db1] eqn:Hc.
    rewrite IH. destruct (calls json_dumps cs1 db1) as [bs db2]. simpl.
    by destruct (calls json_dumps cs2 db2).
Qed.

Lemma calls_length (cs : list UpsertCall) (db : DB) :
  length (calls json_dumps cs db).1 = length cs.
Proof.
  revert db. induction cs as [| c cs IH]; intros db; simpl; [done |].
  destruct (call json_dumps c db) as [b db1].
  specialize (IH db1). destruct (calls json_dumps cs db1). simpl in *. lia.
Qed.

Lemma calls_cons (c : UpsertCall) (cs : list UpsertCall) (db : DB) :
  calls json_dumps (c :: cs) db =
    ((call json_dumps c db).1
       :: (calls json_dumps cs (call json_dumps c db).2).1,
     (calls json_dumps cs (call json_dumps c db).2).2).
Proof.
  simpl. destruct (call json_dumps c db) as [b db1]. simpl.
  by destruct (calls json_dumps cs db1).
Qed.

Lemma calls_ids (cs : list UpsertCall) (db : DB) (i : string) :
  i ∈ ids (tweets (calls json_dumps cs db).2)
  ↔ i ∈ ids (tweets db) ∨ i ∈ map c_id cs.
Proof.
  revert db. induction cs as [| c cs IH]; intros db.
  - simpl. rewrite elem_of_nil. tauto.
  - rewrite calls_cons. simpl. rewrite IH, call_ids, elem_of_cons. tauto.
Qed.

Lemma calls_NoDup (cs : list UpsertCall) (db : DB) :
  NoDup (ids (tweets db)) → NoDup (ids (tweets (calls json_dumps cs db).2)).
Proof.
  revert db. induction cs as [| c cs IH]; intros db Hnd; [done |].
  rewrite calls_cons. simpl. by apply IH, call_NoDup.
Qed.

(** C1. Starting from a table whose ids are distinct, after any sequence
    of calls of [upsert_tweet] the ids are distinct and every presented id
    has a row; the call at position [k] finds distinct ids, answers [True]
    exactly when its id was neither in the table at the start nor
    presented by an earlier call, and when it answers [False] it leaves
    the database as it was. *)
Theorem upsert_one_row_per_id (db : DB) (cs : list UpsertCall) :
  NoDup (ids (tweets db)) →
  let res := calls json_dumps cs db in
  NoDup (ids (tweets res.2))
  ∧ (∀ c, c ∈ cs → c_id c ∈ ids (tweets res.2))
  ∧ ∀ k c, cs !! k = Some c →
      let before := (calls json_dumps (take k cs) db).2 in
      let step := call json_dumps c before in
      NoDup (ids (tweets before))
      ∧ (calls json_dumps (take (S k) cs) db).2 = step.2
      ∧ NoDup (ids (tweets step.2))
      ∧ res.1 !! k = Some step.1
      ∧ (step.1 = true
         ↔ (c_id c ∉ ids (tweets db)) ∧ (c_id c ∉ map c_id (take k cs)))
      ∧ (step.1 = false → step.2 = before).
Proof.
  intros Hnd res. subst res. split; [by apply calls_NoDup |]. split.
  { intros c Hc. apply calls_ids. right. by apply list_elem_of_fmap_2. }
  intros k c Hk before step.
  assert (Hb : NoDup (ids (tweets before))) by by apply calls_NoDup.
  split; [done |]. split.
  { rewrite (take_S_r _ _ _ Hk), calls_app. simpl.
    fold before. by destruct (call json_dumps c before). }
  split; [by apply call_NoDup |]. split.
  { rewrite <- (take_drop_middle _ _ _ Hk) at 1. rewrite calls_app.
    cbn [fst snd]. fold before.
    apply lookup_lt_Some in Hk.
    rewrite lookup_app_r; rewrite calls_length, length_take; [| lia].
    replace (k - (k `min` length cs))%nat with O by lia.
    rewrite calls_cons. done. }
  subst step.
  destruct (decide (c_id c ∈ ids (tweets before))) as [Hin | Hout].
  - rewrite call_present by done. simpl. split; [| done].
    split; [done |]. intros [H1 H2]. apply calls_ids in Hin. tauto.
  - rewrite call_absent by done. simpl. split; [| done].
    split; [| done]. intros _. subst before.
    rewrite calls_ids in Hout. tauto.
Qed.

End StorageFacts.

(** C1 at a concrete input: [t1], [t2], [t1] presented to an empty table. *)
Lemma upsert_one_row_per_id_witness :
  let dumps := fun _ : JSON => "null" in
  let c1 := Storage.mkCall "t1" "user:alice" "a" "T1" JNull "F1" "https://a" in
  let c2 := Storage.mkCall "t2" "user:alice" "b" "T2" JNull "F2" "https://a" in
  let c3 := Storage.mkCall "t1" "user:alice" "c" "T3" JNull "F3" "https://b" in
  (Storage.calls dumps [c1; c2; c3] Storage.empty_db).1 = [true; true; false]
  ∧ NoDup (Storage.ids
             (Storage.tweets
                (Storage.calls dumps [c1; c2; c3] Storage.empty_db).2)).
Proof.
  intros dumps c1 c2 c3. split; [reflexivity |].
  apply (upsert_one_row_per_id dumps Storage.empty_db [c1; c2; c3]).
  simpl. apply NoDup_nil_2.
Defined.

(** ** Pruning *)

Section PruneFacts.
Import Storage.
Variable datetime : string → option string.
Variable order_by : list TweetRow → list TweetRow.
Hypothesis order_by_ok : sorter_ok datetime order_by.

Lemma string_leb_trans (a b c : string) :
  String.leb a b = true → String.leb b c = true → String.leb a c = true.
Proof.
  unfold String.leb. intros H1 H2.
  destruct (String.compare a b) eqn:E1; try discriminate;
    destruct (String.compare b c) eqn:E2; try discriminate.
  - apply String.compare_eq_iff in E1 as ->. by rewrite E2.
  - apply String.compare_eq_iff in E1 as ->. by rewrite E2.
  - apply String.compare_eq_iff in E2 as <-. by rewrite E1.
  - change (OrderedTypeEx.String_as_OT.cmp a b = Lt) in E1.
    change (OrderedTypeEx.String_as_OT.cmp b c = Lt) in E2.
    apply OrderedTypeEx.String_as_OT.cmp_lt in E1, E2.
    pose proof (OrderedTypeEx.String_as_OT.lt_trans _ _ _ E1 E2) as H.
    apply OrderedTypeEx.String_as_OT.cmp_lt in H.
    change (String.compare a c = Lt) in H. by rewrite H.
Qed.

Lemma sql_le_trans (a b c : option string) :
  sql_le a b = true → sql_le b c = true → sql_le a c = true.
Proof.
  destruct a, b, c; simpl; try done. apply string_leb_trans.
Qed.

Lemma desc_trans : Relations_1.Transitive (desc datetime).
Proof. intros x y z Hxy Hyz. unfold desc in *. by eapply sql_le_trans. Qed.

Lemma filter_Permutation {A} (f : A → bool) (l k : list A) :
  l ≡ₚ k → List.filter f l ≡ₚ List.filter f k.
Proof.
  induction 1 as [| x l k _ IH | x y l | l k m _ IH1 _ IH2]; simpl.
  - done.
  - destruct (f x); [by constructor | done].
  - destruct (f x), (f y); try done. apply perm_swap.
  - by etrans.
Qed.

Lemma filter_all {A} (f : A → bool) (l : list A) :
  (∀ x, x ∈ l → f x = true) → List.filter f l = l.
Proof.
  induction l as [| a l IH]; intros H; simpl; [done |].
  rewrite H by constructor. f_equal. apply IH. intros x Hx. apply H.
  by constructor.
Qed.

Lemma filter_none {A} (f : A → bool) (l : list A) :
  (∀ x, x ∈ l → f x = false) → List.filter f l = [].
Proof.
  induction l as [| a l IH]; intros H; simpl; [done |].
  rewrite H by constructor. apply IH. intros x Hx. apply H. by constructor.
Qed.

Lemma rows_of_target (t : string) (l : list TweetRow) (r : TweetRow) :
  r ∈ rows_of t l ↔ r ∈ l ∧ tw_target r = t.
Proof.
  unfold rows_of. rewrite !list_elem_of_In, filter_In, String.eqb_eq. done.
Qed.

(** A DELETE for one target leaves the rows of every other target. *)
Lemma prune_target_other (n : Z) (l : list TweetRow) (t t' : string) :
  t' ≠ t → rows_of t' (prune_target order_by n l t) = rows_of t' l.
Proof.
  intros Hne. unfold prune_target, rows_of.
  generalize (newest_ids order_by t n l) as keep. intros keep.
  induction l as [| r l IH]; simpl; [done |].
  destruct (String.eqb (tw_target r) t') eqn:E'.
  - apply String.eqb_eq in E'.
    assert (String.eqb (tw_target r) t = false) as ->
      by (apply String.eqb_neq; congruence).
    rewrite andb_false_r. simpl.
    apply String.eqb_eq in E'. rewrite E'. by f_equal.
  - destruct (negb (negb (mem (tw_id r) keep) && String.eqb (tw_target r) t));
      simpl; [by rewrite E' | done].
Qed.

(** Of the target's own rows it keeps those whose id was selected. *)
Lemma prune_target_same (n : Z) (l : list TweetRow) (t : string) :
  rows_of t (prune_target order_by n l t)
  = List.filter (fun r => mem (tw_id r) (newest_ids order_by t n l))
                (rows_of t l).
Proof.
  unfold prune_target, rows_of.
  generalize (newest_ids order_by t n l) as keep. intros keep.
  induction l as [| r l IH]; simpl; [done |].
  destruct (String.eqb (tw_target r) t) eqn:E; simpl.
  - rewrite andb_true_r, negb_involutive.
    destruct (mem (tw_id r) keep); simpl; [by rewrite E, IH | done].
  - rewrite andb_false_r. simpl. by rewrite E.
Qed.

Lemma newest_ids_ext (n : Z) (l l' : list TweetRow) (t : string) :
  rows_of t l = rows_of t l' →
  newest_ids order_by t n l = newest_ids order_by t n l'.
Proof. unfold newest_ids. by intros ->. Qed.

Lemma prune_fold (n : Z) (ts : list string) (l : list TweetRow) (t : string) :
  NoDup ts →
  rows_of t (fold_left (prune_target order_by n) ts l)
  = if decide (t ∈ ts) then rows_of t (prune_target order_by n l t)
    else rows_of t l.
Proof.
  revert l. induction ts as [| t0 ts IH]; intros l Hnd; cbn [fold_left].
  - by rewrite decide_False by apply not_elem_of_nil.
  - apply NoDup_cons in Hnd as [Hnot Hnd]. rewrite IH by done.
    destruct (decide (t0 = t)) as [-> | Hne].
    + rewrite decide_False by done.
      by rewrite decide_True by constructor.
    + destruct (decide (t ∈ ts)) as [Hin | Hout].
      * rewrite decide_True by by constructor.
        rewrite !prune_target_same.
        rewrite (newest_ids_ext n _ l) by by apply prune_target_other.
        by rewrite prune_target_other.
      * rewrite decide_False
          by (intros [? | ?]%elem_of_cons; [congruence | done]).
        by apply prune_target_other.
Qed.

Lemma NoDup_ids_filter (f : TweetRow → bool) (l : list TweetRow) :
  NoDup (ids l) → NoDup (ids (List.filter f l)).
Proof.
  induction l as [| r l IH]; simpl; [done |].
  intros [Hnot Hnd]%NoDup_cons. destruct (f r); simpl; [| by apply IH].
  apply NoDup_cons. split; [| by apply IH].
  intros Hin. apply Hnot. unfold ids in *.
  apply list_elem_of_fmap in Hin as (x & Hx & Hin).
  apply list_elem_of_fmap. exists x. split; [done |].
  apply list_elem_of_In. apply list_elem_of_In in Hin.
  by apply filter_In in Hin as [? _].
Qed.

(** Selecting by the ids of a prefix of a duplicate-free list gives back
    that prefix. *)
Lemma filter_prefix_ids_app (l1 l2 : list TweetRow) :
  NoDup (ids (l1 ++ l2)) →
  List.filter (fun r => mem (tw_id r) (ids l1)) (l1 ++ l2) = l1.
Proof.
  intros Hnd. rewrite ids_app in Hnd.
  apply NoDup_app in Hnd as (_ & Hdisj & _).
  rewrite List.filter_app, filter_all, filter_none; [by rewrite app_nil_r | |].
  - intros x Hx. apply mem_false. intros Hin. apply (Hdisj _ Hin).
    unfold ids. by apply list_elem_of_fmap_2.
  - intros x Hx. apply mem_elem_of. unfold ids. by apply list_elem_of_fmap_2.
Qed.

Lemma filter_prefix_ids (k : nat) (s : list TweetRow) :
  NoDup (ids s) →
  List.filter (fun r => mem (tw_id r) (ids (take k s))) s = take k s.
Proof.
  intros Hnd. rewrite <- (take_drop k s) in Hnd.
  pose proof (filter_prefix_ids_app _ _ Hnd) as H.
  by rewrite take_drop in H.
Qed.

Lemma strongly_sorted_app_inv (l1 l2 : list TweetRow) (x y : TweetRow) :
  StronglySorted (desc datetime) (l1 ++ l2) → x ∈ l1 → y ∈ l2 →
  desc datetime x y.
Proof.
  induction l1 as [| a l1 IH]; simpl; intros Hs Hx Hy.
  - by apply elem_of_nil in Hx.
  - apply StronglySorted_inv in Hs as [Hs Hall].
    apply elem_of_cons in Hx as [-> | Hx]; [| by apply IH].
    rewrite Forall_forall in Hall. apply Hall.
    rewrite elem_of_app. by right.
Qed.

(** What [prune_old_entries] does on every table. After a call with a
    limit [n >= 0], the rows of any target [t] are [min n (rows of t
    before)] many, all of them rows that were there before, and each row
    that was kept has a sort key ([datetime(created_at)]) at least that of
    each row that was deleted, whatever the sorter does with equal keys; a
    DELETE issued for one target leaves the rows of every other target as
    they were. Where SQLite reads a time from every [created_at], the rows
    kept are the newest. *)
Lemma prune_keeps_newest (n : Z) (db : DB) (t : string) :
  NoDup (ids (tweets db)) → 0 ≤ n →
  let before := rows_of t (tweets db) in
  let after := rows_of t (tweets (prune_old_entries order_by n db)) in
  length after = Nat.min (Z.to_nat n) (length before)
  ∧ (∀ r, r ∈ after → r ∈ before)
  ∧ (∀ kept dropped,
       kept ∈ after → dropped ∈ before → dropped ∉ after →
       sql_le (sort_key datetime dropped) (sort_key datetime kept) = true)
  ∧ (∀ t', t' ≠ t →
       rows_of t' (prune_target order_by n (tweets db) t)
       = rows_of t' (tweets db)).
Proof.
  intros Hnd Hn before after.
  assert (Hother : ∀ t', t' ≠ t →
            rows_of t' (prune_target order_by n (tweets db) t)
            = rows_of t' (tweets db))
    by (intros; by apply prune_target_other).
  unfold prune_old_entries in after. simpl in after. subst after.
  rewrite prune_fold by apply NoDup_remove_dups.
  destruct (decide (t ∈ distinct_targets (tweets db))) as [Hin | Hout].
  2: { assert (before = []) as Hnil.
       { apply filter_none. intros r Hr. apply String.eqb_neq. intros He.
         apply Hout. unfold distinct_targets. apply elem_of_remove_dups.
         subst t. by apply list_elem_of_fmap_2. }
       fold before. rewrite Hnil. simpl. rewrite Nat.min_0_r.
       repeat split; done. }
  rewrite prune_target_same. unfold newest_ids, sql_limit.
  assert ((n <? 0) = false) as -> by lia.
  fold before. set (k := Z.to_nat n). set (s := order_by before).
  destruct (order_by_ok before) as [Hperm Hsorted]. fold s in Hperm, Hsorted.
  assert (Hndb : NoDup (ids before)) by by apply NoDup_ids_filter.
  assert (Hnds : NoDup (ids s)).
  { unfold ids. by rewrite Hperm. }
  assert (Hkept :
    List.filter (fun r => mem (tw_id r) (ids (take k s))) before ≡ₚ take k s).
  { etrans; [apply filter_Permutation; symmetry; exact Hperm |].
    by rewrite filter_prefix_ids. }
  split.
  { rewrite Hkept, length_take. by rewrite Hperm. }
  split.
  { intros r Hr. apply list_elem_of_In in Hr. apply filter_In in Hr as [Hr _].
    by apply list_elem_of_In. }
  split; [| done].
  intros kept dropped Hk Hd Hnot. rewrite Hkept in Hk, Hnot.
  assert (dropped ∈ drop k s) as Hdrop.
  { rewrite <- Hperm in Hd. rewrite <- (take_drop k s) in Hd.
    apply elem_of_app in Hd as [? | ?]; done. }
  apply (strongly_sorted_app_inv (take k s) (drop k s)); try done.
  rewrite take_drop. apply Sorted_StronglySorted; [apply desc_trans | done].
Qed.

(** C7. [prune_old_entries] orders by [datetime(created_at)], and SQLite
    reads no time from a date of RFC 822, which is what [_store_entries]
    stores as [created_at] for the posts of a feed: the key of such a row
    is NULL. For a target all of whose rows have the key NULL, and a sorter
    that returns rows of equal keys in rowid order, as SQLite does, the
    pruning keeps the [n] rows that were stored first and deletes every
    row stored after them, whatever times their [created_at] tell. *)
Theorem prune_keeps_first_stored (n : Z) (db : DB) (t : string) :
  NoDup (ids (tweets db)) → 0 ≤ n →
  (∀ l, Forall (fun r => sort_key datetime r = None) l → order_by l = l) →
  Forall (fun r => sort_key datetime r = None) (rows_of t (tweets db)) →
  let before := rows_of t (tweets db) in
  let after := rows_of t (tweets (prune_old_entries order_by n db)) in
  after = take (Z.to_nat n) before
  ∧ ∀ k r, before !! k = Some r → (Z.to_nat n ≤ k)%nat → r ∉ after.
Proof.
  intros Hnd Hn Hties Hnull before after.
  assert (Hndb : NoDup (ids before)) by by apply NoDup_ids_filter.
  assert (Hafter : after = take (Z.to_nat n) before).
  { unfold prune_old_entries in after. simpl in after. subst after.
    rewrite prune_fold by apply NoDup_remove_dups.
    destruct (decide (t ∈ distinct_targets (tweets db))) as [Hin | Hout].
    2: { assert (before = []) as Hnil.
         { apply filter_none. intros r Hr. apply String.eqb_neq. intros He.
           apply Hout. unfold distinct_targets. apply elem_of_remove_dups.
           subst t. by apply list_elem_of_fmap_2. }
         fold before. rewrite Hnil. by rewrite take_nil. }
    rewrite prune_target_same. unfold newest_ids, sql_limit.
    assert ((n <? 0) = false) as -> by lia.
    fold before. rewrite (Hties before Hnull).
    by apply filter_prefix_ids. }
  split; [done |]. intros k r Hk Hge Hin. rewrite Hafter in Hin.
  apply list_elem_of_lookup in Hin as (j & Hj).
  apply lookup_take_Some in Hj as [Hj Hlt].
  assert (j = k); [| lia].
  apply (NoDup_lookup (ids before) j k (tw_id r)); [done | |];
    unfold ids; rewrite list_lookup_fmap; [by rewrite Hj | by rewrite Hk].
Qed.
End PruneFacts.

(** The insertion sort is a sorter in the sense of [sorter_ok]. *)
Section SorterFacts.
Import Storage.
Variable datetime : string → option string.

Lemma sql_le_total (a b : option string) :
  sql_le a b = true ∨ sql_le b a = true.
Proof. destruct a, b; simpl; auto. apply String.leb_total. Qed.

Lemma insert_desc_perm (r : TweetRow) (l : list TweetRow) :
  insert_desc (sort_key datetime) r l ≡ₚ r :: l.
Proof.
  induction l as [| x l IH]; simpl; [done |].
  destruct (sql_le _ _); [done |]. rewrite IH. apply perm_swap.
Qed.

Lemma insert_desc_sorted (r : TweetRow) (l : list TweetRow) :
  Sorted (desc datetime) l →
  Sorted (desc datetime) (insert_desc (sort_key datetime) r l).
Proof.
  induction l as [| x l IH]; simpl; intros Hs.
  - repeat constructor.
  - destruct (sql_le (sort_key datetime x) (sort_key datetime r)) eqn:E.
    + constructor; [done |]. by constructor.
    + apply Sorted_inv in Hs as [Hs Hhd]. constructor; [by apply IH |].
      destruct l as [| y l]; simpl.
      * constructor. unfold desc.
        destruct (sql_le_total (sort_key datetime x) (sort_key datetime r));
          congruence.
      * destruct (sql_le (sort_key datetime y) (sort_key datetime r)).
        -- constructor. unfold desc.
           destruct (sql_le_total (sort_key datetime x) (sort_key datetime r));
             congruence.
        -- constructor. by apply HdRel_inv in Hhd.
Qed.

Lemma sort_desc_ok : sorter_ok datetime (sort_desc (sort_key datetime)).
Proof.
  intros l. unfold sort_desc. induction l as [| r l [IHp IHs]]; simpl.
  - split; [done | constructor].
  - split; [by rewrite insert_desc_perm, IHp | by apply insert_desc_sorted].
Qed.

(** The insertion sort leaves rows in rowid order when all keys are NULL. *)
Lemma sort_desc_null (l : list TweetRow) :
  Forall (fun r => sort_key datetime r = None) l →
  sort_desc (sort_key datetime) l = l.
Proof.
  unfold sort_desc. induction 1 as [| r l Hr Hl IH]; simpl; [done |].
  rewrite IH. destruct l as [| x l]; [done |]. simpl.
  apply Forall_cons in Hl as [Hx _]. by rewrite Hx.
Qed.
End SorterFacts.

(** Scenario S5 on times that SQLite reads: three posts of [user:alice]
    at T1 < T2 < T3 and a limit of 2. *)
Lemma prune_keeps_newest_witness :
  Storage.ids
    (Storage.tweets
       (Storage.prune_old_entries Examples.sorter 2 Examples.three_posts))
  = ["t3"; "t2"]
  ∧ length (Storage.rows_of "user:alice"
              (Storage.tweets
                 (Storage.prune_old_entries Examples.sorter 2
                    Examples.three_posts)))
    = Nat.min (Z.to_nat 2)
        (length (Storage.rows_of "user:alice"
                   (Storage.tweets Examples.three_posts))).
Proof.
  split; [reflexivity |].
  apply (prune_keeps_newest Examples.datetime_id Examples.sorter
           (sort_desc_ok Examples.datetime_id) 2 Examples.three_posts
           "user:alice").
  - apply (bool_decide_unpack _). vm_compute. exact I.
  - lia.
Defined.

(** C7 on scenario S5 with the dates of a feed: of three posts stored in
    the order T1 < T2 < T3, pruning to two keeps T1 and T2 and deletes the
    newest. *)
Lemma prune_keeps_first_stored_witness :
  Storage.ids
    (Storage.tweets
       (Storage.prune_old_entries Examples.sorter_iso 2 Examples.feed_posts))
  = ["t1"; "t2"]
  ∧ Storage.rows_of "user:alice"
      (Storage.tweets
         (Storage.prune_old_entries Examples.sorter_iso 2 Examples.feed_posts))
    = take 2 (Storage.rows_of "user:alice"
                (Storage.tweets Examples.feed_posts)).
Proof.
  split; [reflexivity |].
  apply (prune_keeps_first_stored Examples.datetime_iso Examples.sorter_iso
           2 Examples.feed_posts "user:alice").
  - apply (bool_decide_unpack _). vm_compute. exact I.
  - lia.
  - apply sort_desc_null.
  - repeat constructor.
Defined.

(** ** Export *)

Section ExportFacts.
Import Storage.
Variable json_dumps : JSON → string.
Variable json_loads : string → option JSON.
Variable order_by : list TweetRow → list TweetRow.

Local Abbreviation export_data := (export_data json_loads).
Local Abbreviation export_rows := (export_rows json_dumps json_loads).

(** While every row's [raw] parses, the generator yields one line per row,
    in the order of the rows, and ends normally. *)
Lemma export_rows_all (rows : list TweetRow) :
  (∀ r, r ∈ rows → is_Some (export_data r)) →
  export_rows rows
  = (map (fun r => json_dumps (default JNull (export_data r))) rows,
     Exhausted).
Proof.
  induction rows as [| r rows IH]; intros H; simpl; [done |].
  destruct (H r) as [j Hj]; [by constructor |]. rewrite Hj. simpl.
  rewrite IH; [done |]. intros x Hx. apply H. by constructor.
Qed.

(** A row whose [raw] does not parse ends the generator by the exception
    of [json.loads]: neither that row nor any later one is yielded. *)
Lemma export_rows_raises (rows : list TweetRow) (r : TweetRow) :
  r ∈ rows → export_data r = None →
  (export_rows rows).2 = Raised
  ∧ (length (export_rows rows).1 < length rows)%nat.
Proof.
  induction rows as [| x rows IH]; intros Hin Hr.
  - by apply elem_of_nil in Hin.
  - simpl. destruct (export_data x) as [j |] eqn:Hx.
    + apply elem_of_cons in Hin as [-> | Hin]; [congruence |].
      destruct (IH Hin Hr) as [Ho Hl].
      destruct (export_rows rows) as [ls o]. simpl in *. split; [done | lia].
    + simpl. split; [done | lia].
Qed.

(** An empty [raw] is read as the empty object's text. *)
Lemma export_data_empty_raw (r : TweetRow) (j : JSON) :
  tw_raw r = "" → json_loads "{}" = Some j →
  export_data r
  = Some (JObj [("id", JStr (tw_id r)); ("target", JStr (tw_target r));
                ("content", JStr (tw_content r));
                ("created_at", JStr (tw_created_at r)); ("raw", j);
                ("fetched_at", JStr (tw_fetched_at r));
                ("instance", JStr (tw_instance r))]).
Proof. intros Hraw Hj. unfold Storage.export_data. by rewrite Hraw; simpl; rewrite Hj. Qed.

(** When every stored [raw] parses, [export_tweets] yields one line per
    stored row, in the order of ORDER BY, and ends normally. *)
Lemma export_tweets_all (db : DB) :
  (∀ l, order_by l ≡ₚ l) →
  (∀ r, r ∈ tweets db → is_Some (export_data r)) →
  export_tweets json_dumps json_loads order_by db
  = (map (fun r => json_dumps (default JNull (export_data r)))
         (order_by (tweets db)),
     Exhausted)
  ∧ length (export_tweets json_dumps json_loads order_by db).1
    = length (tweets db).
Proof.
  intros Hperm Hall. unfold export_tweets.
  rewrite export_rows_all.
  - split; [done |]. simpl. by rewrite length_map, Hperm.
  - intros r Hr. apply Hall. by rewrite <- (Hperm (tweets db)).
Qed.

(** C9. A stored row whose [raw] is a non-empty text that [json.loads]
    rejects makes [export_tweets] end by that exception, with fewer lines
    yielded than there are rows: no line with an empty object is produced
    for it. *)
Theorem export_fails_on_unparsable_raw (db : DB) (r : TweetRow) :
  (∀ l, order_by l ≡ₚ l) →
  r ∈ tweets db → tw_raw r ≠ "" → json_loads (tw_raw r) = None →
  (export_tweets json_dumps json_loads order_by db).2 = Raised
  ∧ (length (export_tweets json_dumps json_loads order_by db).1
     < length (tweets db))%nat.
Proof.
  intros Hperm Hin Hne Hbad. unfold export_tweets.
  rewrite <- (Permutation_length (Hperm (tweets db))).
  apply (export_rows_raises _ r).
  - by rewrite (Hperm (tweets db)).
  - unfold Storage.export_data, str_or.
    apply str_truthy_true in Hne. by rewrite Hne, Hbad.
Qed.
End ExportFacts.

(** C9 at a concrete input: the second row's [raw] is the text of an
    unfinished object. *)
Lemma export_fails_on_unparsable_raw_witness :
  Storage.export_tweets Examples.dumps_const Examples.loads_only_empty
    Examples.sorter Examples.damaged
  = ([], Storage.Raised)
  ∧ (Storage.export_tweets Examples.dumps_const Examples.loads_only_empty
       Examples.sorter Examples.damaged).2 = Storage.Raised.
Proof.
  split; [reflexivity |].
  apply (export_fails_on_unparsable_raw Examples.dumps_const
           Examples.loads_only_empty Examples.sorter Examples.damaged
           (Examples.row "t2" "2024-01-01 00:00:02" "{")).
  - intros l. apply (sort_desc_ok Examples.datetime_id).
  - simpl. apply elem_of_cons. right. apply elem_of_cons. by left.
  - discriminate.
  - reflexivity.
Defined.

(** * Properties of the gateway pool *)

Section PoolFacts.
Import Nitter.
Variable monotonic : nat → Q.

Lemma Qltb_true (x y : Q) : Qltb x y = true ↔ (x < y)%Q.
Proof.
  unfold Qltb. rewrite negb_true_iff, <- not_true_iff_false, Qle_bool_iff.
  split; [apply Qnot_le_lt | apply Qlt_not_le].
Qed.

Lemma Qltb_false (x y : Q) : Qltb x y = false ↔ (y <= x)%Q.
Proof. unfold Qltb. by rewrite negb_false_iff, Qle_bool_iff. Qed.

Lemma inject_Z_nonneg (z : Z) : 0 ≤ z → (0 <= inject_Z z)%Q.
Proof. intros H. unfold Qle. simpl. lia. Qed.

Lemma only_tokens_refl (s : InstanceState) : only_tokens s s.
Proof. by destruct s. Qed.

Lemma only_tokens_trans (a b c : InstanceState) :
  only_tokens a b → only_tokens b c → only_tokens a c.
Proof. unfold only_tokens. intros -> ->. by destruct a. Qed.

Lemma only_tokens_fields (s s' : InstanceState) :
  only_tokens s s' →
  base_url s' = base_url s ∧ backoff_until s' = backoff_until s
  ∧ consecutive_errors s' = consecutive_errors s
  ∧ last_rtt s' = last_rtt s ∧ last_error s' = last_error s.
Proof. intros ->. by destruct s. Qed.

Lemma pymin_ok (m x : Q) : (0 <= m)%Q → (0 <= x)%Q →
  (0 <= pymin m x)%Q ∧ (pymin m x <= m)%Q.
Proof.
  intros Hm Hx. unfold pymin. destruct (Qltb x m) eqn:E.
  - apply Qltb_true in E. split; [done | by apply Qlt_le_weak].
  - split; [done | apply Qle_refl].
Qed.

Lemma refill_only_tokens (m : Z) (s : InstanceState) (t : nat) :
  only_tokens s (_refill_tokens monotonic m s t).1
  ∧ (_refill_tokens monotonic m s t).2 = S t.
Proof.
  unfold _refill_tokens.
  destruct (Qltb 0 _); simpl; (split; [| done]);
    [by destruct s | apply only_tokens_refl].
Qed.

Lemma refill_ok (m : Z) (s : InstanceState) (t : nat) :
  state_ok m s → state_ok m (_refill_tokens monotonic m s t).1.
Proof.
  intros (H0 & Hm & Hb). unfold _refill_tokens.
  set (add := (inject_Z m / 60 * (monotonic t - last_refill s))%Q).
  destruct (Qltb 0 add) eqn:E; simpl; [| done].
  apply Qltb_true in E.
  destruct (pymin_ok (inject_Z m) (tokens s + add)%Q) as [H1 H2].
  - by apply (Qle_trans _ (tokens s)).
  - lra.
  - by repeat split.
Qed.

Lemma only_tokens_insert (l : list InstanceState) (i : nat)
    (s s' : InstanceState) :
  l !! i = Some s → only_tokens s s' →
  Forall2 only_tokens l (<[i := s']> l).
Proof.
  intros Hl Hs. apply Forall2_same_length_lookup. split.
  - by rewrite length_insert.
  - intros j x y Hx Hy. destruct (decide (i = j)) as [<- | Hne].
    + rewrite list_lookup_insert_eq in Hy by by eapply lookup_lt_Some.
      congruence.
    + rewrite list_lookup_insert_ne in Hy by done.
      assert (x = y) as -> by congruence. apply only_tokens_refl.
Qed.

Lemma Forall2_only_tokens_trans (a b c : list InstanceState) :
  Forall2 only_tokens a b → Forall2 only_tokens b c →
  Forall2 only_tokens a c.
Proof.
  intros H. revert c. induction H as [| x y a b Hxy _ IH]; intros c Hc.
  - by inversion Hc.
  - inversion Hc; subst. constructor; [by eapply only_tokens_trans | by apply IH].
Qed.

Lemma Forall2_only_tokens_refl (l : list InstanceState) :
  Forall2 only_tokens l l.
Proof. induction l; constructor; [apply only_tokens_refl | done]. Qed.

(** The loop of [_acquire_instance] writes tokens and refill times only. *)
Lemma acquire_loop_only_tokens (n : nat) (c : NitterClient) (t : nat) :
  Forall2 only_tokens (states c) (states (acquire_loop monotonic n c t).1.2)
  ∧ backoff_base_seconds (acquire_loop monotonic n c t).1.2
    = backoff_base_seconds c
  ∧ max_requests_per_minute (acquire_loop monotonic n c t).1.2
    = max_requests_per_minute c.
Proof.
  revert c t. induction n as [| n IH]; intros c t; simpl.
  { split; [apply Forall2_only_tokens_refl | done]. }
  destruct (states c !! rotation_index c) as [s |] eqn:Hs; simpl.
  2: { split; [apply Forall2_only_tokens_refl | done]. }
  pose proof (refill_only_tokens (max_requests_per_minute c) s t) as [Hot Ht].
  destruct (_refill_tokens monotonic (max_requests_per_minute c) s t)
    as [s1 t1] eqn:Hr. simpl in *.
  set (c2 := with_states
               (with_rotation c ((rotation_index c + 1) mod length (states c))%nat)
               (<[rotation_index c := s1]> (states c))).
  assert (H2 : Forall2 only_tokens (states c) (states c2)).
  { simpl. by eapply only_tokens_insert. }
  destruct (Qltb (monotonic t1) (backoff_until s1)).
  { destruct (IH c2 (S t1)) as (IH1 & IH2 & IH3). split; [| done].
    by eapply Forall2_only_tokens_trans. }
  destruct (Qltb (tokens s1) 1).
  { destruct (IH c2 (S t1)) as (IH1 & IH2 & IH3). split; [| done].
    by eapply Forall2_only_tokens_trans. }
  simpl. split; [| done]. rewrite list_insert_insert_eq.
  eapply only_tokens_insert; [done |].
  eapply only_tokens_trans; [done |]. by destruct s1.
Qed.

(** It keeps the invariant of every state. *)
Lemma acquire_loop_ok (n : nat) (m base : Z) (c : NitterClient) (t : nat) :
  pool_ok m base c → pool_ok m base (acquire_loop monotonic n c t).1.2.
Proof.
  revert c t. induction n as [| n IH]; intros c t Hok; simpl; [done |].
  destruct (states c !! rotation_index c) as [s |] eqn:Hs; simpl; [| done].
  destruct Hok as (Hm & Hb & Hall).
  assert (Hs1 : state_ok m (_refill_tokens monotonic (max_requests_per_minute c) s t).1).
  { rewrite Hm. apply refill_ok. by eapply Forall_lookup_1. }
  destruct (_refill_tokens monotonic (max_requests_per_minute c) s t)
    as [s1 t1] eqn:Hr. simpl in *.
  set (c2 := with_states
               (with_rotation c ((rotation_index c + 1) mod length (states c))%nat)
               (<[rotation_index c := s1]> (states c))).
  assert (Hok2 : pool_ok m base c2).
  { repeat split; try done. simpl. by apply Forall_insert. }
  destruct (Qltb (monotonic t1) (backoff_until s1)); [by apply IH |].
  destruct (Qltb (tokens s1) 1) eqn:E1; [by apply IH |].
  simpl. apply Qltb_false in E1. destruct Hs1 as (H0 & H1 & H3).
  repeat split; try done. simpl. rewrite list_insert_insert_eq.
  apply Forall_insert; [done |]. repeat split; simpl; [lra | lra | done].
Qed.

Lemma penalty_nonneg (base errors : Z) : 0 ≤ base → 0 ≤ penalty base errors.
Proof.
  intros H. unfold penalty. apply Z.min_glb; [lia |].
  apply Z.mul_nonneg_nonneg; [done |]. apply Z.pow_nonneg. lia.
Qed.

Lemma step_ok (m base : Z) (w : NitterClient * nat) (op : Op) :
  0 ≤ base → (∀ n, (0 <= monotonic n)%Q) →
  pool_ok m base w.1 → pool_ok m base (step monotonic w op).1.
Proof.
  intros Hbase Hclock Hok. destruct w as [c t]. simpl in Hok.
  destruct op as [i | | i rtt | i sc]; simpl.
  - destruct (states c !! i) as [s |] eqn:Hs; [| done].
    destruct Hok as (Hm & Hb & Hall).
    pose proof (refill_ok (max_requests_per_minute c) s t) as Hr.
    destruct (_refill_tokens monotonic (max_requests_per_minute c) s t)
      as [s' t']. simpl in *.
    repeat split; try done. simpl. apply Forall_insert; [done |].
    rewrite <- Hm. apply Hr. rewrite Hm. by eapply Forall_lookup_1.
  - unfold _acquire_instance.
    pose proof (acquire_loop_ok (length (states c)) m base c t Hok) as H.
    by destruct (acquire_loop monotonic (length (states c)) c t) as [[r c'] t'].
  - destruct Hok as (Hm & Hb & Hall). repeat split; try done. simpl.
    apply Forall_alter; [done |].
    intros s _ (H0 & H1 & H2). repeat split; simpl; done.
  - destruct Hok as (Hm & Hb & Hall). repeat split; try done. simpl.
    rewrite Forall_lookup in Hall.
    apply Forall_lookup. intros j s Hj.
    destruct (decide (i = j)) as [<- | Hne].
    + rewrite list_lookup_alter_eq in Hj.
      destruct (states c !! i) as [s0 |] eqn:Hs0; [| done].
      simpl in Hj. injection Hj as <-.
      destruct (Hall _ _ Hs0) as (H0 & H1 & H2).
      repeat split; simpl; try done.
      pose proof (inject_Z_nonneg _
                    (penalty_nonneg (backoff_base_seconds c)
                       (consecutive_errors s0 + 1) ltac:(lia))) as Hp.
      specialize (Hclock t). lra.
    + rewrite list_lookup_alter_ne in Hj by done. by eapply Hall.
Qed.

Lemma run_ok (m base : Z) (ops : list Op) (w : NitterClient * nat) :
  0 ≤ base → (∀ n, (0 <= monotonic n)%Q) →
  pool_ok m base w.1 → pool_ok m base (run monotonic ops w).1.
Proof.
  intros Hbase Hclock. revert w. unfold run.
  induction ops as [| op ops IH]; intros w Hok; simpl; [done |].
  apply IH. by apply step_ok.
Qed.

(** The states built by [__init__]. *)
Lemma init_states_spec (instances : list string) (m : Z) (t : nat) :
  Forall (fun s => tokens s = inject_Z m ∧ backoff_until s = 0%Q
                   ∧ consecutive_errors s = 0 ∧ last_error s = None)
         (init_states monotonic instances m t).1
  ∧ map base_url (init_states monotonic instances m t).1
    = map rstrip_slash instances.
Proof.
  revert t. induction instances as [| i rest IH]; intros t; simpl; [done |].
  specialize (IH (S t)).
  destruct (init_states monotonic rest m (S t)) as [sts t']. simpl in *.
  destruct IH as [IH1 IH2]. split; [by constructor | by f_equal].
Qed.

Lemma init_spec (instances : list string) (ua : string) (m base : Z)
    (t0 : nat) (c : NitterClient) (t : nat) :
  init monotonic instances ua m base t0 = Some (c, t) →
  max_requests_per_minute c = m ∧ backoff_base_seconds c = Z.max 1 base
  ∧ rotation_index c = O
  ∧ states c = (init_states monotonic instances m t0).1.
Proof.
  unfold init. destruct instances as [| i rest]; [done |].
  destruct (init_states monotonic (i :: rest) m t0) as [sts t'] eqn:E.
  intros [= <- <-]. by simpl.
Qed.

(** C8. From construction on, whatever sequence of refills, acquisitions and
    releases follows, every instance state has a token balance between 0
    and [max_requests_per_minute] and a non-negative [backoff_until]. The
    capacity is taken non-negative and the monotonic clock never reads
    below zero. *)
Theorem pool_invariant (instances : list string) (ua : string)
    (max_rpm base : Z) (t0 : nat) (c : NitterClient) (t : nat)
    (ops : list Op) :
  0 ≤ max_rpm → (∀ n, (0 <= monotonic n)%Q) →
  init monotonic instances ua max_rpm base t0 = Some (c, t) →
  Forall (state_ok max_rpm) (states (run monotonic ops (c, t)).1).
Proof.
  intros Hm Hclock Hinit.
  apply init_spec in Hinit as (H1 & H2 & _ & H4).
  enough (pool_ok max_rpm (Z.max 1 base) (run monotonic ops (c, t)).1)
    as (_ & _ & H) by done.
  apply run_ok; [lia | done |]. repeat split; try done. simpl. rewrite H4.
  destruct (init_states_spec instances max_rpm t0) as [Hall _].
  eapply Forall_impl; [exact Hall |].
  intros s (Ht & Hb & _). unfold state_ok. rewrite Ht, Hb.
  pose proof (inject_Z_nonneg _ Hm). repeat split; lra.
Qed.

(** ** Consecutive failures *)

Lemma only_tokens_errors_at (l l' : list InstanceState) (i : nat) :
  Forall2 only_tokens l l' →
  consecutive_errors <$> l' !! i = consecutive_errors <$> l !! i.
Proof.
  intros H. destruct (l !! i) as [s |] eqn:Hs.
  - destruct (Forall2_lookup_l _ _ _ _ _ H Hs) as (s' & Hs' & Hot).
    rewrite Hs'. simpl. f_equal. by apply only_tokens_fields in Hot as (_ & _ & ? & _).
  - apply lookup_ge_None in Hs. rewrite (Forall2_length _ _ _ H) in Hs.
    apply lookup_ge_None in Hs. by rewrite Hs.
Qed.

(** An operation other than a release on success of state [i] leaves its
    error counter, but for a release on failure of [i], which adds one. *)
Lemma step_errors_at (i : nat) (w : NitterClient * nat) (op : Op) :
  is_success_on i op = false →
  errors_at i (step monotonic w op).1
  = (if is_failure_on i op then Z.succ else id) <$> errors_at i w.1.
Proof.
  intros Hns. destruct w as [c t]. unfold errors_at.
  destruct op as [j | | j rtt | j sc]; simpl in *.
  - rewrite option_fmap_id.
    destruct (states c !! j) as [s |] eqn:Hs; [| done].
    pose proof (refill_only_tokens (max_requests_per_minute c) s t) as [Hot _].
    destruct (_refill_tokens monotonic (max_requests_per_minute c) s t)
      as [s' t']. simpl in *.
    apply only_tokens_errors_at. by eapply only_tokens_insert.
  - rewrite option_fmap_id. unfold _acquire_instance.
    pose proof (acquire_loop_only_tokens (length (states c)) c t) as (H & _).
    destruct (acquire_loop monotonic (length (states c)) c t) as [[r c'] t'].
    simpl in *. by apply only_tokens_errors_at.
  - apply Nat.eqb_neq in Hns. rewrite option_fmap_id.
    by rewrite list_lookup_alter_ne.
  - destruct (Nat.eqb i j) eqn:E.
    + apply Nat.eqb_eq in E as <-. rewrite list_lookup_alter_eq.
      destruct (states c !! i); simpl; [| done]. f_equal.
    + apply Nat.eqb_neq in E. rewrite option_fmap_id.
      by rewrite list_lookup_alter_ne.
Qed.

Lemma step_base (w : NitterClient * nat) (op : Op) :
  backoff_base_seconds (step monotonic w op).1 = backoff_base_seconds w.1.
Proof.
  destruct w as [c t]. destruct op as [j | | j rtt | j sc]; simpl; try done.
  - destruct (states c !! j) as [s |]; [| done].
    by destruct (_refill_tokens monotonic (max_requests_per_minute c) s t).
  - unfold _acquire_instance.
    pose proof (acquire_loop_only_tokens (length (states c)) c t) as (_ & H & _).
    by destruct (acquire_loop monotonic (length (states c)) c t) as [[r c'] t'].
Qed.

Lemma run_base (ops : list Op) (w : NitterClient * nat) :
  backoff_base_seconds (run monotonic ops w).1 = backoff_base_seconds w.1.
Proof.
  revert w. unfold run. induction ops as [| op ops IH]; intros w; simpl; [done |].
  by rewrite IH, step_base.
Qed.

Lemma run_errors_at (i : nat) (ops : list Op) (w : NitterClient * nat) :
  forallb (fun op => negb (is_success_on i op)) ops = true →
  errors_at i (run monotonic ops w).1
  = (fun e => e + Z.of_nat (failures_on i ops)) <$> errors_at i w.1.
Proof.
  revert w. unfold run, failures_on.
  induction ops as [| op ops IH]; intros w Hns; simpl.
  - destruct (errors_at i w.1); simpl; [f_equal; lia | done].
  - simpl in Hns. apply andb_true_iff in Hns as [H1 H2].
    apply negb_true_iff in H1. rewrite IH, step_errors_at by done.
    destruct (errors_at i w.1) as [e |]; simpl; [| done]. f_equal.
    destruct (is_failure_on i op); simpl; unfold id; lia.
Qed.

(** A release on failure, in terms of the state it is given. *)
Lemma release_on_error_at (i : nat) (sc : option Z) (c : NitterClient)
    (t : nat) (s : InstanceState) :
  states c !! i = Some s →
  states (_release_instance_on_error monotonic i sc c t).1 !! i
  = Some (on_error (backoff_base_seconds c) sc (monotonic t) s).
Proof. intros H. simpl. by rewrite list_lookup_alter_eq, H. Qed.

(** The backoff after [K] consecutive failures, for the base that the
    client holds (the configured one, raised to 1 if it is smaller). *)
Lemma backoff_for_clamped_base (w0 : NitterClient * nat) (ops : list Op)
    (i : nat) (K : Z) (sc : option Z) (s0 : InstanceState) :
  states w0.1 !! i = Some s0 → consecutive_errors s0 = 0 →
  forallb (fun op => negb (is_success_on i op)) ops = true →
  Z.of_nat (failures_on i ops) = K - 1 →
  let w := run monotonic ops w0 in
  let w' := step monotonic w (OpFailure i sc) in
  ∃ s', states w'.1 !! i = Some s'
    ∧ (backoff_until s' - monotonic w.2
       == inject_Z (Z.min 600 (backoff_base_seconds w0.1 * 2 ^ (K - 1))))%Q
    ∧ consecutive_errors s' = K
    ∧ last_error s' = Some (error_text sc).
Proof.
  intros Hs0 He0 Hns HK w w'.
  pose proof (run_errors_at i ops w0 Hns) as He. fold w in He.
  unfold errors_at in He. rewrite Hs0 in He. simpl in He.
  destruct (states w.1 !! i) as [s |] eqn:Hs; [| done].
  simpl in He. injection He as He.
  subst w'. destruct w as [c t] eqn:Hw. simpl in *.
  exists (on_error (backoff_base_seconds c) sc (monotonic t) s).
  split; [by rewrite list_lookup_alter_eq, Hs |].
  assert (backoff_base_seconds c = backoff_base_seconds w0.1) as ->.
  { pose proof (run_base ops w0) as Hb. fold w in Hb. by rewrite Hw in Hb. }
  simpl. unfold penalty.
  replace (consecutive_errors s + 1 - 1) with (K - 1) by lia.
  split; [ring |]. split; [lia | done].
Qed.

(** C2. With a configured [backoff_base_seconds] of at least 1: when the
    state at index [i] has no consecutive errors and [K - 1] releases on
    failure of it follow, with no release on success of it among the
    operations in between, then the [K]-th release on failure leaves
    [backoff_until] at [min(600, base * 2^(K-1))] past the clock reading
    it made, and [last_error] is ["HTTP <code>"] for a (non-zero) status
    code and the generic marker without one. *)
Theorem backoff_after_failures (instances : list string) (ua : string)
    (max_rpm cfg_base : Z) (t0 : nat) (c0 : NitterClient) (t1 : nat)
    (history ops : list Op) (i : nat) (K : Z) (sc : option Z)
    (s0 : InstanceState) :
  1 ≤ cfg_base →
  init monotonic instances ua max_rpm cfg_base t0 = Some (c0, t1) →
  let w0 := run monotonic history (c0, t1) in
  states w0.1 !! i = Some s0 → consecutive_errors s0 = 0 →
  forallb (fun op => negb (is_success_on i op)) ops = true →
  Z.of_nat (failures_on i ops) = K - 1 →
  let w := run monotonic ops w0 in
  let w' := step monotonic w (OpFailure i sc) in
  ∃ s', states w'.1 !! i = Some s'
    ∧ (backoff_until s' - monotonic w.2
       == inject_Z (Z.min 600 (cfg_base * 2 ^ (K - 1))))%Q
    ∧ consecutive_errors s' = K
    ∧ (sc = None → last_error s' = Some "Request-Fehler")
    ∧ (∀ code, sc = Some code → code ≠ 0 →
         last_error s' = Some ("HTTP " +:+ str_of_int code)).
Proof.
  intros Hbase Hinit w0 Hs0 He0 Hns HK w w'.
  destruct (backoff_for_clamped_base w0 ops i K sc s0 Hs0 He0 Hns HK)
    as (s' & H1 & H2 & H3 & H4).
  exists s'. split; [done |].
  assert (backoff_base_seconds w0.1 = cfg_base) as Hb.
  { subst w0. rewrite run_base. simpl.
    apply init_spec in Hinit as (_ & -> & _). lia. }
  rewrite Hb in H2. split; [done |]. split; [done |]. split.
  - intros ->. done.
  - intros code -> Hne. rewrite H4. simpl.
    by rewrite (proj2 (Z.eqb_neq code 0) Hne).
Qed.
End PoolFacts.

(** C4 as stated fails: in scenario S1 the third acquisition is served by
    [https://a], which still has one of its two tokens; there is no
    instance available only from the fifth acquisition on. *)
Lemma third_acquisition_succeeds :
  Nitter.acquired_url (Examples.s1_acquire 1) = Some "https://a"
  ∧ Nitter.acquired_url (Examples.s1_acquire 2) = Some "https://b"
  ∧ Nitter.acquired_url (Examples.s1_acquire 3) = Some "https://a"
  ∧ (Examples.s1_acquire 3).1.1 ≠ None.
Proof. vm_compute. repeat split; congruence. Qed.

Section RotationFacts.
Import Nitter.
Variable decimal : N → bool.
Variable monotonic : nat → Q.
Lemma refill_bucket (c0 cend : Q) (h : Z) (s : InstanceState) (t : nat) :
  0 ≤ h → bucket c0 cend h s →
  (c0 <= monotonic t)%Q → (monotonic t <= cend)%Q →
  bucket c0 cend h (_refill_tokens monotonic 2 s t).1
  ∧ base_url (_refill_tokens monotonic 2 s t).1 = base_url s.
Proof.
  intros Hh (H1 & H2 & H3 & H4 & H5) Hc0 Hce. unfold _refill_tokens.
  change (inject_Z 2) with 2%Q.
  pose proof (inject_Z_nonneg h Hh) as Hhq.
  set (add := (2 / 60 * (monotonic t - last_refill s))%Q).
  assert (add == (1 # 30) * (monotonic t - last_refill s))%Q as Hadd
    by (unfold add; field).
  destruct (Qltb 0 add) eqn:E; cbn [fst].
  2: { by repeat split. }
  apply Qltb_true in E. split; [| done].
  unfold bucket, pymin.
  destruct (Qltb (tokens s + add)%Q 2) eqn:E2; cbn.
  - apply Qltb_true in E2. repeat split; try done; lra.
  - apply Qltb_false in E2. repeat split; try done; lra.
Qed.

(** One iteration of the loop, by the tests it makes on the refilled state. *)
Lemma acquire_loop_step (n : nat) (c : NitterClient) (t : nat)
    (s : InstanceState) :
  states c !! rotation_index c = Some s →
  let i := rotation_index c in
  let s1 := (_refill_tokens monotonic (max_requests_per_minute c) s t).1 in
  let c2 := with_states
              (with_rotation c ((i + 1) mod length (states c))%nat)
              (<[i := s1]> (states c)) in
  acquire_loop monotonic (S n) c t
  = if Qltb (monotonic (S t)) (backoff_until s1)
    then acquire_loop monotonic n c2 (S (S t))
    else if Qltb (tokens s1) 1 then acquire_loop monotonic n c2 (S (S t))
    else (Some i,
          with_states c2
            (<[i := set_tokens s1 (tokens s1 - 1)%Q (last_refill s1)]>
               (states c2)),
          S (S t)).
Proof.
  intros Hs i s1 c2. subst i s1 c2. cbn [acquire_loop]. rewrite Hs.
  pose proof (refill_only_tokens monotonic (max_requests_per_minute c) s t)
    as [_ Ht].
  destruct (_refill_tokens monotonic (max_requests_per_minute c) s t)
    as [s1' t1] eqn:Hr. simpl in Ht. by subst t1.
Qed.

Lemma bucket_hit (c0 cend : Q) (h : Z) (s : InstanceState) (now : Q) :
  h ≤ 1 → bucket c0 cend h s → (0 <= now)%Q →
  Qltb now (backoff_until s) = false ∧ Qltb (tokens s) 1 = false
  ∧ bucket c0 cend (h + 1) (set_tokens s (tokens s - 1)%Q (last_refill s)).
Proof.
  intros Hh (H1 & H2 & H3 & H4 & H5) Hnow.
  assert (inject_Z h <= 1)%Q as Hq by (rewrite Zle_Qle in Hh; exact Hh).
  assert (inject_Z (h + 1) == inject_Z h + 1)%Q as Hplus
    by (rewrite inject_Z_plus; reflexivity).
  split; [apply Qltb_false; lra |]. split; [apply Qltb_false; lra |].
  unfold bucket. simpl. rewrite Hplus. repeat split; try done; lra.
Qed.

Lemma bucket_miss (c0 cend : Q) (s : InstanceState) (now : Q) :
  (cend - c0 < 30)%Q → bucket c0 cend 2 s → (0 <= now)%Q →
  Qltb now (backoff_until s) = false ∧ Qltb (tokens s) 1 = true.
Proof.
  intros Hc (H1 & H2 & H3 & H4 & H5) Hnow.
  change (inject_Z 2) with 2%Q in *.
  split; [apply Qltb_false; lra | apply Qltb_true; lra].
Qed.

Section Window.
Variables c0 cend : Q.
Variable t : nat.

(** The readings numbered [t] to [t + 3] are non-negative and within the
    window [[c0, cend]]. *)
Hypothesis readings :
  ∀ k, (k < 4)%nat →
       (0 <= monotonic (t + k))%Q ∧ (c0 <= monotonic (t + k))%Q
       ∧ (monotonic (t + k) <= cend)%Q.

Lemma acquire_first (ha hb : Z) (c : NitterClient) :
  0 ≤ ha ≤ 1 → pool2 c0 cend ha hb 0 c →
  let r := _acquire_instance monotonic c t in
  acquired_url r = Some "https://a"
  ∧ pool2 c0 cend (ha + 1) hb 1 r.1.2 ∧ r.2 = S (S t).
Proof.
  intros Hha (sa & sb & Hst & Ha & Hb & Hba & Hbb & Hrot & Hmax) r.
  subst r. unfold _acquire_instance. rewrite Hst. simpl length.
  rewrite (acquire_loop_step _ _ _ sa) by by rewrite Hrot, Hst.
  rewrite Hmax, Hrot, Hst.
  destruct (readings 0) as (_ & R1 & R2); [lia |].
  destruct (readings 1) as (R3 & _); [lia |].
  rewrite Nat.add_0_r in R1, R2. replace (t + 1)%nat with (S t) in R3 by lia.
  destruct (refill_bucket c0 cend ha sa t ltac:(lia) Hba R1 R2) as [Hb1 Hu1].
  set (s1 := (_refill_tokens monotonic 2 sa t).1) in *.
  destruct (bucket_hit c0 cend ha s1 (monotonic (S t)) ltac:(lia) Hb1 R3)
    as (-> & -> & Hb2).
  unfold acquired_url. simpl. rewrite Ha in Hu1. rewrite Hu1.
  split; [done |]. split; [| done].
  eexists _, sb. simpl. repeat (split; [done |]). done.
Qed.

Lemma acquire_second (ha hb : Z) (c : NitterClient) :
  0 ≤ hb ≤ 1 → pool2 c0 cend ha hb 1 c →
  let r := _acquire_instance monotonic c t in
  acquired_url r = Some "https://b"
  ∧ pool2 c0 cend ha (hb + 1) 0 r.1.2 ∧ r.2 = S (S t).
Proof.
  intros Hhb (sa & sb & Hst & Ha & Hb & Hba & Hbb & Hrot & Hmax) r.
  subst r. unfold _acquire_instance. rewrite Hst. simpl length.
  rewrite (acquire_loop_step _ _ _ sb) by by rewrite Hrot, Hst.
  rewrite Hmax, Hrot, Hst.
  destruct (readings 0) as (_ & R1 & R2); [lia |].
  destruct (readings 1) as (R3 & _); [lia |].
  rewrite Nat.add_0_r in R1, R2. replace (t + 1)%nat with (S t) in R3 by lia.
  destruct (refill_bucket c0 cend hb sb t ltac:(lia) Hbb R1 R2) as [Hb1 Hu1].
  set (s1 := (_refill_tokens monotonic 2 sb t).1) in *.
  destruct (bucket_hit c0 cend hb s1 (monotonic (S t)) ltac:(lia) Hb1 R3)
    as (-> & -> & Hb2).
  unfold acquired_url. simpl. rewrite Hb in Hu1. rewrite Hu1.
  split; [done |]. split; [| done].
  eexists sa, _. simpl. repeat (split; [done |]). done.
Qed.

Lemma acquire_none (c : NitterClient) :
  (cend - c0 < 30)%Q → pool2 c0 cend 2 2 0 c →
  let r := _acquire_instance monotonic c t in
  r.1.1 = None ∧ r.2 = (t + 4)%nat.
Proof.
  intros Hc (sa & sb & Hst & Ha & Hb & Hba & Hbb & Hrot & Hmax) r.
  subst r. unfold _acquire_instance. rewrite Hst. simpl length.
  rewrite (acquire_loop_step _ _ _ sa) by by rewrite Hrot, Hst.
  rewrite Hmax, Hrot, Hst.
  destruct (readings 0) as (_ & R1 & R2); [lia |].
  destruct (readings 1) as (R3 & _); [lia |].
  destruct (readings 2) as (_ & R4 & R5); [lia |].
  destruct (readings 3) as (R6 & _); [lia |].
  rewrite Nat.add_0_r in R1, R2. replace (t + 1)%nat with (S t) in R3 by lia.
  replace (t + 2)%nat with (S (S t)) in R4, R5 by lia.
  replace (t + 3)%nat with (S (S (S t))) in R6 by lia.
  destruct (refill_bucket c0 cend 2 sa t ltac:(lia) Hba R1 R2) as [Hb1 _].
  set (s1 := (_refill_tokens monotonic 2 sa t).1) in *.
  destruct (bucket_miss c0 cend s1 (monotonic (S t)) Hc Hb1 R3) as (-> & ->).
  simpl (length _). simpl ((0 + 1) mod 2)%nat. cbn [list_insert insert].
  rewrite (acquire_loop_step _ _ _ sb) by done.
  simpl max_requests_per_minute. rewrite Hmax.
  destruct (refill_bucket c0 cend 2 sb (S (S t)) ltac:(lia) Hbb R4 R5)
    as [Hb2 _].
  set (s2 := (_refill_tokens monotonic 2 sb (S (S t))).1) in *.
  destruct (bucket_miss c0 cend s2 (monotonic (S (S (S t)))) Hc Hb2 R6)
    as (-> & ->).
  simpl. split; [done | lia].
Qed.
End Window.
Lemma clock_monotone (n m : nat) :
  (∀ k, (monotonic k <= monotonic (S k))%Q) → (n ≤ m)%nat →
  (monotonic n <= monotonic m)%Q.
Proof.
  intros Hmono. induction 1 as [| m _ IH]; [apply Qle_refl |].
  eapply Qle_trans; [exact IH | apply Hmono].
Qed.

(** C4, amended. In scenario S1 each instance starts with two tokens: the
    first four acquisitions are served by [https://a], [https://b],
    [https://a], [https://b], and the fifth finds no instance available,
    as does a fetch made in its place, when all of this happens less than
    30 seconds after startup (a token is regained every 30 seconds). *)
Theorem rotation_two_instances (t0 : nat) (ua : string) (base : Z)
    (net : string → HttpOutcome) (target_type value : string) :
  (∀ n, (0 <= monotonic n)%Q) →
  (∀ n, (monotonic n <= monotonic (S n))%Q) →
  (monotonic (t0 + 13) - monotonic t0 < 30)%Q →
  ∃ c, init monotonic ["https://a"; "https://b"] ua 2 base t0
       = Some (c, (t0 + 2)%nat)
    ∧ let r1 := _acquire_instance monotonic c (t0 + 2) in
      let r2 := _acquire_instance monotonic r1.1.2 r1.2 in
      let r3 := _acquire_instance monotonic r2.1.2 r2.2 in
      let r4 := _acquire_instance monotonic r3.1.2 r3.2 in
      let r5 := _acquire_instance monotonic r4.1.2 r4.2 in
      acquired_url r1 = Some "https://a"
      ∧ acquired_url r2 = Some "https://b"
      ∧ acquired_url r3 = Some "https://a"
      ∧ acquired_url r4 = Some "https://b"
      ∧ r5.1.1 = None
      ∧ (fetch_target decimal monotonic net target_type value r4.1.2 r4.2).1.1
        = ([], None,
           Some "Keine verfügbare Instanz (Rate-Limit oder Backoff).").
Proof.
  intros Hpos Hmono Hwin.
  set (c0 := monotonic t0) in *. set (cend := monotonic (t0 + 13)) in *.
  assert (Hr : ∀ t, (t0 ≤ t)%nat → (t + 3 ≤ t0 + 13)%nat →
            ∀ k, (k < 4)%nat →
              (0 <= monotonic (t + k))%Q ∧ (c0 <= monotonic (t + k))%Q
              ∧ (monotonic (t + k) <= cend)%Q).
  { intros t H1 H2 k Hk. split; [apply Hpos |].
    split; apply clock_monotone; try done; lia. }
  eexists. split; [replace (t0 + 2)%nat with (S (S t0)) by lia; reflexivity |].
  set (c := mkClient _ _ _ _).
  assert (H0 : pool2 c0 cend 0 0 0 c).
  { eexists _, _. split; [reflexivity |]. simpl.
    assert (c0 <= monotonic (S t0))%Q by (apply clock_monotone; [done | lia]).
    assert (monotonic (S t0) <= cend)%Q by (apply clock_monotone; [done | lia]).
    assert (c0 <= cend)%Q by (apply clock_monotone; [done | lia]).
    unfold bucket. simpl. change (inject_Z 0) with 0%Q.
    change (inject_Z 2) with 2%Q. subst c0.
    repeat split; try done; try lra; try apply Qle_refl. }
  intros r1 r2 r3 r4 r5.
  destruct (acquire_first c0 cend (t0 + 2) (Hr (t0 + 2)%nat ltac:(lia) ltac:(lia))
              0 0 c ltac:(lia) H0) as (U1 & P1 & T1). fold r1 in U1, P1, T1.
  destruct (acquire_second c0 cend r1.2
              (Hr r1.2 ltac:(rewrite T1; lia) ltac:(rewrite T1; lia))
              1 0 r1.1.2 ltac:(lia) P1) as (U2 & P2 & T2).
  fold r2 in U2, P2, T2.
  destruct (acquire_first c0 cend r2.2
              (Hr r2.2 ltac:(rewrite T2, T1; lia) ltac:(rewrite T2, T1; lia))
              1 1 r2.1.2 ltac:(lia) P2) as (U3 & P3 & T3).
  fold r3 in U3, P3, T3.
  destruct (acquire_second c0 cend r3.2
              (Hr r3.2 ltac:(rewrite T3, T2, T1; lia)
                    ltac:(rewrite T3, T2, T1; lia))
              2 1 r3.1.2 ltac:(lia) P3) as (U4 & P4 & T4).
  fold r4 in U4, P4, T4.
  destruct (acquire_none c0 cend r4.2
              (Hr r4.2 ltac:(rewrite T4, T3, T2, T1; lia)
                    ltac:(rewrite T4, T3, T2, T1; lia))
              r4.1.2 Hwin P4) as (N5 & T5).
  fold r5 in N5, T5.
  repeat (split; [done |]).
  unfold fetch_target. fold r5.
  destruct r5 as [[a5 c5] t5]. simpl in N5. by rewrite N5.
Qed.
End RotationFacts.

Lemma clock_nonneg (n : nat) : (0 <= Examples.clock n)%Q.
Proof. unfold Examples.clock, Qle. simpl. lia. Qed.

Lemma clock_step (n : nat) : (Examples.clock n <= Examples.clock (S n))%Q.
Proof. unfold Examples.clock, Qle. simpl. lia. Qed.

(** C4, amended, on a clock that advances a tenth of a second per reading. *)
Lemma rotation_two_instances_witness :
  ∃ c, Nitter.init Examples.clock ["https://a"; "https://b"] "agent" 2 2 0
       = Some (c, 2%nat)
    ∧ let r1 := Nitter._acquire_instance Examples.clock c 2 in
      let r2 := Nitter._acquire_instance Examples.clock r1.1.2 r1.2 in
      let r3 := Nitter._acquire_instance Examples.clock r2.1.2 r2.2 in
      let r4 := Nitter._acquire_instance Examples.clock r3.1.2 r3.2 in
      let r5 := Nitter._acquire_instance Examples.clock r4.1.2 r4.2 in
      Nitter.acquired_url r1 = Some "https://a"
      ∧ Nitter.acquired_url r2 = Some "https://b"
      ∧ Nitter.acquired_url r3 = Some "https://a"
      ∧ Nitter.acquired_url r4 = Some "https://b"
      ∧ r5.1.1 = None
      ∧ (Nitter.fetch_target Examples.decimal Examples.clock
           (fun _ => Nitter.Raises (Nitter.mkExn "down")) "user" "alice"
           r4.1.2 r4.2).1.1
        = ([], None,
           Some "Keine verfügbare Instanz (Rate-Limit oder Backoff).").
Proof.
  apply (rotation_two_instances Examples.decimal Examples.clock 0 "agent" 2
           (fun _ => Nitter.Raises (Nitter.mkExn "down")) "user" "alice"
           clock_nonneg clock_step).
  reflexivity.
Defined.

(** C8 on the pool of scenario S1: an acquisition, a failure with HTTP 503,
    a refill and a success. *)
Lemma pool_invariant_witness :
  Forall (Nitter.state_ok 2)
    (Nitter.states
       (Nitter.run Examples.clock
          [Nitter.OpAcquire; Nitter.OpFailure 0 (Some 503);
           Nitter.OpRefill 0; Nitter.OpSuccess 0 (1 # 2)]
          (Examples.s1_start.1, Examples.s1_start.2)).1).
Proof.
  apply (pool_invariant Examples.clock ["https://a"; "https://b"] "agent"
           2 2 0).
  - lia.
  - apply clock_nonneg.
  - reflexivity.
Defined.

(** C2 on scenario S2: base 2 and two failures with HTTP 503 in a row. *)
Lemma backoff_after_failures_witness :
  let w0 := Nitter.run Examples.clock [Nitter.OpAcquire]
              (Examples.s1_start.1, Examples.s1_start.2) in
  let w := Nitter.run Examples.clock [Nitter.OpFailure 0 (Some 503)] w0 in
  let w' := Nitter.step Examples.clock w (Nitter.OpFailure 0 (Some 503)) in
  ∃ s', Nitter.states w'.1 !! 0%nat = Some s'
    ∧ (Nitter.backoff_until s' - Examples.clock w.2
       == inject_Z (Z.min 600 (2 * 2 ^ (2 - 1))))%Q
    ∧ Nitter.consecutive_errors s' = 2
    ∧ (Some 503 = None → Nitter.last_error s' = Some "Request-Fehler")
    ∧ (∀ code, Some 503 = Some code → code ≠ 0 →
         Nitter.last_error s' = Some ("HTTP " +:+ str_of_int code)).
Proof.
  eapply (backoff_after_failures Examples.clock ["https://a"; "https://b"]
            "agent" 2 2 0 Examples.s1_start.1 Examples.s1_start.2
            [Nitter.OpAcquire] [Nitter.OpFailure 0 (Some 503)] 0 2 (Some 503)).
  - lia.
  - reflexivity.
  - reflexivity.
  - reflexivity.
  - reflexivity.
  - reflexivity.
Defined.

(** * Properties of the HTML fallback parser *)

Section HtmlFacts.
Import Nitter.

Variable decimal : N → bool.

Local Abbreviation is_digit := (is_digit decimal).
Local Abbreviation take_digits := (take_digits decimal).
Local Abbreviation match_at := (match_at decimal).
Local Abbreviation finditer := (finditer decimal).
Local Abbreviation occurrence := (occurrence decimal).
Local Abbreviation _parse_html := (_parse_html decimal).
Local Abbreviation parse_response := (parse_response decimal).

Lemma strip_prefix_spec (p s r : list N) :
  strip_prefix p s = Some r ↔ s = p ++ r.
Proof.
  revert s. induction p as [| a p IH]; intros s; simpl.
  - split; congruence.
  - destruct s as [| b s]; [split; discriminate |].
    destruct (a =? b)%N eqn:E.
    + apply N.eqb_eq in E as ->. rewrite IH. split; congruence.
    + apply N.eqb_neq in E. split; [discriminate | congruence].
Qed.

Lemma take_digits_split (r : list N) :
  ∃ rest, r = take_digits r ++ rest
    ∧ forallb is_digit (take_digits r) = true
    ∧ match rest with c :: _ => is_digit c = false | [] => True end.
Proof.
  induction r as [| c r (rest & H1 & H2 & H3)]; simpl.
  - by exists [].
  - destruct (is_digit c) eqn:E.
    + exists rest. simpl. rewrite E, H2. by rewrite <- H1.
    + by exists (c :: r).
Qed.

Lemma take_digits_unique (ds rest : list N) :
  forallb is_digit ds = true →
  match rest with c :: _ => is_digit c = false | [] => True end →
  take_digits (ds ++ rest) = ds.
Proof.
  induction ds as [| d ds IH]; simpl; intros Hd Hr.
  - destruct rest as [| c rest]; [done |]. simpl. by rewrite Hr.
  - apply andb_true_iff in Hd as [-> Hd]. by rewrite IH.
Qed.

(** The pattern matches at the head of [s] exactly when [s] reads an
    occurrence there. *)
Lemma match_at_spec (s ds : list N) :
  match_at s = Some ds ↔ occurrence s 0 ds.
Proof.
  unfold match_at, occurrence. change (drop 0 s) with s. split.
  - destruct (strip_prefix status_prefix s) as [r |] eqn:E; [| done].
    apply strip_prefix_spec in E.
    destruct (take_digits_split r) as (rest & H1 & H2 & H3).
    destruct (take_digits r) as [| d ds'] eqn:Ed; [done |].
    intros [= <-]. exists rest. rewrite E, H1. done.
  - intros (rest & -> & Hne & Hd & Hr).
    assert (strip_prefix status_prefix (status_prefix ++ ds ++ rest)
            = Some (ds ++ rest)) as -> by by apply strip_prefix_spec.
    rewrite take_digits_unique by done. by destruct ds.
Qed.

Lemma match_at_drop (h : list N) (p : nat) (ds : list N) :
  match_at (drop p h) = Some ds ↔ occurrence h p ds.
Proof. rewrite match_at_spec. unfold occurrence. by rewrite drop_0. Qed.

Lemma match_at_slash (c : N) (r : list N) :
  c ≠ 47%N → match_at (c :: r) = None.
Proof.
  intros H. unfold match_at.
  destruct (strip_prefix status_prefix (c :: r)) as [x |] eqn:E; [| done].
  apply strip_prefix_spec in E. injection E as E _. congruence.
Qed.

(** Matches do not overlap: no match starts inside another one. *)
Lemma match_at_no_overlap (s ds : list N) (j : nat) :
  match_at s = Some ds → (1 ≤ j)%nat → (j < 8 + length ds)%nat →
  match_at (drop j s) = None.
Proof.
  intros Hm H1 H2. apply match_at_spec in Hm as (rest & Hs & Hne & Hd & Hr).
  rewrite drop_0 in Hs. subst s.
  destruct ds as [| d ds]; [done |]. simpl in Hd.
  apply andb_true_iff in Hd as [Hd Hds].
  destruct j as [| [| [| [| [| [| [| [| j]]]]]]]]; try lia;
    try (by apply match_at_slash).
  - (* the final slash of the prefix, followed by a digit *)
    change (drop 7 (status_prefix ++ (d :: ds) ++ rest))
      with (47%N :: d :: ds ++ rest).
    unfold match_at.
    destruct (strip_prefix status_prefix (47%N :: d :: ds ++ rest))
      as [x |] eqn:E; [| done].
    apply strip_prefix_spec in E. injection E as E _. by subst d.
  - (* inside the digits *)
    change (drop (S (S (S (S (S (S (S (S j))))))))
                 (status_prefix ++ (d :: ds) ++ rest))
      with (drop j ((d :: ds) ++ rest)).
    simpl in H2. assert (j < length (d :: ds))%nat as Hj by (simpl; lia).
    rewrite drop_app_le by lia.
    destruct (drop j (d :: ds)) as [| x xs] eqn:Ex.
    { apply (f_equal length) in Ex. rewrite length_drop in Ex.
      simpl in Ex. lia. }
    simpl. apply match_at_slash. intros ->.
    assert (is_digit 47 = true); [| done].
    assert (Hall : forallb is_digit (d :: ds) = true) by (simpl; by rewrite Hd).
    rewrite forallb_forall in Hall. apply Hall.
    apply list_elem_of_In. rewrite <- (take_drop j (d :: ds)).
    apply elem_of_app. right. rewrite Ex. by left.
Qed.
Lemma match_at_nil : match_at [] = None.
Proof. reflexivity. Qed.

(** [finditer] reports exactly the places where the pattern matches, given
    that none lies in the part it is told to skip. *)
Lemma finditer_spec (s : list N) (skip pos : nat) :
  (∀ j, (j < skip)%nat → match_at (drop j s) = None) →
  ∀ p ds, (p, ds) ∈ finditer skip pos s
          ↔ ∃ k, p = (pos + k)%nat ∧ match_at (drop k s) = Some ds.
Proof.
  revert skip pos. induction s as [| c r IH]; intros skip pos Hskip p ds.
  - simpl. split; [by intros ?%elem_of_nil |].
    intros (k & _ & H). rewrite drop_nil in H. discriminate.
  - destruct skip as [| k']; simpl.
    + destruct (match_at (c :: r)) as [ds0 |] eqn:Hm.
      * rewrite elem_of_cons, IH.
        2: { intros j Hj. apply (match_at_no_overlap _ _ (S j) Hm); lia. }
        split.
        -- intros [[= -> ->] | (k & -> & Hk)].
           ++ exists O. split; [lia | done].
           ++ exists (S k). split; [lia | done].
        -- intros ([| k] & -> & Hk).
           ++ left. rewrite drop_0, Hm in Hk. injection Hk as ->.
              f_equal. lia.
           ++ right. exists k. split; [lia | done].
      * rewrite IH by (intros; lia). split.
        -- intros (k & -> & Hk). exists (S k). split; [lia | done].
        -- intros ([| k] & -> & Hk).
           ++ rewrite drop_0, Hm in Hk. discriminate.
           ++ exists k. split; [lia | done].
    + rewrite IH by (intros j Hj; apply (Hskip (S j)); lia). split.
      * intros (k & -> & Hk). exists (S k). split; [lia | done].
      * intros ([| k] & -> & Hk).
        -- rewrite Hskip in Hk by lia. discriminate.
        -- exists k. split; [lia | done].
Qed.

(** The matches come in increasing order of position: no place is reported
    twice. *)
Lemma finditer_sorted (s : list N) (skip pos : nat) :
  StronglySorted (fun a b : nat * list N => (a.1 < b.1)%nat)
                 (finditer skip pos s)
  ∧ Forall (fun a : nat * list N => (pos ≤ a.1)%nat) (finditer skip pos s).
Proof.
  revert skip pos. induction s as [| c r IH]; intros skip pos; simpl.
  - split; constructor.
  - destruct skip as [| k'].
    + destruct (match_at (c :: r)) as [ds0 |].
      * destruct (IH (7 + length ds0)%nat (S pos)) as [IH1 IH2]. split.
        -- constructor; [done |]. eapply Forall_impl; [exact IH2 |].
           simpl. intros; lia.
        -- constructor; [simpl; lia |]. eapply Forall_impl; [exact IH2 |].
           simpl. intros; lia.
      * destruct (IH O (S pos)) as [IH1 IH2]. split; [done |].
        eapply Forall_impl; [exact IH2 |]. simpl. intros; lia.
    + destruct (IH k' (S pos)) as [IH1 IH2]. split; [done |].
      eapply Forall_impl; [exact IH2 |]. simpl. intros; lia.
Qed.

(** C6, amended. The HTML parser is used exactly when [_parse_rss] yields
    nothing and the Content-Type does not contain [xml]. Its result has,
    in order, one record for each place where the body reads [/status/]
    and a maximal run of digits; the record's id is that run, and its
    summary, also kept under [raw], is the white-space normalised window
    of 400 characters that starts 200 characters before the match, or at
    the start of the body when the match begins earlier. The response of
    scenario S4 yields exactly one entry, with id 12345. *)
Theorem html_fallback (r : Response) (html : list N) :
  let window := fun p : nat =>
    utf8 (sub_ws false (take 400 (drop (p - 200) html))) in
  parse_response r
  = match _parse_rss r with
    | [] => if contains "xml" (str_or (content_type r) "")
            then [] else _parse_html (text r)
    | entries => entries
    end
  ∧ (∃ ms : list (nat * list N),
       _parse_html html
       = map (fun m => mkEntry (utf8 m.2) "Tweet"
                               (window m.1) (utf8 m.2) ""
                               (RawExcerpt (window m.1))) ms
       ∧ (∀ p ds, (p, ds) ∈ ms ↔ occurrence html p ds)
       ∧ StronglySorted (fun a b => (a.1 < b.1)%nat) ms)
  ∧ ∃ e, parse_response Examples.s4_response = [e] ∧ e_id e = "12345".
Proof.
  intros window. split; [| split].
  - unfold parse_response. destruct (_parse_rss r); [| done].
    by destruct (contains "xml" _).
  - exists (finditer 0 0 html). split; [| split].
    + unfold Nitter._parse_html. apply map_ext. intros [p ds].
      unfold html_entry, excerpt_at, slice, window. simpl.
      by replace (p - 200 + 400 - (p - 200))%nat with 400%nat by lia.
    + intros p ds. rewrite finditer_spec by (intros; lia).
      rewrite <- match_at_drop. split.
      * by intros (k & -> & Hk).
      * intros H. by exists p.
    + apply finditer_sorted.
  - eexists. split; [vm_compute; reflexivity | reflexivity].
Qed.
End HtmlFacts.

(** C6 as stated fails: for a match at the very start of a long page the
    summary is the first 400 characters of the page, which is none of the
    readings of "the 200 characters preceding and the 200 characters
    following the match". *)
Lemma excerpt_is_not_the_worded_window :
  let h := Examples.long_page in
  String.length (Nitter.worded_from_start h 0) = 200%nat
  ∧ String.length (Nitter.worded_around h 0 9) = 209%nat
  ∧ String.length (Nitter.worded_without_match h 0 9) = 200%nat
  ∧ ∀ decimal, ∃ e, Nitter._parse_html decimal h = [e]
      ∧ Nitter.e_id e = "1"
      ∧ String.length (Nitter.e_summary e) = 400%nat
      ∧ Nitter.e_summary e ≠ Nitter.worded_from_start h 0
      ∧ Nitter.e_summary e ≠ Nitter.worded_around h 0 9
      ∧ Nitter.e_summary e ≠ Nitter.worded_without_match h 0 9.
Proof.
  intros h. split; [by vm_compute |]. split; [by vm_compute |].
  split; [by vm_compute |]. intros decimal.
  eexists. split; [vm_compute; reflexivity |].
  split; [reflexivity |]. split; [by vm_compute |].
  repeat split; intros H; apply (f_equal String.length) in H;
    vm_compute in H; discriminate.
Qed.

(** * Properties of the event broker *)

Section BrokerFacts.
Import App.

Lemma list_remove_filter (x : nat) (l : list nat) :
  NoDup l → list_remove x l = List.filter (fun y => negb (Nat.eqb x y)) l.
Proof.
  induction l as [| y l IH]; simpl; [done |].
  intros [Hnot Hnd]%NoDup_cons. destruct (Nat.eqb x y) eqn:E; simpl.
  - apply Nat.eqb_eq in E as ->. symmetry. apply filter_all.
    intros z Hz. apply negb_true_iff, Nat.eqb_neq. intros ->. done.
  - by rewrite IH.
Qed.

Lemma NoDup_filter_bool (f : nat → bool) (l : list nat) :
  NoDup l → NoDup (List.filter f l).
Proof.
  induction l as [| y l IH]; simpl; [done |].
  intros [Hnot Hnd]%NoDup_cons. destruct (f y); [| by apply IH].
  apply NoDup_cons. split; [| by apply IH].
  intros Hin. apply Hnot. apply list_elem_of_In in Hin.
  apply filter_In in Hin as [Hin _]. by apply list_elem_of_In.
Qed.

Lemma filter_filter_bool {A} (f g : A → bool) (l : list A) :
  List.filter f (List.filter g l) = List.filter (fun x => f x && g x) l.
Proof.
  induction l as [| x l IH]; simpl; [done |].
  destruct (g x); simpl.
  - rewrite andb_true_r. destruct (f x); by rewrite IH.
  - by rewrite andb_false_r.
Qed.

(** The loop of [publish] over a snapshot without repetitions: each queue
    of the snapshot is put to once, in the state it had before the loop;
    the references whose queue is full leave the subscriber list. *)
Lemma publish_loop_spec (payload : string) (snapshot : list nat)
    (b : EventBroker) :
  NoDup snapshot → NoDup (clients b) →
  let b' := publish_loop payload snapshot b in
  (∀ r, objects b' !! r
        = if decide (r ∈ snapshot)
          then (fun q => if full q then q else appended q payload)
                 <$> objects b !! r
          else objects b !! r)
  ∧ clients b'
    = List.filter
        (fun r => negb (existsb (Nat.eqb r) snapshot && is_full b r))
        (clients b)
  ∧ next_ref b' = next_ref b.
Proof.
  revert b. induction snapshot as [| h rest IH]; intros b Hsn Hnd; simpl.
  { split; [done |]. split; [| done]. symmetry. by apply filter_all. }
  apply NoDup_cons in Hsn as [Hh Hrest].
  destruct (objects b !! h) as [q |] eqn:Hq.
  2: { destruct (IH b Hrest Hnd) as (I1 & I2 & I3). split; [| split; [| done]].
       - intros r. rewrite I1. destruct (decide (r = h)) as [-> | Hne].
         + rewrite decide_False by done. rewrite decide_True by by left.
           by rewrite Hq.
         + destruct (decide (r ∈ rest)).
           * by rewrite decide_True by by right.
           * rewrite decide_False; [done |].
             by intros [? | ?]%elem_of_cons.
       - rewrite I2. apply List.filter_ext. intros r.
         destruct (Nat.eqb r h) eqn:E; [| done].
         apply Nat.eqb_eq in E as ->. unfold is_full. rewrite Hq.
         by rewrite !andb_false_r. }
  unfold put_nowait. destruct (full q) eqn:Hfull.
  - set (b1 := mkBroker (list_remove h (clients b)) (objects b) (next_ref b)).
    assert (Hnd1 : NoDup (clients b1)).
    { simpl. rewrite list_remove_filter by done. by apply NoDup_filter_bool. }
    destruct (IH b1 Hrest Hnd1) as (I1 & I2 & I3).
    split; [| split; [| done]].
    + intros r. rewrite I1. simpl. destruct (decide (r = h)) as [-> | Hne].
      * rewrite decide_False by done. rewrite decide_True by by left.
        rewrite Hq. simpl. by rewrite Hfull.
      * destruct (decide (r ∈ rest)).
        -- by rewrite decide_True by by right.
        -- rewrite decide_False; [done |]. by intros [? | ?]%elem_of_cons.
    + rewrite I2. simpl. rewrite list_remove_filter by done.
      rewrite filter_filter_bool. apply List.filter_ext. intros r.
      change (is_full b1 r) with (is_full b r).
      destruct (Nat.eqb r h) eqn:E; simpl.
      * apply Nat.eqb_eq in E as ->. unfold is_full. rewrite Hq, Hfull.
        rewrite Nat.eqb_refl. simpl. by rewrite andb_false_r.
      * rewrite Nat.eqb_sym, E. simpl. by rewrite andb_true_r.
  - set (b1 := mkBroker (clients b)
                 (<[h := mkQueue (maxsize q) (items q ++ [payload])]> (objects b))
                 (next_ref b)).
    destruct (IH b1 Hrest Hnd) as (I1 & I2 & I3).
    split; [| split; [| done]].
    + intros r. rewrite I1. simpl. destruct (decide (r = h)) as [-> | Hne].
      * rewrite decide_False by done. rewrite decide_True by by left.
        rewrite lookup_insert_eq, Hq. simpl. by rewrite Hfull.
      * rewrite lookup_insert_ne by done. destruct (decide (r ∈ rest)).
        -- by rewrite decide_True by by right.
        -- rewrite decide_False; [done |]. by intros [? | ?]%elem_of_cons.
    + rewrite I2. simpl. apply List.filter_ext. intros r.
      destruct (Nat.eqb r h) eqn:E; simpl.
      * apply Nat.eqb_eq in E as ->.
        assert (existsb (Nat.eqb h) rest = false) as ->.
        { apply not_true_iff_false. intros (x & Hx & Ex)%existsb_exists.
          apply Nat.eqb_eq in Ex as <-. by apply list_elem_of_In in Hx. }
        unfold is_full. rewrite Hq, Hfull. done.
      * unfold is_full. simpl. rewrite lookup_insert_ne; [done |].
        intros ->. by rewrite Nat.eqb_refl in E.
Qed.
Lemma publish_loop_clients (payload : string) (b : EventBroker) :
  NoDup (clients b) →
  clients (publish_loop payload (clients b) b)
  = List.filter (fun r => negb (is_full b r)) (clients b).
Proof.
  intros Hnd.
  destruct (publish_loop_spec payload (clients b) b Hnd Hnd) as (_ & -> & _).
  apply List.filter_ext_in. intros r Hr.
  assert (existsb (Nat.eqb r) (clients b) = true) as ->; [| done].
  apply existsb_exists. exists r. split; [done | apply Nat.eqb_refl].
Qed.

Lemma unbounded_not_full (q : Queue) : maxsize q = 0 → full q = false.
Proof. intros H. unfold full. by rewrite H. Qed.

Lemma broker_step_ok (b : EventBroker) (op : BrokerOp) :
  broker_ok b → broker_ok (broker_step b op).
Proof.
  intros (Hnd & Hcl & Hobj).
  destruct op as [| r | payload]; unfold broker_step, broker_ok.
  - unfold register. cbn [snd clients objects next_ref]. split; [| split].
    + apply NoDup_app. split; [done |]. split; [| apply NoDup_singleton].
      intros x Hx ->%list_elem_of_singleton.
      destruct (Hcl _ Hx) as [q Hq]. apply Hobj in Hq as [_ Hlt]. lia.
    + intros x [Hx | ->%list_elem_of_singleton]%elem_of_app.
      * destruct (Hcl _ Hx) as [q Hq].
        rewrite lookup_insert_ne; [by exists q |].
        intros <-. apply Hobj in Hq as [_ Hlt]. lia.
      * rewrite lookup_insert_eq. by eexists.
    + intros x q. destruct (decide (next_ref b = x)) as [<- | Hne].
      * rewrite lookup_insert_eq. intros [= <-]. split; [done | lia].
      * rewrite lookup_insert_ne by done. intros Hq.
        apply Hobj in Hq as [? ?]. split; [done | lia].
  - unfold unregister. destruct (existsb (Nat.eqb r) (clients b)); [| done].
    cbn [clients objects next_ref].
    rewrite list_remove_filter by done. split; [| split; [| done]].
    + by apply NoDup_filter_bool.
    + intros x Hx. apply Hcl. apply list_elem_of_In in Hx.
      apply filter_In in Hx as [Hx _]. by apply list_elem_of_In.
  - destruct (publish_loop_spec payload (clients b) b Hnd Hnd)
      as (H1 & H2 & H3).
    split; [| split].
    + rewrite H2. by apply NoDup_filter_bool.
    + intros x Hx. rewrite H2 in Hx. apply list_elem_of_In in Hx.
      apply filter_In in Hx as [Hx _]. apply list_elem_of_In in Hx.
      rewrite H1, decide_True by done.
      destruct (Hcl _ Hx) as [q ->]. by eexists.
    + intros x q. rewrite H1, H3. destruct (decide (x ∈ clients b)).
      * destruct (objects b !! x) as [q0 |] eqn:Hq0; [| done].
        simpl. intros [= <-]. apply Hobj in Hq0 as [? ?].
        split; [by destruct (full q0) | done].
      * apply Hobj.
Qed.

(** Every broker that the program builds has queues without bound only. *)
Lemma broker_after_ok (ops : list BrokerOp) : broker_ok (broker_after ops).
Proof.
  unfold broker_after.
  assert (H : broker_ok new_broker).
  { unfold new_broker, broker_ok. cbn [clients objects next_ref].
    split; [constructor |]. split.
    - by intros r ?%elem_of_nil.
    - intros r q. by rewrite lookup_empty. }
  revert H. generalize new_broker as b.
  induction ops as [| op ops IH]; intros b Hb; simpl; [done |].
  by apply IH, broker_step_ok.
Qed.

Section Publish.
Variable json_dumps : JSON → string.

(** What [publish] does on every state of the broker, also on one with a
    bounded queue, which no call of the program builds. It removes from
    the subscriber list exactly the subscribers whose queue raises
    [queue.Full] (a positive [maxsize] and that many items) and leaves
    their queues as they are, appends the event to the queue of every
    other subscriber, and touches no queue that is not subscribed; it uses
    [put_nowait] only and so never waits. On a broker built by the
    program's calls no subscriber is full. *)
Lemma publish_drops_full_subscribers (event_type : string) (data : JSON)
    (b : EventBroker) :
  NoDup (clients b) →
  let payload :=
    json_dumps (JObj [("type", JStr event_type); ("data", data)]) in
  let b' := publish json_dumps event_type data b in
  clients b' = List.filter (fun r => negb (is_full b r)) (clients b)
  ∧ (∀ r q, r ∈ clients b → objects b !! r = Some q →
       (if full q then (r ∉ clients b') ∧ objects b' !! r = Some q
        else r ∈ clients b' ∧ objects b' !! r = Some (appended q payload)))
  ∧ (∀ r, r ∉ clients b → objects b' !! r = objects b !! r)
  ∧ (∀ ops, b = broker_after ops →
       clients b' = clients b
       ∧ ∀ r, r ∈ clients b →
           ∃ q, objects b !! r = Some q ∧ maxsize q = 0 ∧ full q = false
             ∧ objects b' !! r = Some (appended q payload)).
Proof.
  intros Hnd payload b'. subst b'. unfold publish. fold payload.
  pose proof (publish_loop_clients payload b Hnd) as Hc.
  destruct (publish_loop_spec payload (clients b) b Hnd Hnd) as (Ho & _ & _).
  split; [done |]. split; [| split].
  - intros r q Hr Hq.
    assert (Hmem : r ∈ List.filter (fun r => negb (is_full b r)) (clients b)
                   ↔ full q = false).
    { rewrite list_elem_of_In, filter_In, <- list_elem_of_In.
      unfold is_full. rewrite Hq, negb_true_iff. tauto. }
    rewrite Hc, Ho, decide_True, Hq by done. simpl.
    destruct (full q) eqn:Hf.
    + split; [| done]. rewrite Hmem. done.
    + split; [| done]. by apply Hmem.
  - intros r Hr. by rewrite Ho, decide_False.
  - intros ops ->. destruct (broker_after_ok ops) as (_ & Hcl & Hobj).
    split.
    + rewrite Hc. apply filter_all. intros r Hr. unfold is_full.
      destruct (Hcl _ Hr) as [q Hq]. rewrite Hq.
      apply Hobj in Hq as [Hq _]. by rewrite unbounded_not_full.
    + intros r Hr. destruct (Hcl _ Hr) as [q Hq]. exists q.
      destruct (Hobj _ _ Hq) as [Hm _].
      pose proof (unbounded_not_full q Hm) as Hf.
      repeat (split; [done |]).
      by rewrite Ho, decide_True, Hq; simpl; rewrite ?Hf.
Qed.
End Publish.
End BrokerFacts.

(** Scenario S6: a subscriber that does not drain its queue, and two
    publishes. The queue that [register] built has no bound: it is not
    full after the first event, and after the second the subscriber is
    still registered and holds both events. *)
Lemma registered_subscriber_is_not_dropped :
  let b1 := (App.register App.new_broker).2 in
  let r := (App.register App.new_broker).1 in
  let b2 := App.publish Examples.dumps_const "tick" JNull b1 in
  let b3 := App.publish Examples.dumps_const "tick" JNull b2 in
  App.maxsize <$> App.objects b1 !! r = Some 0
  ∧ App.is_full b2 r = false
  ∧ App.clients b3 = [r]
  ∧ App.items <$> App.objects b3 !! r = Some ["{}"; "{}"].
Proof. vm_compute. done. Qed.

(** [publish] on a broker state made by hand, with a bounded subscriber
    (capacity 1, one event waiting) next to an unbounded one: the first is
    dropped, the second gets the event. *)
Lemma publish_drops_full_subscribers_witness :
  let b := App.mkBroker [0%nat; 1%nat]
             (<[0%nat := App.mkQueue 1 ["e1"]]>
                (<[1%nat := App.mkQueue 0 ["e1"]]> ∅)) 2 in
  let b' := App.publish Examples.dumps_const "tick" JNull b in
  App.clients b'
  = List.filter (fun r => negb (App.is_full b r)) (App.clients b)
  ∧ App.clients b' = [1%nat]
  ∧ App.items <$> App.objects b' !! 0%nat = Some ["e1"]
  ∧ App.items <$> App.objects b' !! 1%nat = Some ["e1"; "{}"].
Proof.
  intros b b'. split.
  - apply (publish_drops_full_subscribers Examples.dumps_const "tick" JNull b).
    apply (bool_decide_unpack _). vm_compute. exact I.
  - vm_compute. done.
Defined.

(** * Properties of the fetch pipeline *)

Section PipelineFacts.
Import App.
Variable json_dumps : JSON → string.
Variable order_by : list Storage.TweetRow → list Storage.TweetRow.
Variable decimal : N → bool.
Variable monotonic : nat → Q.
Variable utcnow : nat → Z.
Variable isoformat : Z → string.
Variable fromisoformat : string → option Z.

Local Abbreviation fetch_target := (Nitter.fetch_target decimal monotonic).
Local Abbreviation _fetch_target :=
  (_fetch_target json_dumps order_by decimal monotonic utcnow isoformat).
Local Abbreviation is_due := (is_due fromisoformat).

(** Every error return of [fetch_target] has an empty entry list. *)
Lemma fetch_target_error_entries (net : string → Nitter.HttpOutcome)
    (target_type value : string) (c : Nitter.NitterClient) (t : nat)
    (entries : list Nitter.Entry) (instance : option string) (e : string) :
  (fetch_target net target_type value c t).1.1 = (entries, instance, Some e) →
  entries = [].
Proof.
  unfold Nitter.fetch_target.
  destruct (Nitter._acquire_instance monotonic c t) as [[[i |] c1] t1];
    [| by intros [= <- _ _]].
  unfold Nitter._fetch. destruct (net _) as [r | exc]; simpl.
  - destruct (400 <=? Nitter.status_code r); simpl; [by intros [= <- _ _] |].
    discriminate.
  - by intros [= <- _ _].
Qed.

(** The texts of the error returns: they are empty only for an exception
    whose [str()] is empty. *)
Lemma fetch_target_error_text (net : string → Nitter.HttpOutcome)
    (target_type value : string) (c : Nitter.NitterClient) (t : nat)
    (entries : list Nitter.Entry) (instance : option string) :
  (fetch_target net target_type value c t).1.1 = (entries, instance, Some "") →
  ∃ url, net url = Nitter.Raises (Nitter.mkExn "").
Proof.
  unfold Nitter.fetch_target.
  destruct (Nitter._acquire_instance monotonic c t) as [[[i |] c1] t1];
    [| discriminate].
  unfold Nitter._fetch.
  destruct (net (Nitter._construct_url _ _ _)) as [r | [msg]] eqn:E; simpl.
  - destruct (400 <=? Nitter.status_code r); simpl; discriminate.
  - intros [= _ _ ->]. by eexists.
Qed.

(** A fetch whose error text is not empty leaves the whole database as it
    was, reports the error and counts no new post. *)
Lemma failed_fetch_leaves_store (config : Config)
    (net : string → Nitter.HttpOutcome) (target_row : Storage.TargetRow)
    (a : AppState) (entries : list Nitter.Entry) (instance : option string)
    (e : string) :
  (fetch_target net (Storage.tg_type target_row) (Storage.tg_value target_row)
     (client a) (mono_reads a)).1.1 = (entries, instance, Some e) →
  e ≠ "" →
  entries = []
  ∧ storage (_fetch_target config net target_row a).2 = storage a
  ∧ r_error (_fetch_target config net target_row a).1 = Some e
  ∧ r_new (_fetch_target config net target_row a).1 = 0.
Proof.
  intros Hf He. split; [by eapply fetch_target_error_entries |].
  unfold App._fetch_target.
  destruct (Nitter.fetch_target decimal monotonic net _ _ _ _)
    as [[[[entries' instance'] error'] c1] t1].
  simpl in Hf. injection Hf as -> -> ->. simpl.
  apply str_truthy_true in He. by rewrite He.
Qed.

(** A target that is due stays due while its row is not written. *)
Lemma is_due_later (now later : Z) (target : Storage.TargetRow) :
  is_due now target = true → now ≤ later → is_due later target = true.
Proof.
  unfold App.is_due. destruct (Storage.tg_last_fetched_at target) as [s |];
    [| done].
  destruct (str_truthy s); [| done].
  destruct (fromisoformat s); [| done]. lia.
Qed.

Lemma prune_target_subset (n : Z) (l : list Storage.TweetRow) (t : string)
    (x : Storage.TweetRow) :
  x ∈ Storage.prune_target order_by n l t → x ∈ l.
Proof.
  unfold Storage.prune_target. rewrite !list_elem_of_In, filter_In.
  by intros [? _].
Qed.

Lemma prune_subset (n : Z) (db : Storage.DB) (x : Storage.TweetRow) :
  x ∈ Storage.tweets (Storage.prune_old_entries order_by n db) →
  x ∈ Storage.tweets db.
Proof.
  unfold Storage.prune_old_entries. simpl.
  generalize (Storage.distinct_targets (Storage.tweets db)) as ts.
  generalize (Storage.tweets db) as l. intros l ts. revert l.
  induction ts as [| t ts IH]; intros l; simpl; [done |].
  intros H. apply IH in H. by eapply prune_target_subset.
Qed.

(** What [_fetch_target] does with an empty entry list and no error text
    that counts: it stores nothing and writes the fetch state. *)
Lemma empty_fetch_effect (config : Config)
    (net : string → Nitter.HttpOutcome) (target_row : Storage.TargetRow)
    (a : AppState) (instance error : option string) :
  (fetch_target net (Storage.tg_type target_row) (Storage.tg_value target_row)
     (client a) (mono_reads a)).1.1 = ([], instance, error) →
  opt_truthy error = false →
  let now_iso := isoformat (utcnow (wall_reads a)) in
  let out := _fetch_target config net target_row a in
  r_error out.1 = None ∧ r_new out.1 = 0
  ∧ Storage.targets (storage out.2)
    = map (fun r => if Storage.tg_id r =? Storage.tg_id target_row
                    then fetched None (Some now_iso) r else r)
          (Storage.targets (storage a))
  ∧ (∀ x, x ∈ Storage.tweets (storage out.2) → x ∈ Storage.tweets (storage a)).
Proof using Type.
  intros Hf He now_iso out. subst out. unfold App._fetch_target.
  destruct (Nitter.fetch_target decimal monotonic net _ _ _ _)
    as [[[[entries' instance'] error'] c1] t1].
  simpl in Hf. injection Hf as -> -> ->. rewrite He.
  unfold _store_entries. cbn [fold_left].
  destruct (keep_only_last_n_per_target config) as [k |]; simpl.
  - destruct (k =? 0); simpl; repeat split; try done.
    intros x. apply prune_subset.
  - repeat split; done.
Qed.
(** C10. When [fetch_target] returns no entries and no error, the fetch
    reports no error and no new post, adds no row to [tweets], and writes
    the target's row: [last_fetched_id] becomes NULL and [last_fetched_at]
    the time read at the start of the fetch. The scheduler then finds the
    target due exactly when its poll interval has elapsed since that time
    (given that [fromisoformat] reads back what [isoformat] wrote). *)
Theorem empty_fetch_updates_fetch_state (config : Config)
    (net : string → Nitter.HttpOutcome) (target_row : Storage.TargetRow)
    (a : AppState) (instance : option string) :
  (fetch_target net (Storage.tg_type target_row) (Storage.tg_value target_row)
     (client a) (mono_reads a)).1.1 = ([], instance, None) →
  let now := utcnow (wall_reads a) in
  fromisoformat (isoformat now) = Some now → isoformat now ≠ "" →
  let out := _fetch_target config net target_row a in
  r_error out.1 = None ∧ r_new out.1 = 0
  ∧ (∀ x, x ∈ Storage.tweets (storage out.2) → x ∈ Storage.tweets (storage a))
  ∧ Storage.targets (storage out.2)
    = map (fun r => if Storage.tg_id r =? Storage.tg_id target_row
                    then fetched None (Some (isoformat now)) r else r)
          (Storage.targets (storage a))
  ∧ ∀ r, r ∈ Storage.targets (storage a) →
         Storage.tg_id r = Storage.tg_id target_row →
         let r' := fetched None (Some (isoformat now)) r in
         r' ∈ Storage.targets (storage out.2)
         ∧ Storage.tg_last_fetched_id r' = None
         ∧ Storage.tg_last_fetched_at r' = Some (isoformat now)
         ∧ ∀ later,
             is_due later r' = (interval_of r * 1000000 <=? later - now)
             ∧ (later - now < interval_of r * 1000000 →
                is_due later r' = false).
Proof.
  intros Hf now Hround Hne out.
  destruct (empty_fetch_effect config net target_row a instance None Hf eq_refl)
    as (H1 & H2 & H3 & H4). fold out in H1, H2, H3, H4. fold now in H3.
  repeat (split; [done |]).
  intros r Hr Hid r'. split.
  { rewrite H3. apply list_elem_of_fmap. exists r. split; [| done].
    by rewrite (proj2 (Z.eqb_eq _ _) Hid). }
  split; [done |]. split; [done |]. intros later.
  assert (is_due later r' = (interval_of r * 1000000 <=? later - now)) as Hd.
  { unfold App.is_due. simpl. apply str_truthy_true in Hne.
    by rewrite Hne, Hround. }
  split; [done |]. rewrite Hd. lia.
Qed.

(** C5 on the failing input. When the exception raised by the request has
    an empty [str()], [fetch_target] returns the empty text as the error;
    [_fetch_target] tests that text for truth, takes the fetch for a
    success, reports no error and writes the target's fetch state. *)
Theorem silent_failure_updates_fetch_state (config : Config)
    (net : string → Nitter.HttpOutcome) (target_row : Storage.TargetRow)
    (a : AppState) (instance : option string) :
  (fetch_target net (Storage.tg_type target_row) (Storage.tg_value target_row)
     (client a) (mono_reads a)).1.1 = ([], instance, Some "") →
  let now_iso := isoformat (utcnow (wall_reads a)) in
  let out := _fetch_target config net target_row a in
  (∃ url, net url = Nitter.Raises (Nitter.mkExn ""))
  ∧ r_error out.1 = None
  ∧ Storage.targets (storage out.2)
    = map (fun r => if Storage.tg_id r =? Storage.tg_id target_row
                    then fetched None (Some now_iso) r else r)
          (Storage.targets (storage a))
  ∧ ∀ r, r ∈ Storage.targets (storage a) →
         Storage.tg_id r = Storage.tg_id target_row →
         fetched None (Some now_iso) r ∈ Storage.targets (storage out.2).
Proof using Type.
  intros Hf now_iso out.
  split; [by eapply fetch_target_error_text |].
  destruct (empty_fetch_effect config net target_row a instance (Some "")
              Hf eq_refl) as (H1 & H2 & H3 & H4).
  fold out in H1, H2, H3, H4. fold now_iso in H3.
  repeat (split; [done |]).
  intros r Hr Hid. rewrite H3. apply list_elem_of_fmap. exists r.
  split; [| done]. by rewrite (proj2 (Z.eqb_eq _ _) Hid).
Qed.
End PipelineFacts.

(** C5 at the failing input: every request raises an exception with an
    empty message. The fetch of [alice] reports no error, and her row,
    last fetched at an earlier time with last id [t9], is overwritten. *)
Lemma silent_failure_updates_fetch_state_witness :
  let out := App._fetch_target Examples.dumps_const Examples.sorter Examples.decimal
               Examples.clock Examples.utcnow Examples.isoformat
               Examples.config Examples.net_silent_failure Examples.alice
               Examples.app0 in
  (Nitter.fetch_target Examples.decimal Examples.clock Examples.net_silent_failure "user"
     "alice" (App.client Examples.app0) (App.mono_reads Examples.app0)).1.1
  = ([], Some "https://a", Some "")
  ∧ App.r_error out.1 = None
  ∧ Storage.targets (App.storage Examples.app0) = [Examples.alice]
  ∧ Storage.targets (App.storage out.2)
    = [Storage.mkTarget 1 "user" "alice" (Some 60) None
         (Some "1700000000000000")].
Proof.
  intros out.
  assert (H : (Nitter.fetch_target Examples.decimal Examples.clock Examples.net_silent_failure
                 (Storage.tg_type Examples.alice)
                 (Storage.tg_value Examples.alice)
                 (App.client Examples.app0)
                 (App.mono_reads Examples.app0)).1.1
              = ([], Some "https://a", Some "")) by (vm_compute; reflexivity).
  split; [exact H |].
  destruct (silent_failure_updates_fetch_state Examples.dumps_const
              Examples.sorter Examples.decimal Examples.clock Examples.utcnow
              Examples.isoformat Examples.config Examples.net_silent_failure
              Examples.alice Examples.app0 (Some "https://a") H)
    as (_ & H1 & H2 & _).
  split; [exact H1 |]. split; [reflexivity |].
  unfold out. rewrite H2. vm_compute. reflexivity.
Defined.

(** C10 at a concrete input: an empty, well-formed feed for [alice]. *)
Lemma empty_fetch_updates_fetch_state_witness :
  let out := App._fetch_target Examples.dumps_const Examples.sorter Examples.decimal
               Examples.clock Examples.utcnow Examples.isoformat
               Examples.config Examples.net_empty_feed Examples.alice
               Examples.app0 in
  App.r_error out.1 = None ∧ App.r_new out.1 = 0
  ∧ Storage.targets (App.storage out.2)
    = [Storage.mkTarget 1 "user" "alice" (Some 60) None
         (Some "1700000000000000")]
  ∧ App.is_due Examples.fromisoformat (1700000000000000 + 59999999)
      (Storage.mkTarget 1 "user" "alice" (Some 60) None
         (Some "1700000000000000")) = false
  ∧ App.is_due Examples.fromisoformat (1700000000000000 + 60000000)
      (Storage.mkTarget 1 "user" "alice" (Some 60) None
         (Some "1700000000000000")) = true.
Proof.
  intros out.
  assert (H : (Nitter.fetch_target Examples.decimal Examples.clock Examples.net_empty_feed
                 (Storage.tg_type Examples.alice)
                 (Storage.tg_value Examples.alice)
                 (App.client Examples.app0)
                 (App.mono_reads Examples.app0)).1.1
              = ([], Some "https://a", None)) by (vm_compute; reflexivity).
  destruct (empty_fetch_updates_fetch_state Examples.dumps_const
              Examples.sorter Examples.decimal Examples.clock Examples.utcnow
              Examples.isoformat Examples.fromisoformat Examples.config
              Examples.net_empty_feed Examples.alice Examples.app0
              (Some "https://a") H)
    as (H1 & H2 & _ & H3 & _).
  - reflexivity.
  - discriminate.
  - split; [exact H1 |]. split; [exact H2 |]. split.
    + unfold out. rewrite H3. vm_compute. reflexivity.
    + split; reflexivity.
Defined.

(** * More properties of the store *)

Section TargetFacts.
Import Storage.

Lemma find_app_targets (f : TargetRow → bool) (l k : list TargetRow) :
  List.find f (l ++ k)
  = match List.find f l with Some x => Some x | None => List.find f k end.
Proof. induction l as [| x l IH]; simpl; [done |]. by destruct (f x). Qed.

Lemma find_none_targets (f : TargetRow → bool) (l : list TargetRow) :
  (∀ x, x ∈ l → f x = false) → List.find f l = None.
Proof.
  induction l as [| x l IH]; intros H; simpl; [done |].
  rewrite H by by left. apply IH. intros y Hy. apply H. by right.
Qed.

Lemma with_targets_same (db : DB) : with_targets db (targets db) = db.
Proof. by destruct db. Qed.

Lemma with_tweets_same (db : DB) : with_tweets db (tweets db) = db.
Proof. by destruct db. Qed.

Lemma targets_ok_NoDup (db : DB) :
  targets_ok db → NoDup (map tg_id (targets db)).
Proof.
  intros [_ Hs]. induction Hs as [| a l _ IH Hall]; simpl; [constructor |].
  apply NoDup_cons. split; [| done].
  intros (x & Hx & Hin)%list_elem_of_fmap.
  rewrite Forall_forall in Hall. apply Hall in Hin. lia.
Qed.

(** [add_target] keeps the table in order. *)
Lemma add_target_ok (ty v : string) (p : Z) (db : DB) :
  targets_ok db → targets_ok (add_target ty v p db).2.
Proof.
  intros [Hlt Hs]. split; simpl.
  - apply Forall_app. split.
    + eapply Forall_impl; [exact Hlt |]. simpl. intros; lia.
    + repeat constructor. simpl. lia.
  - induction Hs as [| a l Hs IH Hall]; simpl.
    + repeat constructor.
    + apply Forall_cons in Hlt as [Ha Hlt]. constructor; [by apply IH |].
      apply Forall_app. split; [done |]. repeat constructor. simpl. lia.
Qed.

(** X1. On a targets table in order, [add_target] hands out an id that no
    row has, after which [get_target] of that id is the new row with an
    empty fetch state; every other id reads as before, the new row is the
    last of [get_targets], and the posts are not touched. *)
Theorem add_target_round_trip (ty v : string) (p : Z) (db : DB) :
  targets_ok db →
  let i := (add_target ty v p db).1 in
  let db' := (add_target ty v p db).2 in
  get_target i db = None
  ∧ get_target i db' = Some (mkTarget i ty v (Some p) None None)
  ∧ (∀ j, j ≠ i → get_target j db' = get_target j db)
  ∧ get_targets db' = get_targets db ++ [mkTarget i ty v (Some p) None None]
  ∧ tweets db' = tweets db
  ∧ targets_ok db'.
Proof.
  intros Hok i db'. pose proof (add_target_ok ty v p db Hok) as Hok'.
  destruct Hok as [Hlt Hs]. subst i db'. unfold add_target, get_target in *.
  simpl in *.
  assert (Hnone : List.find (fun r => tg_id r =? next_target_id db) (targets db)
                  = None).
  { apply find_none_targets. intros x Hx. rewrite Forall_forall in Hlt.
    apply Hlt in Hx. lia. }
  split; [done |]. split.
  { rewrite find_app_targets, Hnone. simpl. by rewrite Z.eqb_refl. }
  split.
  { intros j Hj. rewrite find_app_targets.
    destruct (List.find (fun r => tg_id r =? j) (targets db)); [done |].
    simpl. destruct (Z.eqb_spec (next_target_id db) j); [congruence | done]. }
  done.
Qed.

Lemma target_step_ok (db : DB) (op : TargetOp) :
  targets_ok db →
  targets_ok (target_step db op)
  ∧ next_target_id db ≤ next_target_id (target_step db op).
Proof.
  intros Hok. destruct op as [ty v p | i | i lid lat]; simpl.
  - split; [by apply add_target_ok | lia].
  - destruct Hok as [Hlt Hs]. split; [| lia]. split; simpl.
    + rewrite Forall_forall in Hlt. apply Forall_forall. intros x Hx.
      apply list_elem_of_In, filter_In in Hx as [Hx _].
      by apply Hlt, list_elem_of_In.
    + clear Hlt. induction Hs as [| a l Hs IH Hall]; simpl; [constructor |].
      destruct (negb (tg_id a =? i)); [| done]. constructor; [done |].
      rewrite Forall_forall in Hall. apply Forall_forall. intros x Hx.
      apply list_elem_of_In, filter_In in Hx as [Hx _].
      by apply Hall, list_elem_of_In.
  - destruct Hok as [Hlt Hs]. split; [| lia]. split; simpl.
    + apply Forall_fmap. eapply Forall_impl; [exact Hlt |].
      intros x Hx. simpl. by destruct (tg_id x =? i).
    + clear Hlt. induction Hs as [| a l Hs IH Hall]; simpl; [constructor |].
      constructor; [done |]. apply Forall_fmap.
      eapply Forall_impl; [exact Hall |]. intros x Hx. simpl.
      by destruct (tg_id a =? i), (tg_id x =? i).
Qed.

Lemma target_steps_ok (ops : list TargetOp) (db : DB) :
  targets_ok db →
  targets_ok (fold_left target_step ops db)
  ∧ next_target_id db ≤ next_target_id (fold_left target_step ops db).
Proof.
  revert db. induction ops as [| op ops IH]; intros db Hok; simpl.
  - split; [done | lia].
  - destruct (target_step_ok db op Hok) as [H1 H2].
    destruct (IH _ H1) as [H3 H4]. split; [done | lia].
Qed.

Lemma empty_db_ok : targets_ok empty_db.
Proof. split; constructor. Qed.

(** X2. Whatever targets were added, deleted and updated since the table
    was created, its rows are in ascending order of id with no id twice
    (so [get_targets] is ordered as its ORDER BY asks), and an id handed out
    by [add_target] is never handed out again, deletions in between or
    not. *)
Theorem target_ids_ascending_never_reused (ops : list TargetOp) :
  let db := fold_left target_step ops empty_db in
  StronglySorted (fun a b => tg_id a < tg_id b) (get_targets db)
  ∧ NoDup (map tg_id (get_targets db))
  ∧ ∀ ty v p later ty' v' p',
      (add_target ty v p db).1
      < (add_target ty' v' p'
           (fold_left target_step later (add_target ty v p db).2)).1.
Proof.
  intros db. destruct (target_steps_ok ops empty_db empty_db_ok) as [Hok _].
  fold db in Hok. split; [apply Hok |]. split; [by apply targets_ok_NoDup |].
  intros ty v p later ty' v' p'.
  pose proof (add_target_ok ty v p db Hok) as Hok'.
  destruct (target_steps_ok later _ Hok') as [_ Hle]. simpl in *. lia.
Qed.

(** X3. [delete_target] removes the row with the given id and no other;
    deleting again, or deleting an id that is not there, changes nothing;
    the posts of the deleted target stay. *)
Theorem delete_target_effect (i : Z) (db : DB) :
  get_target i (delete_target i db) = None
  ∧ (∀ j, j ≠ i → get_target j (delete_target i db) = get_target j db)
  ∧ delete_target i (delete_target i db) = delete_target i db
  ∧ (get_target i db = None → delete_target i db = db)
  ∧ tweets (delete_target i db) = tweets db.
Proof.
  unfold delete_target, get_target. simpl. split; [| split; [| split; [| split]]].
  - apply find_none_targets. intros x Hx. apply list_elem_of_In in Hx.
    apply filter_In in Hx as [_ Hx]. by apply negb_true_iff in Hx.
  - intros j Hj. induction (targets db) as [| x l IH]; simpl; [done |].
    destruct (tg_id x =? i) eqn:E; simpl.
    + apply Z.eqb_eq in E.
      destruct (Z.eqb_spec (tg_id x) j); [congruence | apply IH].
    + destruct (tg_id x =? j); [done | apply IH].
  - unfold with_targets. simpl. f_equal.
    rewrite filter_filter_bool. apply List.filter_ext. intros x.
    by destruct (tg_id x =? i).
  - intros Hnone.
    transitivity (with_targets db (targets db)); [| apply with_targets_same].
    f_equal. apply filter_all. intros x Hx. apply negb_true_iff.
    destruct (tg_id x =? i) eqn:E; [| done].
    apply list_elem_of_In in Hx.
    by pose proof (find_none _ _ Hnone x Hx) as H; simpl in H; rewrite E in H.
  - done.
Qed.

(** X4. [update_target_fetch_state] writes the two fetch columns of the
    row with the given id and nothing else: ids, kinds, values and
    intervals stay, every other row stays, an unknown id changes nothing,
    and the posts are not touched. *)
Theorem update_fetch_state_effect (i : Z) (lid lat : option string) (db : DB) :
  let db' := update_target_fetch_state i lid lat db in
  get_target i db'
  = (fun r => mkTarget (tg_id r) (tg_type r) (tg_value r)
                       (tg_poll_interval_seconds r) lid lat)
      <$> get_target i db
  ∧ (∀ j, j ≠ i → get_target j db' = get_target j db)
  ∧ map (fun r => (tg_id r, tg_type r, tg_value r, tg_poll_interval_seconds r))
        (targets db')
    = map (fun r => (tg_id r, tg_type r, tg_value r, tg_poll_interval_seconds r))
          (targets db)
  ∧ (get_target i db = None → db' = db)
  ∧ tweets db' = tweets db.
Proof.
  intros db'. subst db'. unfold update_target_fetch_state, get_target. simpl.
  split; [| split; [| split; [| split]]].
  - induction (targets db) as [| x l IH]; simpl; [done |].
    destruct (tg_id x =? i) eqn:E; simpl; [by rewrite E | by rewrite E, IH].
  - intros j Hj. induction (targets db) as [| x l IH]; simpl; [done |].
    destruct (tg_id x =? i) eqn:E; simpl.
    + apply Z.eqb_eq in E.
      destruct (Z.eqb_spec (tg_id x) j); [congruence | apply IH].
    + destruct (tg_id x =? j); [done | apply IH].
  - induction (targets db) as [| x l IH]; simpl; [done |].
    rewrite IH. f_equal. by destruct (tg_id x =? i).
  - intros Hnone.
    transitivity (with_targets db (targets db)); [| apply with_targets_same].
    f_equal. rewrite <- (map_id (targets db)) at 2.
    apply map_ext_in. intros x Hx.
    pose proof (find_none _ _ Hnone x Hx) as H. simpl in H. by rewrite H.
  - done.
Qed.
End TargetFacts.

Section QueryFacts.
Import Storage.
Variable datetime : string → option string.
Variable order_by : list TweetRow → list TweetRow.

Lemma like_percent_unfold (p t : list ascii) :
  like (percent :: p) t
  = like p t
    || match t with [] => false | _ :: t' => like (percent :: p) t' end.
Proof. by destruct t. Qed.

Lemma like_char (c : ascii) (p t : list ascii) :
  c ≠ percent →
  like (c :: p) t
  = match t with
    | [] => false
    | d :: t' =>
        (Ascii.eqb c underscore || Ascii.eqb (lower c) (lower d)) && like p t'
    end.
Proof.
  intros Hc. simpl. by rewrite (proj2 (Ascii.eqb_neq c percent) Hc).
Qed.

(** A [%] at the head of the pattern: the rest of the pattern matches some
    suffix of the text. *)
Lemma like_percent (p t : list ascii) :
  like (percent :: p) t = true
  ↔ ∃ pre post, t = pre ++ post ∧ like p post = true.
Proof.
  induction t as [| d t IH]; rewrite like_percent_unfold.
  - rewrite orb_false_r. split.
    + intros H. by exists [], [].
    + intros (pre & post & Ht & H). symmetry in Ht.
      apply app_eq_nil in Ht as [_ ->]. done.
  - rewrite orb_true_iff, IH. split.
    + intros [H | (pre & post & -> & H)].
      * by exists [], (d :: t).
      * by exists (d :: pre), post.
    + intros ([| x pre] & post & Ht & H).
      * left. simpl in Ht. by subst post.
      * right. injection Ht as -> ->. by exists pre, post.
Qed.

(** A pattern that begins with characters other than the wildcards: the
    text begins with the same characters, up to the case of letters. *)
Lemma like_literal (q p t : list ascii) :
  literal q →
  like (q ++ p) t = true
  ↔ ∃ mid rest, t = mid ++ rest ∧ map lower mid = map lower q
                ∧ like p rest = true.
Proof.
  intros Hq. revert t. induction Hq as [| c q [Hp Hu] _ IH]; intros t.
  - simpl app. split.
    + intros H. by exists [], t.
    + intros (mid & rest & -> & Hm & H).
      apply map_eq_nil in Hm as ->. done.
  - change ((c :: q) ++ p) with (c :: (q ++ p)). rewrite like_char by done.
    rewrite (proj2 (Ascii.eqb_neq c underscore) Hu). simpl orb.
    destruct t as [| d t].
    + split; [done |]. intros (mid & rest & Ht & Hm & _).
      destruct mid; [done | done].
    + rewrite andb_true_iff, Ascii.eqb_eq, IH. split.
      * intros (Hcd & mid & rest & -> & Hm & H).
        exists (d :: mid), rest. simpl. by rewrite Hm, Hcd.
      * intros ([| x mid] & rest & Ht & Hm & H); [done |].
        simpl in Ht, Hm. injection Ht as -> ->. injection Hm as Hx Hm.
        split; [done |]. by exists mid, rest.
Qed.

(** The pattern that [get_tweets] builds from a query without wildcards
    matches exactly the texts in which the query occurs, up to the case of
    ASCII letters. *)
Lemma like_substring (q t : list ascii) :
  literal q →
  like (percent :: q ++ [percent]) t = true ↔ occurs_nocase q t.
Proof.
  intros Hq. rewrite like_percent. unfold occurs_nocase. split.
  - intros (pre & post & -> & H).
    apply like_literal in H as (mid & rest & -> & Hm & _); [| done].
    by exists pre, mid, rest.
  - intros (pre & mid & post & -> & Hm).
    exists pre, (mid ++ post). split; [done |]. apply like_literal; [done |].
    exists mid, post. split; [done |]. split; [done |].
    apply like_percent. exists post, []. by rewrite app_nil_r.
Qed.

Lemma Sorted_take_rows (k : nat) (l : list TweetRow) :
  Sorted (desc datetime) l → Sorted (desc datetime) (take k l).
Proof.
  revert k. induction l as [| a l IH]; intros k Hs; destruct k; simpl;
    try constructor.
  - apply IH. by apply Sorted_inv in Hs as [? _].
  - apply Sorted_inv in Hs as [_ Hhd].
    destruct l, k; simpl; constructor. by apply HdRel_inv in Hhd.
Qed.

Lemma where_target (target query : option string) (r : TweetRow) :
  opt_truthy target = true → where_clause target query r = true →
  Some (tw_target r) = target.
Proof.
  unfold where_clause. intros Ht. rewrite Ht.
  destruct target as [s |]; [| done]. simpl in *. rewrite Ht.
  intros [He _]%andb_true_iff. by apply String.eqb_eq in He as ->.
Qed.

(** X5. [get_tweets] returns rows of the table, in descending order of
    [datetime(created_at)], at most [limit] of them for a limit that is not
    negative; a truthy [target] leaves only the rows of that target. A
    negative limit cuts nothing, and with that an empty or missing
    [target] and [query] give back the whole table. *)
Theorem get_tweets_selects (target query : option string) (limit : Z)
    (db : DB) :
  sorter_ok datetime order_by →
  let res := get_tweets order_by target limit query db in
  (∀ r, r ∈ res → r ∈ tweets db ∧ where_clause target query r = true)
  ∧ (opt_truthy target = true → ∀ r, r ∈ res → Some (tw_target r) = target)
  ∧ Sorted (desc datetime) res
  ∧ (0 ≤ limit → Z.of_nat (length res) ≤ limit)
  ∧ (limit < 0 →
     res ≡ₚ List.filter (where_clause target query) (tweets db))
  ∧ (limit < 0 → opt_truthy target = false → opt_truthy query = false →
     res ≡ₚ tweets db).
Proof.
  intros Hok res. subst res. unfold get_tweets.
  set (sel := List.filter (where_clause target query) (tweets db)).
  destruct (Hok sel) as [Hperm Hsorted].
  assert (Hsub : ∀ r, r ∈ sql_limit limit (order_by sel) →
                      r ∈ tweets db ∧ where_clause target query r = true).
  { intros r Hr. assert (r ∈ order_by sel) as Hin.
    { unfold sql_limit in Hr. destruct (limit <? 0); [done |].
      rewrite <- (take_drop (Z.to_nat limit) (order_by sel)).
      apply elem_of_app. by left. }
    rewrite Hperm in Hin. apply list_elem_of_In, filter_In in Hin as [H1 H2].
    by apply list_elem_of_In in H1. }
  split; [done |]. split.
  { intros Ht r Hr. by eapply where_target, Hsub. }
  split.
  { unfold sql_limit. destruct (limit <? 0); [done |].
    by apply Sorted_take_rows. }
  split.
  { intros Hl. unfold sql_limit.
    destruct (Z.ltb_spec limit 0); [lia |]. rewrite length_take. lia. }
  split.
  { intros Hl. unfold sql_limit. by destruct (Z.ltb_spec limit 0); [| lia]. }
  intros Hl Ht Hq. unfold sql_limit.
  destruct (Z.ltb_spec limit 0); [| lia]. rewrite Hperm. subst sel.
  rewrite filter_all; [done |]. intros r _. unfold where_clause.
  by rewrite Ht, Hq.
Qed.


(** [prune_old_entries] deletes nothing when the limit is negative
    (SQLite reads a negative LIMIT as no limit) or when no target has more
    rows than the limit. *)
Lemma prune_noop (n : Z) (db : DB) :
  (∀ l, order_by l ≡ₚ l) →
  n < 0 ∨ (∀ t, Z.of_nat (length (rows_of t (tweets db))) ≤ n) →
  prune_old_entries order_by n db = db.
Proof.
  intros Hperm Hn. unfold prune_old_entries.
  transitivity (with_tweets db (tweets db)); [| by destruct db]. f_equal.
  assert (Hstep : ∀ t, prune_target order_by n (tweets db) t = tweets db).
  { intros t. unfold prune_target. apply filter_all. intros r Hr.
    apply negb_true_iff.
    destruct (String.eqb (tw_target r) t) eqn:E; [| by rewrite andb_false_r].
    rewrite andb_true_r. apply negb_false_iff, mem_elem_of.
    unfold newest_ids, ids. apply list_elem_of_fmap_2.
    assert (sql_limit n (order_by (rows_of t (tweets db)))
            = order_by (rows_of t (tweets db))) as ->.
    { unfold sql_limit. destruct (Z.ltb_spec n 0); [done |].
      apply take_ge. rewrite Hperm.
      destruct Hn as [? | Hn]; [lia |]. specialize (Hn t). lia. }
    rewrite Hperm. apply rows_of_target. split; [done |].
    by apply String.eqb_eq. }
  induction (distinct_targets (tweets db)) as [| t ts IH]; simpl; [done |].
  by rewrite Hstep.
Qed.

(** After pruning with a limit that is not negative, a target has as many
    rows as it had, up to the limit. *)
Lemma prune_rows_length (n : Z) (db : DB) (t : string) :
  (∀ l, order_by l ≡ₚ l) → NoDup (ids (tweets db)) → 0 ≤ n →
  length (rows_of t (tweets (prune_old_entries order_by n db)))
  = Nat.min (Z.to_nat n) (length (rows_of t (tweets db))).
Proof.
  intros Hperm Hnd Hn. unfold prune_old_entries. simpl.
  rewrite prune_fold by apply NoDup_remove_dups.
  destruct (decide (t ∈ distinct_targets (tweets db))) as [Hin | Hout].
  2: { assert (rows_of t (tweets db) = []) as ->.
       { apply filter_none. intros r Hr. apply String.eqb_neq. intros He.
         apply Hout. unfold distinct_targets. apply elem_of_remove_dups.
         subst t. by apply list_elem_of_fmap_2. }
       simpl. lia. }
  rewrite prune_target_same. unfold newest_ids, sql_limit.
  assert ((n <? 0) = false) as -> by lia.
  set (before := rows_of t (tweets db)). set (k := Z.to_nat n).
  set (s := order_by before).
  pose proof (Hperm before) as Hp. fold s in Hp.
  assert (Hnds : NoDup (ids s)).
  { unfold ids. rewrite Hp. by apply NoDup_ids_filter. }
  assert (Hkept :
    List.filter (fun r => mem (tw_id r) (ids (take k s))) before ≡ₚ take k s).
  { etrans; [apply filter_Permutation; symmetry; exact Hp |].
    by rewrite filter_prefix_ids. }
  rewrite Hkept, length_take. by rewrite Hp.
Qed.

(** X7. On a table with distinct ids, [prune_old_entries] changes nothing
    exactly when the limit is negative (SQLite reads a negative LIMIT as no
    limit) or no target has more rows than the limit; and pruning a second
    time with the same limit changes nothing more. *)
Theorem prune_fixed_point (n : Z) (db : DB) :
  (∀ l, order_by l ≡ₚ l) → NoDup (ids (tweets db)) →
  (prune_old_entries order_by n db = db
   ↔ n < 0 ∨ (∀ t, Z.of_nat (length (rows_of t (tweets db))) ≤ n))
  ∧ prune_old_entries order_by n (prune_old_entries order_by n db)
    = prune_old_entries order_by n db.
Proof.
  intros Hperm Hnd. split.
  - split; [| by apply prune_noop].
    intros Heq. destruct (Z.lt_ge_cases n 0) as [? | Hn]; [by left | right].
    intros t. pose proof (prune_rows_length n db t Hperm Hnd Hn) as H.
    rewrite Heq in H. lia.
  - apply prune_noop; [done |].
    destruct (Z.lt_ge_cases n 0) as [? | Hn]; [by left | right].
    intros t. rewrite prune_rows_length by done. lia.
Qed.
End QueryFacts.

(** X1 at a concrete input: the first target added to a new database. *)
Lemma add_target_round_trip_witness :
  Storage.get_target 1
    (Storage.add_target "user" "bob" 60 Storage.empty_db).2
  = Some (Storage.mkTarget 1 "user" "bob" (Some 60) None None).
Proof.
  destruct (add_target_round_trip "user" "bob" 60 Storage.empty_db)
    as (_ & H & _); [split; constructor | exact H].
Defined.

(** X5 on the three posts of [user:alice] with a limit of 2. *)
Lemma get_tweets_selects_witness :
  Storage.ids
    (Storage.get_tweets Examples.sorter (Some "user:alice") 2 None
       Examples.three_posts)
  = ["t3"; "t2"]
  ∧ Z.of_nat
      (length (Storage.get_tweets Examples.sorter (Some "user:alice") 2 None
                 Examples.three_posts))
    ≤ 2.
Proof.
  split; [reflexivity |].
  destruct (get_tweets_selects Examples.datetime_id Examples.sorter
              (Some "user:alice") None 2 Examples.three_posts)
    as (_ & _ & _ & H & _).
  - exact (sort_desc_ok Examples.datetime_id).
  - apply H. lia.
Defined.


(** X7 on the three posts: a limit of 2 deletes one of them, and the
    second pruning deletes none. *)
Lemma prune_fixed_point_witness :
  Storage.prune_old_entries Examples.sorter 2
    (Storage.prune_old_entries Examples.sorter 2 Examples.three_posts)
  = Storage.prune_old_entries Examples.sorter 2 Examples.three_posts
  ∧ length (Storage.tweets
              (Storage.prune_old_entries Examples.sorter 2
                 Examples.three_posts)) = 2%nat.
Proof.
  split; [| reflexivity].
  apply (prune_fixed_point Examples.sorter 2 Examples.three_posts).
  - intros l. apply (sort_desc_ok Examples.datetime_id).
  - apply (bool_decide_unpack _). vm_compute. exact I.
Defined.

(** * More properties of the gateway pool *)

Section PoolMoreFacts.
Import Nitter.
Variable decimal : N → bool.
Variable monotonic : nat → Q.

Lemma rstrip_slash_spec (s : string) :
  (∃ k, list_ascii_of_string s
        = list_ascii_of_string (rstrip_slash s) ++ repeat "/"%char k)
  ∧ last_char (rstrip_slash s) ≠ Some "/"%char.
Proof.
  unfold last_char. induction s as [| c r [[k Hk] Hlast]]; simpl.
  - split; [by exists O | done].
  - destruct (rstrip_slash r) as [| x r'] eqn:E.
    + simpl in Hk. destruct (Ascii.eqb c "/") eqn:Ec.
      * apply Ascii.eqb_eq in Ec as ->. split; [| done].
        exists (S k). simpl. by rewrite Hk.
      * apply Ascii.eqb_neq in Ec. split; [| simpl; congruence].
        exists k. simpl. by rewrite Hk.
    + split.
      * exists k. simpl in *. by rewrite Hk.
      * simpl in *. by destruct (list_ascii_of_string r').
Qed.

Lemma map_alter_fixed {B} (g : InstanceState → B)
    (f : InstanceState → InstanceState) (i : nat) (l : list InstanceState) :
  (∀ x, g (f x) = g x) → map g (alter f i l) = map g l.
Proof.
  intros H. revert i. induction l as [| x l IH]; intros [| i]; simpl; try done.
  - by rewrite H.
  - f_equal. apply IH.
Qed.

Lemma only_tokens_base_urls (l l' : list InstanceState) :
  Forall2 only_tokens l l' → map base_url l' = map base_url l.
Proof.
  induction 1 as [| x y l l' Hxy _ IH]; simpl; [done |].
  apply only_tokens_fields in Hxy as (-> & _). by rewrite IH.
Qed.

Lemma step_base_urls (w : NitterClient * nat) (op : Op) :
  map base_url (states (step monotonic w op).1) = map base_url (states w.1).
Proof.
  destruct w as [c t]. destruct op as [j | | j rtt | j sc]; simpl.
  - destruct (states c !! j) as [s |] eqn:Hs; [| done].
    pose proof (refill_only_tokens monotonic (max_requests_per_minute c) s t)
      as [Hot _].
    destruct (_refill_tokens monotonic (max_requests_per_minute c) s t)
      as [s' t']. simpl in *.
    apply only_tokens_base_urls. by eapply only_tokens_insert.
  - unfold _acquire_instance.
    pose proof (acquire_loop_only_tokens monotonic (length (states c)) c t)
      as (H & _).
    destruct (acquire_loop monotonic (length (states c)) c t) as [[r c'] t'].
    simpl in *. by apply only_tokens_base_urls.
  - by apply map_alter_fixed.
  - by apply map_alter_fixed.
Qed.

Lemma run_base_urls (ops : list Op) (w : NitterClient * nat) :
  map base_url (states (run monotonic ops w).1) = map base_url (states w.1).
Proof.
  revert w. unfold run. induction ops as [| op ops IH]; intros w; simpl; [done |].
  by rewrite IH, step_base_urls.
Qed.

(** X8. The base URLs of the pool are the configured instances with their
    trailing slashes removed, in the configured order; none ends in a
    slash, and no acquisition, refill or release ever changes them or the
    number of states. *)
Theorem instance_urls_fixed (instances : list string) (ua : string)
    (max_rpm base : Z) (t0 : nat) (c : NitterClient) (t : nat)
    (ops : list Op) :
  init monotonic instances ua max_rpm base t0 = Some (c, t) →
  let c' := (run monotonic ops (c, t)).1 in
  map base_url (states c') = map rstrip_slash instances
  ∧ Forall (fun s => last_char (base_url s) ≠ Some "/"%char) (states c')
  ∧ length (states c') = length instances
  ∧ instances ≠ [].
Proof.
  intros Hinit c'.
  assert (Hne : instances ≠ []).
  { intros ->. discriminate. }
  apply init_spec in Hinit as (_ & _ & _ & Hst).
  assert (Hurls : map base_url (states c') = map rstrip_slash instances).
  { subst c'. rewrite run_base_urls. simpl. rewrite Hst.
    apply init_states_spec. }
  split; [done |]. split; [| split; [| done]].
  - apply Forall_forall. intros s Hs.
    assert (base_url s ∈ map base_url (states c')) as Hin
      by by apply list_elem_of_fmap_2.
    rewrite Hurls in Hin. apply list_elem_of_fmap in Hin as (x & -> & _).
    apply rstrip_slash_spec.
  - apply (f_equal length) in Hurls. by rewrite !length_map in Hurls.
Qed.

Lemma acquire_loop_cursor (n : nat) (c : NitterClient) (t : nat) :
  cursor_ok c →
  cursor_ok (acquire_loop monotonic n c t).1.2
  ∧ length (states (acquire_loop monotonic n c t).1.2) = length (states c).
Proof.
  revert c t. induction n as [| n IH]; intros c t Hok; [done |].
  destruct (states c !! rotation_index c) as [s |] eqn:Hs.
  2: { simpl. by rewrite Hs. }
  rewrite (acquire_loop_step monotonic n c t s Hs).
  set (s1 := (_refill_tokens monotonic (max_requests_per_minute c) s t).1).
  set (c2 := with_states
               (with_rotation c
                  ((rotation_index c + 1) mod length (states c))%nat)
               (<[rotation_index c := s1]> (states c))).
  assert (Hlen : length (states c2) = length (states c))
    by (simpl; apply length_insert).
  assert (Hok2 : cursor_ok c2).
  { unfold cursor_ok in *. rewrite Hlen. simpl.
    apply Nat.mod_upper_bound. lia. }
  destruct (Qltb (monotonic (S t)) (backoff_until s1)).
  { destruct (IH c2 (S (S t)) Hok2) as [H1 H2]. split; [done | congruence]. }
  destruct (Qltb (tokens s1) 1).
  { destruct (IH c2 (S (S t)) Hok2) as [H1 H2]. split; [done | congruence]. }
  simpl. unfold cursor_ok. simpl. rewrite !length_insert. split; [| done].
  apply Nat.mod_upper_bound. unfold cursor_ok in Hok. lia.
Qed.

Lemma step_cursor (w : NitterClient * nat) (op : Op) :
  cursor_ok w.1 →
  cursor_ok (step monotonic w op).1
  ∧ length (states (step monotonic w op).1) = length (states w.1).
Proof.
  destruct w as [c t]. intros Hok. simpl in Hok.
  destruct op as [j | | j rtt | j sc]; simpl.
  - destruct (states c !! j) as [s |]; [| done].
    destruct (_refill_tokens monotonic (max_requests_per_minute c) s t)
      as [s' t']. unfold cursor_ok. simpl. by rewrite length_insert.
  - unfold _acquire_instance.
    pose proof (acquire_loop_cursor (length (states c)) c t Hok) as H.
    by destruct (acquire_loop monotonic (length (states c)) c t) as [[r c'] t'].
  - unfold cursor_ok. simpl. by rewrite length_alter.
  - unfold cursor_ok. simpl. by rewrite length_alter.
Qed.

(** X9. After construction and any sequence of operations the rotation
    cursor points at one of the states, whose number stays what it was: the
    state that [_acquire_instance] reads at the cursor always exists. *)
Theorem cursor_stays_in_range (instances : list string) (ua : string)
    (max_rpm base : Z) (t0 : nat) (c : NitterClient) (t : nat)
    (ops : list Op) :
  init monotonic instances ua max_rpm base t0 = Some (c, t) →
  let c' := (run monotonic ops (c, t)).1 in
  (rotation_index c' < length (states c'))%nat
  ∧ length (states c') = length (states c)
  ∧ is_Some (states c' !! rotation_index c').
Proof.
  intros Hinit c'.
  assert (H0 : cursor_ok c).
  { assert (instances ≠ []) as Hne by (intros ->; discriminate).
    apply init_spec in Hinit as (_ & _ & Hrot & Hst).
    unfold cursor_ok. rewrite Hrot, Hst.
    destruct (init_states_spec monotonic instances max_rpm t0) as [_ Hmap].
    apply (f_equal length) in Hmap. rewrite !length_map in Hmap.
    rewrite Hmap. destruct instances; [done | simpl; lia]. }
  assert (H : cursor_ok c' ∧ length (states c') = length (states c)).
  { subst c'. unfold run. clear Hinit.
    assert (G : ∀ w, cursor_ok w.1 →
              cursor_ok (fold_left (step monotonic) ops w).1
              ∧ length (states (fold_left (step monotonic) ops w).1)
                = length (states w.1)).
    { induction ops as [| op ops IH]; intros w Hw; simpl; [done |].
      destruct (step_cursor w op Hw) as [H1 H2].
      destruct (IH _ H1) as [H3 H4]. split; [done | congruence]. }
    by apply (G (c, t)). }
  destruct H as [H1 H2]. split; [done |]. split; [done |].
  by apply lookup_lt_is_Some.
Qed.

(** What an acquisition that finds a state did. *)
Lemma acquire_loop_hit (n : nat) (c : NitterClient) (t i : nat)
    (c' : NitterClient) (t' : nat) :
  acquire_loop monotonic n c t = (Some i, c', t') →
  ∃ s s1, states c !! i = Some s
    ∧ only_tokens s s1
    ∧ states c' !! i
      = Some (set_tokens s1 (tokens s1 - 1)%Q (last_refill s1))
    ∧ (1 <= tokens s1)%Q
    ∧ (backoff_until s1 <= monotonic (t' - 1))%Q
    ∧ (t < t')%nat ∧ (t' ≤ t + 2 * n)%nat.
Proof.
  revert c t. induction n as [| n IH]; intros c t H; [done |].
  destruct (states c !! rotation_index c) as [s |] eqn:Hs.
  2: { simpl in H. by rewrite Hs in H. }
  rewrite (acquire_loop_step monotonic n c t s Hs) in H.
  pose proof (refill_only_tokens monotonic (max_requests_per_minute c) s t)
    as [Hot _].
  set (s1 := (_refill_tokens monotonic (max_requests_per_minute c) s t).1) in *.
  set (c2 := with_states
               (with_rotation c
                  ((rotation_index c + 1) mod length (states c))%nat)
               (<[rotation_index c := s1]> (states c))) in *.
  assert (Hskip : acquire_loop monotonic n c2 (S (S t)) = (Some i, c', t') →
            ∃ s0 s2, states c !! i = Some s0 ∧ only_tokens s0 s2
              ∧ states c' !! i
                = Some (set_tokens s2 (tokens s2 - 1)%Q (last_refill s2))
              ∧ (1 <= tokens s2)%Q
              ∧ (backoff_until s2 <= monotonic (t' - 1))%Q
              ∧ (t < t')%nat ∧ (t' ≤ t + 2 * S n)%nat).
  { intros H2. apply IH in H2 as (s0 & s2 & G1 & G2 & G3 & G4 & G5 & G6 & G7).
    simpl in G1. destruct (decide (rotation_index c = i)) as [<- | Hne].
    - rewrite list_lookup_insert_eq in G1 by by eapply lookup_lt_Some.
      injection G1 as <-. exists s, s2.
      split; [done |]. split; [by eapply only_tokens_trans |].
      repeat (split; [done |]). split; lia.
    - rewrite list_lookup_insert_ne in G1 by done. exists s0, s2.
      repeat (split; [done |]). split; lia. }
  destruct (Qltb (monotonic (S t)) (backoff_until s1)) eqn:E1; [by apply Hskip |].
  destruct (Qltb (tokens s1) 1) eqn:E2; [by apply Hskip |].
  injection H as <- <- <-. exists s, s1.
  apply Qltb_false in E1, E2. split; [done |]. split; [done |]. split.
  { simpl. rewrite list_insert_insert_eq.
    apply list_lookup_insert_eq. by eapply lookup_lt_Some. }
  split; [done |]. split; [by simpl |]. split; lia.
Qed.

(** X11. [_refill_tokens] never takes tokens away and never sets the
    refill time back: for a capacity that is not negative and a balance
    within it, the balance and the refill time after a refill are at least
    what they were, the balance stays within the capacity, and a clock that
    has not advanced past the last refill changes nothing. *)
Theorem refill_never_decreases (m : Z) (s : InstanceState) (t : nat) :
  0 ≤ m → (tokens s <= inject_Z m)%Q →
  let s' := (_refill_tokens monotonic m s t).1 in
  (tokens s <= tokens s')%Q
  ∧ (tokens s' <= inject_Z m)%Q
  ∧ (last_refill s <= last_refill s')%Q
  ∧ ((monotonic t <= last_refill s)%Q → s' = s).
Proof.
  intros Hm Hle s'. subst s'. unfold _refill_tokens.
  pose proof (inject_Z_nonneg m Hm) as Hmq.
  set (e := (monotonic t - last_refill s)%Q).
  set (a := (inject_Z m / 60 * e)%Q).
  assert (a == inject_Z m * (1 # 60) * e)%Q as Hadd by (unfold a; field).
  destruct (Qltb 0 a) eqn:E; simpl.
  - apply Qltb_true in E.
    assert (0 < e)%Q as He by (rewrite Hadd in E; nra).
    unfold e in He. clear Hadd. unfold pymin.
    destruct (Qltb (tokens s + a)%Q (inject_Z m)) eqn:E2; simpl.
    + apply Qltb_true in E2.
      split; [lra |]. split; [lra |]. split; [lra |]. intros Hc. lra.
    + split; [done |]. split; [apply Qle_refl |].
      split; [lra |]. intros Hc. lra.
  - split; [apply Qle_refl |]. split; [done |]. split; [apply Qle_refl | done].
Qed.

Lemma penalty_bounds (base errors : Z) :
  1 ≤ base → 1 ≤ errors →
  1 ≤ penalty base errors ≤ 600
  ∧ penalty base errors ≤ penalty base (errors + 1)
  ∧ (11 ≤ errors → penalty base errors = 600).
Proof.
  intros Hb He. unfold penalty.
  assert (H2 : 1 ≤ 2 ^ (errors - 1)).
  { change 1 with (2 ^ 0) at 1. apply Z.pow_le_mono_r; lia. }
  assert (Hstep : 2 ^ (errors + 1 - 1) = 2 * 2 ^ (errors - 1)).
  { replace (errors + 1 - 1) with (Z.succ (errors - 1)) by lia.
    apply Z.pow_succ_r. lia. }
  split; [| split].
  - split; [apply Z.min_glb; nia | apply Z.le_min_l].
  - rewrite Hstep. apply Z.min_le_compat_l. nia.
  - intros H11. apply Z.min_l.
    assert (2 ^ 10 ≤ 2 ^ (errors - 1)) by (apply Z.pow_le_mono_r; lia).
    change (2 ^ 10) with 1024 in *. nia.
Qed.

(** X12. Whatever [backoff_base_seconds] is configured, also zero or a
    negative number, the client works with at least 1: at every point of
    any run the base is [max(1, configured)], so each release on failure
    backs the instance off by between 1 and 600 seconds, by no less than
    the failure before it, and by 600 seconds from the eleventh failure in
    a row on. *)
Theorem backoff_penalty_bounds (instances : list string) (ua : string)
    (max_rpm cfg_base : Z) (t0 : nat) (c : NitterClient) (t : nat)
    (ops : list Op) (errors : Z) :
  init monotonic instances ua max_rpm cfg_base t0 = Some (c, t) →
  1 ≤ errors →
  let base := backoff_base_seconds (run monotonic ops (c, t)).1 in
  base = Z.max 1 cfg_base
  ∧ 1 ≤ penalty base errors ≤ 600
  ∧ penalty base errors ≤ penalty base (errors + 1)
  ∧ (11 ≤ errors → penalty base errors = 600).
Proof.
  intros Hinit He base.
  assert (Hb : base = Z.max 1 cfg_base).
  { subst base. rewrite run_base. simpl.
    by apply init_spec in Hinit as (_ & -> & _). }
  split; [done |]. apply penalty_bounds; lia.
Qed.

Lemma mod_shift_ne (rot j len : nat) :
  (rot < len)%nat → (0 < j)%nat → (j < len)%nat →
  ((rot + j) mod len)%nat ≠ rot.
Proof.
  intros Hr Hj Hl. destruct (decide (rot + j < len)%nat) as [Hs | Hs].
  - rewrite Nat.mod_small by done. lia.
  - replace (rot + j)%nat with ((rot + j - len) + 1 * len)%nat by lia.
    rewrite Nat.Div0.mod_add, Nat.mod_small by lia. lia.
Qed.

(** A loop of [_acquire_instance] that finds no state: it went through
    [n] states in rotation order, and each of them failed a test. *)
Lemma acquire_loop_none (n : nat) (c : NitterClient) (t : nat)
    (c' : NitterClient) (t' : nat) :
  cursor_ok c → (n ≤ length (states c))%nat →
  acquire_loop monotonic n c t = (None, c', t') →
  let len := length (states c) in
  let rot := rotation_index c in
  t' = (t + 2 * n)%nat
  ∧ rotation_index c' = ((rot + n) mod len)%nat
  ∧ (∀ j, (∀ k, (k < n)%nat → j ≠ ((rot + k) mod len)%nat) →
          states c' !! j = states c !! j)
  ∧ ∀ k s, (k < n)%nat → states c !! ((rot + k) mod len)%nat = Some s →
      let s1 := (_refill_tokens monotonic (max_requests_per_minute c) s
                   (t + 2 * k)).1 in
      blocked (monotonic (t + 2 * k + 1)) s1
      ∧ states c' !! ((rot + k) mod len)%nat = Some s1.
Proof.
  revert c t. induction n as [| n IH]; intros c t Hok Hn H len rot.
  { simpl in H. injection H as <- <-. split; [lia |]. split.
    - rewrite Nat.add_0_r. symmetry. by apply Nat.mod_small.
    - split; [done | intros; lia]. }
  unfold cursor_ok in Hok. fold len rot in Hok, Hn.
  destruct (states c !! rot) as [s0 |] eqn:Hs0.
  2: { apply lookup_ge_None in Hs0. fold len in Hs0. lia. }
  rewrite (acquire_loop_step monotonic n c t s0 Hs0) in H. fold len rot in H.
  set (s1 := (_refill_tokens monotonic (max_requests_per_minute c) s0 t).1) in *.
  set (c2 := with_states (with_rotation c ((rot + 1) mod len)%nat)
               (<[rot := s1]> (states c))) in *.
  assert (Hlen2 : length (states c2) = len) by (simpl; apply length_insert).
  assert (Hok2 : cursor_ok c2).
  { unfold cursor_ok. rewrite Hlen2. simpl. apply Nat.mod_upper_bound. lia. }
  assert (Hb : blocked (monotonic (S t)) s1
               ∧ acquire_loop monotonic n c2 (S (S t)) = (None, c', t')).
  { destruct (Qltb (monotonic (S t)) (backoff_until s1)) eqn:E1.
    - apply Qltb_true in E1. split; [by left | done].
    - destruct (Qltb (tokens s1) 1) eqn:E2; [| done].
      apply Qltb_true in E2. split; [by right | done]. }
  destruct Hb as [Hb H2]. clear H.
  apply IH in H2; [| done | rewrite Hlen2; lia].
  rewrite Hlen2 in H2.
  change (rotation_index c2) with ((rot + 1) mod len)%nat in H2.
  change (max_requests_per_minute c2) with (max_requests_per_minute c) in H2.
  destruct H2 as (Ht & Hrot & Hfar & Hnear).
  assert (Hidx : ∀ k, (((rot + 1) mod len + k) mod len
                       = (rot + S k) mod len)%nat).
  { intros k. rewrite Nat.Div0.add_mod_idemp_l. f_equal. lia. }
  assert (Hrot0 : ((rot + 0) mod len)%nat = rot).
  { rewrite Nat.add_0_r. by apply Nat.mod_small. }
  assert (Hfar' : ∀ j, (∀ k, (k < S n)%nat → j ≠ ((rot + k) mod len)%nat) →
                       states c' !! j = states c !! j).
  { intros j Hj. rewrite Hfar.
    - simpl. apply list_lookup_insert_ne. specialize (Hj O).
      rewrite Hrot0 in Hj. intros ->. apply Hj; [lia | done].
    - intros k Hk. rewrite Hidx. apply Hj. lia. }
  split; [lia |]. split; [by rewrite Hrot, Hidx |]. split; [done |].
  intros [| k] s Hk Hs.
  - rewrite Hrot0 in *. rewrite Hs0 in Hs. injection Hs as <-.
    rewrite Nat.mul_0_r, !Nat.add_0_r. replace (t + 1)%nat with (S t) by lia.
    split; [done |]. rewrite Hfar.
    + simpl. apply list_lookup_insert_eq. fold len. lia.
    + intros k' Hk'. rewrite Hidx. intros Heq. symmetry in Heq.
      revert Heq. apply mod_shift_ne; lia.
  - rewrite <- (Hidx k) in Hs |- *.
    replace (t + 2 * S k)%nat with (S (S t) + 2 * k)%nat by lia.
    apply Hnear; [lia |]. simpl.
    rewrite list_lookup_insert_ne; [done |].
    rewrite Hidx. intros Heq. symmetry in Heq. revert Heq.
    apply mod_shift_ne; lia.
Qed.

(** A loop of [_acquire_instance] that finds a state: it is the first
    state in rotation order that passes both tests after its refill, the
    states before it having been refilled, tested and found wanting. *)
Lemma acquire_loop_first (n : nat) (c : NitterClient) (t i : nat)
    (c' : NitterClient) (t' : nat) :
  cursor_ok c → (n ≤ length (states c))%nat →
  acquire_loop monotonic n c t = (Some i, c', t') →
  let len := length (states c) in
  let rot := rotation_index c in
  let m := max_requests_per_minute c in
  ∃ k s, (k < n)%nat ∧ i = ((rot + k) mod len)%nat
    ∧ t' = (t + 2 * k + 2)%nat
    ∧ states c !! i = Some s
    ∧ (∀ tk, tk = (t + 2 * k)%nat →
         let s1 := (_refill_tokens monotonic m s tk).1 in
         (backoff_until s1 <= monotonic (S tk))%Q
         ∧ (1 <= tokens s1)%Q
         ∧ states c' !! i
           = Some (set_tokens s1 (tokens s1 - 1)%Q (last_refill s1)))
    ∧ rotation_index c' = ((rot + k + 1) mod len)%nat
    ∧ ∀ j s0 tj, (j < k)%nat → tj = (t + 2 * j)%nat →
        states c !! ((rot + j) mod len)%nat = Some s0 →
        blocked (monotonic (S tj)) (_refill_tokens monotonic m s0 tj).1.
Proof.
  revert c t. induction n as [| n IH]; intros c t Hok Hn H len rot m; [done |].
  unfold cursor_ok in Hok. fold len rot in Hok, Hn.
  destruct (states c !! rot) as [s0 |] eqn:Hs0.
  2: { apply lookup_ge_None in Hs0. fold len in Hs0. lia. }
  rewrite (acquire_loop_step monotonic n c t s0 Hs0) in H. fold len rot m in H.
  set (s1 := (_refill_tokens monotonic m s0 t).1) in *.
  set (c2 := with_states (with_rotation c ((rot + 1) mod len)%nat)
               (<[rot := s1]> (states c))) in *.
  assert (Hlen2 : length (states c2) = len) by (simpl; apply length_insert).
  assert (Hok2 : cursor_ok c2).
  { unfold cursor_ok. rewrite Hlen2. simpl. apply Nat.mod_upper_bound. lia. }
  assert (Hidx : ∀ k, (((rot + 1) mod len + k) mod len
                       = (rot + S k) mod len)%nat).
  { intros k. rewrite Nat.Div0.add_mod_idemp_l. f_equal. lia. }
  assert (Hrot0 : ((rot + 0) mod len)%nat = rot).
  { rewrite Nat.add_0_r. by apply Nat.mod_small. }
  assert (Hskip : blocked (monotonic (S t)) s1 →
            acquire_loop monotonic n c2 (S (S t)) = (Some i, c', t') →
            ∃ k s, (k < S n)%nat ∧ i = ((rot + k) mod len)%nat
              ∧ t' = (t + 2 * k + 2)%nat
              ∧ states c !! i = Some s
              ∧ (∀ tk, tk = (t + 2 * k)%nat →
                   let s2 := (_refill_tokens monotonic m s tk).1 in
                   (backoff_until s2 <= monotonic (S tk))%Q
                   ∧ (1 <= tokens s2)%Q
                   ∧ states c' !! i
                     = Some (set_tokens s2 (tokens s2 - 1)%Q (last_refill s2)))
              ∧ rotation_index c' = ((rot + k + 1) mod len)%nat
              ∧ ∀ j s3 tj, (j < k)%nat → tj = (t + 2 * j)%nat →
                  states c !! ((rot + j) mod len)%nat = Some s3 →
                  blocked (monotonic (S tj)) (_refill_tokens monotonic m s3 tj).1).
  { intros Hb H2. apply IH in H2; [| done | rewrite Hlen2; lia].
    rewrite Hlen2 in H2.
    change (rotation_index c2) with ((rot + 1) mod len)%nat in H2.
    change (max_requests_per_minute c2) with m in H2.
    destruct H2 as (k & s & Hk & Hi & Ht & Hs & Hhit & Hrot & Hearly).
    rewrite Hidx in Hi.
    assert (Hne : i ≠ rot) by (subst i; apply mod_shift_ne; lia).
    exists (S k), s. split; [lia |]. split; [done |]. split; [lia |].
    split.
    { simpl in Hs. by rewrite list_lookup_insert_ne in Hs. }
    split.
    { intros tk ->. apply Hhit. lia. }
    split.
    { rewrite Hrot.
      replace ((rot + 1) mod len + k + 1)%nat
        with ((rot + 1) mod len + S k)%nat by lia.
      rewrite Hidx. f_equal. lia. }
    intros [| j] s3 tj Hj -> Hs3.
    - rewrite Hrot0 in Hs3. rewrite Hs0 in Hs3. injection Hs3 as <-.
      by rewrite Nat.mul_0_r, Nat.add_0_r.
    - apply (Hearly j s3); [lia | lia |]. rewrite Hidx. simpl.
      rewrite list_lookup_insert_ne; [done |].
      intros Heq. symmetry in Heq. revert Heq. apply mod_shift_ne; lia. }
  destruct (Qltb (monotonic (S t)) (backoff_until s1)) eqn:E1.
  { apply Hskip; [| done]. left. by apply Qltb_true. }
  destruct (Qltb (tokens s1) 1) eqn:E2.
  { apply Hskip; [| done]. right. by apply Qltb_true. }
  injection H as <- <- <-. apply Qltb_false in E1, E2.
  exists O, s0. split; [lia |]. split; [by rewrite Hrot0 |].
  split; [lia |]. split; [done |]. split.
  { intros tk ->. rewrite Nat.mul_0_r, Nat.add_0_r. fold s1.
    split; [done |]. split; [done |]. simpl.
    rewrite list_insert_insert_eq. apply list_lookup_insert_eq.
    fold len. lia. }
  split; [simpl; f_equal; lia |]. intros j s3 tj Hj. lia.
Qed.

(** X10. When [_acquire_instance] returns a state, that state is the first
    in rotation order from the cursor that passes both tests after its
    refill: it then held at least one token and its backoff had run out at
    the clock reading of the test, and every state before it was in backoff
    or held less than one token at its own test. Exactly one token was
    taken from the refilled balance, which stays at or above zero; the
    state's URL, error count and backoff are as before. Two clock readings
    were made per state visited, and the cursor points behind the state
    returned. *)
Theorem acquire_sound (c : NitterClient) (t i : nat) (c' : NitterClient)
    (t' : nat) :
  _acquire_instance monotonic c t = (Some i, c', t') →
  let len := length (states c) in
  let rot := rotation_index c in
  let m := max_requests_per_minute c in
  ∃ s s', states c !! i = Some s ∧ states c' !! i = Some s'
    ∧ (let s1 := (_refill_tokens monotonic m s (t' - 2)).1 in
       (1 <= tokens s1)%Q
       ∧ (backoff_until s1 <= monotonic (t' - 1))%Q
       ∧ s' = set_tokens s1 (tokens s1 - 1)%Q (last_refill s1)
       ∧ (tokens s' == tokens s1 - 1)%Q)
    ∧ (0 <= tokens s')%Q
    ∧ (backoff_until s' <= monotonic (t' - 1))%Q
    ∧ base_url s' = base_url s
    ∧ backoff_until s' = backoff_until s
    ∧ consecutive_errors s' = consecutive_errors s
    ∧ (t < t')%nat ∧ (t' ≤ t + 2 * len)%nat
    ∧ ∃ k, (k < len)%nat ∧ i = ((rot + k) mod len)%nat
        ∧ t' = (t + 2 * k + 2)%nat
        ∧ rotation_index c' = ((i + 1) mod len)%nat
        ∧ ∀ j s0, (j < k)%nat →
            states c !! ((rot + j) mod len)%nat = Some s0 →
            blocked (monotonic (t + 2 * j + 1))
                    (_refill_tokens monotonic m s0 (t + 2 * j)).1.
Proof.
  intros H.
  assert (Hok : cursor_ok c).
  { unfold cursor_ok.
    destruct (decide (rotation_index c < length (states c))%nat)
      as [? | Hge]; [done |].
    exfalso. unfold _acquire_instance in H.
    destruct (length (states c)) as [| n] eqn:El; [done |].
    simpl in H.
    rewrite (proj2 (lookup_ge_None (states c) (rotation_index c))) in H
      by lia.
    done. }
  intros len rot m.
  unfold _acquire_instance in H.
  apply acquire_loop_first in H; [| done | done].
  fold len rot m in H.
  destruct H as (k & s & Hk & Hi & Ht & Hs & Hhit & Hrot & Hearly).
  specialize (Hhit (t + 2 * k)%nat eq_refl).
  replace (t' - 2)%nat with (t + 2 * k)%nat by lia.
  replace (t' - 1)%nat with (S (t + 2 * k)) by lia.
  set (s1 := (_refill_tokens monotonic m s (t + 2 * k)).1) in *.
  cbv zeta in Hhit. destruct Hhit as (Hb & Htok & Hs').
  pose proof (refill_only_tokens monotonic m s (t + 2 * k)%nat) as [Hot _].
  fold s1 in Hot.
  apply only_tokens_fields in Hot as (Hu & Hbk & He & _).
  exists s, (set_tokens s1 (tokens s1 - 1)%Q (last_refill s1)).
  split; [done |]. split; [done |]. split.
  { split; [done |]. split; [done |]. split; [done |]. simpl. apply Qeq_refl. }
  cbn [set_tokens tokens backoff_until base_url consecutive_errors].
  split; [lra |]. split; [done |]. split; [done |]. split; [done |].
  split; [done |]. split; [lia |]. split; [lia |].
  exists k. split; [done |]. split; [done |]. split; [done |]. split.
  { rewrite Hrot, Hi. rewrite Nat.Div0.add_mod_idemp_l. done. }
  intros j s0 Hj Hs0.
  replace (t + 2 * j + 1)%nat with (S (t + 2 * j)) by lia.
  by apply (Hearly j s0 (t + 2 * j)%nat).
Qed.

(** X13. When [_acquire_instance] returns [None] it has gone once round
    the whole pool: every state was refilled and tested, in rotation order
    from the cursor, and each was in backoff or held less than one token at
    the clock reading of its test; no token was taken, two clock readings
    were made per state, and the cursor is back where it started. *)
Theorem acquire_none_all_blocked (c : NitterClient) (t : nat)
    (c' : NitterClient) (t' : nat) :
  cursor_ok c →
  _acquire_instance monotonic c t = (None, c', t') →
  let len := length (states c) in
  let rot := rotation_index c in
  t' = (t + 2 * len)%nat
  ∧ rotation_index c' = rot
  ∧ ∀ k s, (k < len)%nat → states c !! ((rot + k) mod len)%nat = Some s →
      let s1 := (_refill_tokens monotonic (max_requests_per_minute c) s
                   (t + 2 * k)).1 in
      blocked (monotonic (t + 2 * k + 1)) s1
      ∧ states c' !! ((rot + k) mod len)%nat = Some s1.
Proof.
  intros Hok H len rot.
  apply acquire_loop_none in H as (H1 & H2 & _ & H4); [| done | done].
  fold len rot in H1, H2, H4. split; [done |]. split; [| done].
  rewrite H2. unfold cursor_ok in Hok. fold len rot in Hok.
  replace (rot + len)%nat with (rot + 1 * len)%nat by lia.
  rewrite Nat.Div0.mod_add. by apply Nat.mod_small.
Qed.

(** The clock readings of the loop of [_acquire_instance]. *)
Lemma acquire_loop_clock (n : nat) (c : NitterClient) (t : nat) :
  (t ≤ (acquire_loop monotonic n c t).2 ≤ t + 2 * n)%nat.
Proof.
  revert c t. induction n as [| n IH]; intros c t; [simpl; lia |].
  destruct (states c !! rotation_index c) as [s |] eqn:Hs.
  2: { simpl. rewrite Hs. simpl. lia. }
  rewrite (acquire_loop_step monotonic n c t s Hs).
  set (c2 := with_states _ _).
  pose proof (IH c2 (S (S t))) as H.
  destruct (Qltb _ _); [lia |]. destruct (Qltb _ _); [lia |]. simpl. lia.
Qed.

(** [fetch_target] acts on the pool as an acquisition, followed by a
    release when a state was acquired. *)
Lemma fetch_target_as_steps (net : string → HttpOutcome)
    (target_type value : string) (c : NitterClient) (t : nat) :
  let w1 := step monotonic (c, t) OpAcquire in
  let out := fetch_target decimal monotonic net target_type value c t in
  (out.1.2, out.2) = w1
  ∨ ∃ op, (out.1.2, out.2) = step monotonic (w1.1, S (S w1.2)) op
          ∧ match op with
            | OpSuccess _ _ | OpFailure _ _ => True
            | _ => False
            end.
Proof.
  simpl. unfold fetch_target.
  destruct (_acquire_instance monotonic c t) as [[[i |] c1] t1]; simpl;
    [| by left].
  right. unfold _fetch. destruct (net _) as [r | exc]; simpl.
  - destruct (400 <=? status_code r); simpl.
    + by exists (OpFailure i (Some (status_code r))).
    + by eexists (OpSuccess i _).
  - by exists (OpFailure i None).
Qed.

(** X14. [fetch_target] keeps the pool in order whatever the network
    does: token balances stay between 0 and the capacity and backoff times
    stay non-negative, the cursor stays in range, the base URLs stay as
    they are, and the call makes at most two clock readings per state
    and three more. *)
Theorem fetch_target_keeps_pool (m base : Z) (net : string → HttpOutcome)
    (target_type value : string) (c : NitterClient) (t : nat) :
  0 ≤ base → (∀ n, (0 <= monotonic n)%Q) → pool_ok m base c → cursor_ok c →
  let out := fetch_target decimal monotonic net target_type value c t in
  pool_ok m base out.1.2 ∧ cursor_ok out.1.2
  ∧ map base_url (states out.1.2) = map base_url (states c)
  ∧ length (states out.1.2) = length (states c)
  ∧ (t ≤ out.2 ≤ t + 2 * length (states c) + 3)%nat.
Proof.
  intros Hbase Hclock Hok Hcur out.
  pose proof (step_ok monotonic m base (c, t) OpAcquire Hbase Hclock Hok) as H1.
  pose proof (step_cursor (c, t) OpAcquire Hcur) as [H2 H2'].
  pose proof (step_base_urls (c, t) OpAcquire) as H3.
  assert (H4 : (t ≤ (step monotonic (c, t) OpAcquire).2
                ≤ t + 2 * length (states c))%nat).
  { simpl. unfold _acquire_instance.
    pose proof (acquire_loop_clock (length (states c)) c t) as H.
    by destruct (acquire_loop monotonic (length (states c)) c t) as [[r c'] t']. }
  destruct (fetch_target_as_steps net target_type value c t)
    as [E | (op & E & Hop)]; fold out in E.
  - rewrite <- E in H1, H2, H2', H3, H4. simpl in *.
    repeat (split; [done |]). lia.
  - set (w := ((step monotonic (c, t) OpAcquire).1,
               S (S (step monotonic (c, t) OpAcquire).2))) in *.
    pose proof (step_ok monotonic m base w op Hbase Hclock H1) as G1.
    pose proof (step_cursor w op H2) as [G2 G2'].
    pose proof (step_base_urls w op) as G3.
    assert (G4 : (w.2 ≤ (step monotonic w op).2 ≤ S w.2)%nat).
    { destruct op as [j | | j rtt | j sc]; simpl; try done; lia. }
    rewrite <- E in G1, G2, G2', G3, G4. simpl in *.
    split; [done |]. split; [done |]. split; [congruence |].
    split; [congruence |]. lia.
Qed.

(** X15. What [fetch_target] returns. An error comes with no entries.
    No instance is named exactly when none could be acquired; the error is
    then the rate-limit text and the network is not used. Otherwise the
    instance is the base URL of a state of the pool, and that state was
    released: after a return without error (a response with a status below
    400, whose parsed entries are returned) its error count and backoff
    are zero and its last error is cleared; after an error its error count
    went up by one, its backoff ends the penalty for that count after the
    last clock reading, and an error text is recorded. *)
Theorem fetch_target_result (net : string → HttpOutcome)
    (target_type value : string) (c : NitterClient) (t : nat) :
  let out := fetch_target decimal monotonic net target_type value c t in
  let entries := out.1.1.1.1 in
  let instance := out.1.1.1.2 in
  let error := out.1.1.2 in
  (is_Some error → entries = [])
  ∧ (instance = None →
     error = Some "Keine verfügbare Instanz (Rate-Limit oder Backoff)."
     ∧ ∀ net', fetch_target decimal monotonic net' target_type value c t = out)
  ∧ (error = None →
     ∃ url r, net url = Returned r ∧ status_code r < 400
       ∧ entries = parse_response decimal r)
  ∧ ∀ u, instance = Some u →
      ∃ i s s', states c !! i = Some s ∧ states out.1.2 !! i = Some s'
        ∧ base_url s = u ∧ base_url s' = u
        ∧ match error with
          | None =>
              consecutive_errors s' = 0 ∧ backoff_until s' = 0%Q
              ∧ last_error s' = None ∧ is_Some (last_rtt s')
          | Some _ =>
              consecutive_errors s' = consecutive_errors s + 1
              ∧ backoff_until s'
                = (monotonic (out.2 - 1)
                   + inject_Z (penalty (backoff_base_seconds c)
                                 (consecutive_errors s + 1)))%Q
              ∧ is_Some (last_error s')
          end.
Proof.
  intros out entries instance error. subst entries instance error out.
  unfold fetch_target.
  pose proof (acquire_loop_only_tokens monotonic (length (states c)) c t)
    as (_ & Hbase & _).
  destruct (_acquire_instance monotonic c t) as [[[i |] c1] t1] eqn:Ea.
  2: { simpl. split; [done |]. split; [done |]. split; [done | done]. }
  unfold _acquire_instance in Hbase.
  pose proof Ea as Hhit. unfold _acquire_instance in Ea. rewrite Ea in Hbase.
  simpl in Hbase.
  apply acquire_loop_hit in Ea as (s & s1 & H1 & H2 & H3 & _).
  apply only_tokens_fields in H2 as (Hu & Hb & He & _).
  rewrite H3. cbn [default].
  set (s2 := set_tokens s1 (tokens s1 - 1)%Q (last_refill s1)) in *.
  unfold _fetch. destruct (net _) as [r | exc] eqn:En; simpl.
  - destruct (400 <=? status_code r) eqn:E4; simpl.
    + split; [done |]. split; [done |]. split; [done |].
      intros u [= <-]. exists i, s, (on_error (backoff_base_seconds c1)
                                        (Some (status_code r))
                                        (monotonic (S (S t1))) s2).
      split; [done |]. split; [by rewrite list_lookup_alter_eq, H3 |].
      split; [done |]. split; [done |]. simpl.
      rewrite Hbase, He. repeat split; eauto.
    + split; [by intros [? ?] |]. split; [done |]. split.
      { intros _. eexists _, r. split; [exact En |]. split; [lia | done]. }
      intros u [= <-]. eexists i, s, (on_success _ s2).
      split; [done |]. split; [by rewrite list_lookup_alter_eq, H3 |].
      split; [done |]. split; [done |]. simpl. repeat split; eauto.
  - split; [done |]. split; [done |]. split; [done |].
    intros u [= <-]. exists i, s, (on_error (backoff_base_seconds c1) None
                                      (monotonic (S (S t1))) s2).
    split; [done |]. split; [by rewrite list_lookup_alter_eq, H3 |].
    split; [done |]. split; [done |]. simpl.
    rewrite Hbase, He. repeat split; eauto.
Qed.
End PoolMoreFacts.

(** X8 on a pool configured with a trailing slash, after an acquisition
    and a failure. *)
Lemma instance_urls_fixed_witness :
  map Nitter.base_url
    (Nitter.states
       (Nitter.run Examples.clock
          [Nitter.OpAcquire; Nitter.OpFailure 0 (Some 500)]
          (Examples.slash_start.1, Examples.slash_start.2)).1)
  = ["https://a"; "https://b"].
Proof.
  destruct (instance_urls_fixed Examples.clock ["https://a//"; "https://b"]
              "agent" 2 0 0 Examples.slash_start.1 Examples.slash_start.2
              [Nitter.OpAcquire; Nitter.OpFailure 0 (Some 500)])
    as (H & _); [reflexivity | exact H].
Defined.

(** X9 on the pool of scenario S1 after three acquisitions. *)
Lemma cursor_stays_in_range_witness :
  is_Some
    (Nitter.states (Examples.s1_acquire 3).1.2
       !! Nitter.rotation_index (Examples.s1_acquire 3).1.2).
Proof.
  destruct (cursor_stays_in_range Examples.clock ["https://a"; "https://b"]
              "agent" 2 2 0 Examples.s1_start.1 Examples.s1_start.2
              [Nitter.OpAcquire; Nitter.OpAcquire; Nitter.OpAcquire])
    as (_ & _ & H); [reflexivity | exact H].
Defined.

(** X10 on the first acquisition of scenario S1: the state at the cursor
    held two tokens after its refill and holds one afterwards. *)
Lemma acquire_sound_witness :
  ∃ s s', Nitter.states Examples.s1_start.1 !! 0%nat = Some s
    ∧ Nitter.states (Examples.s1_acquire 1).1.2 !! 0%nat = Some s'
    ∧ (let s1 := (Nitter._refill_tokens Examples.clock 2 s 2).1 in
       (1 <= Nitter.tokens s1)%Q
       ∧ (Nitter.tokens s' == Nitter.tokens s1 - 1)%Q)
    ∧ (0 <= Nitter.tokens s')%Q
    ∧ Nitter.base_url s' = Nitter.base_url s
    ∧ Nitter.rotation_index (Examples.s1_acquire 1).1.2 = 1%nat.
Proof.
  destruct (acquire_sound Examples.clock Examples.s1_start.1
              Examples.s1_start.2 0%nat (Examples.s1_acquire 1).1.2
              (Examples.s1_acquire 1).2 eq_refl)
    as (s & s' & H1 & H2 & (H3 & _ & _ & H4) & H5 & _ & H6 & _ & _ & _ & _
        & k & _ & _ & _ & H7 & _).
  exists s, s'. split; [exact H1 |]. split; [exact H2 |].
  split; [split; [exact H3 | exact H4] |]. split; [exact H5 |].
  split; [exact H6 | exact H7].
Defined.

(** X11 on a bucket of capacity 2 that holds one token, ten seconds after
    its last refill. *)
Lemma refill_never_decreases_witness :
  let s := Nitter.mkState "https://a" 1 0 0 0 None None in
  let s' := (Nitter._refill_tokens Examples.clock 2 s 100).1 in
  (Nitter.tokens s <= Nitter.tokens s')%Q
  ∧ (Nitter.tokens s' <= inject_Z 2)%Q
  ∧ (Nitter.last_refill s <= Nitter.last_refill s')%Q
  ∧ ((Examples.clock 100 <= Nitter.last_refill s)%Q → s' = s).
Proof.
  intros s.
  apply (refill_never_decreases Examples.clock 2 s 100).
  - lia.
  - unfold Qle. simpl. lia.
Defined.

(** X12 on a pool configured with a base of zero: the third failure in a
    row is backed off by four seconds. *)
Lemma backoff_penalty_bounds_witness :
  Nitter.backoff_base_seconds Examples.slash_start.1 = 1
  ∧ 1 ≤ Nitter.penalty (Nitter.backoff_base_seconds Examples.slash_start.1) 3
    ≤ 600.
Proof.
  destruct (backoff_penalty_bounds Examples.clock ["https://a//"; "https://b"]
              "agent" 2 0 0 Examples.slash_start.1 Examples.slash_start.2
              [] 3)
    as (H1 & H2 & _); [reflexivity | lia |].
  split; [exact H1 | exact H2].
Defined.

(** X13 on scenario S1: after four acquisitions in a row the fifth finds
    both instances without a token. *)
Lemma acquire_none_all_blocked_witness :
  (Examples.s1_acquire 5).1.1 = None
  ∧ (Examples.s1_acquire 5).2 = ((Examples.s1_acquire 4).2 + 2 * 2)%nat
  ∧ Nitter.rotation_index (Examples.s1_acquire 5).1.2
    = Nitter.rotation_index (Examples.s1_acquire 4).1.2.
Proof.
  split; [reflexivity |].
  destruct (acquire_none_all_blocked Examples.clock
              (Examples.s1_acquire 4).1.2 (Examples.s1_acquire 4).2
              (Examples.s1_acquire 5).1.2 (Examples.s1_acquire 5).2)
    as (H1 & H2 & _).
  - unfold Nitter.cursor_ok. vm_compute. lia.
  - reflexivity.
  - split; [exact H1 | exact H2].
Defined.

(** X14 on the pool of scenario S1 and a network that answers with an
    empty feed. *)
Lemma fetch_target_keeps_pool_witness :
  let out := Nitter.fetch_target Examples.decimal Examples.clock Examples.net_empty_feed
               "user" "alice" Examples.s1_start.1 Examples.s1_start.2 in
  Nitter.pool_ok 2 2 out.1.2
  ∧ map Nitter.base_url (Nitter.states out.1.2) = ["https://a"; "https://b"].
Proof.
  intros out.
  destruct (fetch_target_keeps_pool Examples.decimal Examples.clock 2 2
              Examples.net_empty_feed "user" "alice"
              Examples.s1_start.1 Examples.s1_start.2)
    as (H1 & _ & H3 & _).
  - lia.
  - apply clock_nonneg.
  - split; [reflexivity |]. split; [reflexivity |].
    repeat (constructor; [repeat split; unfold Qle; simpl; lia |]).
    constructor.
  - unfold Nitter.cursor_ok. simpl. lia.
  - split; [exact H1 | exact H3].
Defined.

(** * More properties of the two parsers *)

Section ParserFacts.
Import Nitter.

Variable decimal : N → bool.

Local Abbreviation is_digit := (is_digit decimal).
Local Abbreviation match_at := (match_at decimal).
Local Abbreviation finditer := (finditer decimal).
Local Abbreviation occurrence := (occurrence decimal).
Local Abbreviation _parse_html := (_parse_html decimal).
Local Abbreviation parse_response := (parse_response decimal).

Lemma sub_ws_head (s : list N) :
  match sub_ws true s with
  | c :: _ => is_space c = false
  | [] => True
  end.
Proof.
  induction s as [| c r IH]; simpl; [done |].
  by destruct (is_space c) eqn:E.
Qed.

Lemma sub_ws_no_double_space (b : bool) (s : list N) :
  no_double_space (sub_ws b s).
Proof.
  revert b. induction s as [| c r IH]; intros b; simpl; [by intros i |].
  destruct (is_space c) eqn:E.
  - destruct b; [apply IH |]. intros [| i]; simpl.
    + intros _. pose proof (sub_ws_head r) as H.
      destruct (sub_ws true r) as [| d l]; [done |].
      simpl. intros [= ->]. done.
    + apply IH.
  - intros [| i]; simpl.
    + intros [= ->]. done.
    + apply IH.
Qed.

Lemma sub_ws_spaces (b : bool) (s : list N) :
  Forall (fun c => is_space c = true → c = 32%N) (sub_ws b s).
Proof.
  revert b. induction s as [| c r IH]; intros b; simpl; [constructor |].
  destruct (is_space c) eqn:E.
  - destruct b; [apply IH |]. constructor; [done | apply IH].
  - constructor; [congruence | apply IH].
Qed.

Lemma sub_ws_length (b : bool) (s : list N) :
  (length (sub_ws b s) ≤ length s)%nat.
Proof.
  revert b. induction s as [| c r IH]; intros b; simpl; [done |].
  destruct (is_space c); [destruct b |]; simpl;
    pose proof (IH true); pose proof (IH false); lia.
Qed.

(** The characters that are not white space are kept, in their order. *)
Lemma sub_ws_keeps_text (b : bool) (s : list N) :
  List.filter (fun c => negb (is_space c)) (sub_ws b s)
  = List.filter (fun c => negb (is_space c)) s.
Proof.
  revert b. induction s as [| c r IH]; intros b; simpl; [done |].
  destruct (is_space c) eqn:E; simpl.
  - destruct b; simpl; [apply IH | apply IH].
  - rewrite E. simpl. f_equal. apply IH.
Qed.

Lemma match_at_not_empty (s ds : list N) :
  match_at s = Some ds → ds ≠ [] ∧ forallb is_digit ds = true.
Proof.
  intros (rest & _ & H1 & H2 & _)%match_at_spec. done.
Qed.

Lemma finditer_groups (skip pos : nat) (s : list N) :
  Forall (fun m : nat * list N =>
            m.2 ≠ [] ∧ forallb is_digit m.2 = true)
         (finditer skip pos s).
Proof.
  revert skip pos. induction s as [| c r IH]; intros skip pos; [constructor |].
  cbn [Nitter.finditer]. destruct skip as [| k]; [| apply IH].
  destruct (match_at (c :: r)) as [ds |] eqn:E; [| apply IH].
  constructor; [by apply match_at_not_empty in E | apply IH].
Qed.

(** The encoding of a text that is not empty is not empty. *)
Lemma utf8_not_empty (l : list N) : l ≠ [] → utf8 l ≠ "".
Proof.
  destruct l as [| c l]; [done |]. intros _. unfold utf8. simpl.
  unfold utf8_char.
  destruct (c <? 128)%N; [done |]. destruct (c <? 2048)%N; [done |].
  by destruct (c <? 65536)%N.
Qed.

Lemma html_ids_not_empty (html : list N) :
  Forall (fun e => e_id e ≠ "") (_parse_html html).
Proof.
  unfold Nitter._parse_html. apply Forall_fmap.
  eapply Forall_impl; [apply finditer_groups |].
  intros [p ds] [Hne _]. simpl in *. by apply utf8_not_empty.
Qed.

(** X16. Every entry that [_parse_html] builds has as its id the digits of
    an occurrence of [/status/<digits>] in the page: a non-empty run of
    characters of the class [\d], which is also its link; its title is
    [Tweet] and it has no publication time. Its summary, the same text as
    its raw excerpt, comes from the window of 400 characters that starts
    200 characters before the occurrence: it is at most 400 characters
    long, holds no white space other than single spaces, and has the
    characters of the window that are not white space, in their order.
    Characters are code points throughout. *)
Theorem html_entries_normalised (html : list N) :
  Forall
    (fun e =>
       ∃ (q : nat) (ds x : list N),
         occurrence html q ds
         ∧ e_id e = utf8 ds ∧ ds ≠ [] ∧ forallb is_digit ds = true
         ∧ e_id e ≠ ""
         ∧ e_link e = e_id e ∧ e_title e = "Tweet" ∧ e_published e = ""
         ∧ e_summary e = utf8 x ∧ e_raw e = RawExcerpt (e_summary e)
         ∧ (length x ≤ 400)%nat
         ∧ Forall (fun c => is_space c = true → c = 32%N) x
         ∧ no_double_space x
         ∧ (q < length html)%nat
         ∧ List.filter (fun c => negb (is_space c)) x
           = List.filter (fun c => negb (is_space c))
               (take 400 (drop (q - 200) html)))
    (_parse_html html).
Proof.
  unfold Nitter._parse_html. apply Forall_fmap.
  pose proof (finditer_groups 0 0 html) as Hg.
  pose proof (finditer_spec decimal html 0 0 ltac:(intros; lia)) as Hs.
  apply Forall_forall. intros [p ds] Hin.
  rewrite Forall_forall in Hg. destruct (Hg _ Hin) as [Hne Hd]. simpl in *.
  apply Hs in Hin as (k & -> & Hk). simpl.
  exists k, ds, (sub_ws false (take 400 (drop (k - 200) html))).
  split; [by apply match_at_drop |].
  split; [done |]. split; [done |]. split; [done |].
  split; [by apply utf8_not_empty |]. repeat (split; [done |]).
  unfold excerpt_at, slice.
  replace (k - 200 + 400 - (k - 200))%nat with 400%nat by lia.
  split; [done |]. split; [done |]. split.
  { etransitivity; [apply sub_ws_length |]. rewrite length_take. lia. }
  split; [apply sub_ws_spaces |]. split; [apply sub_ws_no_double_space |].
  split; [| apply sub_ws_keeps_text].
  destruct (decide (k < length html)%nat) as [? | Hge]; [done |].
  rewrite drop_ge in Hk by lia. done.
Qed.

(** The id that [_parse_rss] takes for a feed entry: its [id] when that
    is not empty, else its [guid], else the empty text. *)
Lemma rss_entry_spec (fe : FeedEntry) (e : Entry) :
  rss_entry fe = Some e →
  e_id e ≠ ""
  ∧ e_id e = (if opt_truthy (fe_id fe) then str_or (fe_id fe) ""
              else str_or (fe_guid fe) "")
  ∧ (Some (e_id e) = fe_id fe ∨ Some (e_id e) = fe_guid fe)
  ∧ e_raw e = RawEntry fe.
Proof.
  unfold rss_entry.
  set (tid := if opt_truthy (fe_id fe) then _ else _).
  destruct (str_truthy tid) eqn:E; [| done]. intros [= <-]. simpl.
  split; [by apply str_truthy_true |]. split; [done |]. split; [| done].
  subst tid. destruct (fe_id fe) as [a |] eqn:Ea; simpl in *.
  - destruct (str_truthy a) eqn:Et; [by left |]. right.
    destruct (fe_guid fe) as [g |]; simpl in *; [| done].
    by destruct (str_truthy g).
  - right. destruct (fe_guid fe) as [g |]; simpl in *; [| done].
    by destruct (str_truthy g).
Qed.

(** X17. [_parse_rss] yields nothing for a feed that [feedparser] flags
    as malformed, whatever entries it holds. Otherwise it yields, in feed
    order, one entry for each feed entry that has a non-empty [id] or
    [guid], the [id] taking precedence; a feed entry with neither is
    dropped. So no entry with an empty id ever comes out of either parser
    or of [fetch_target]. *)
Theorem parsed_ids_not_empty (r : Response) :
  (bozo (feed r) = true → _parse_rss r = [])
  ∧ (bozo (feed r) = false →
     map e_raw (_parse_rss r)
     = map RawEntry
         (List.filter
            (fun fe => opt_truthy (fe_id fe) || opt_truthy (fe_guid fe))
            (feed_entries (feed r))))
  ∧ Forall (fun e => ∃ fe, fe ∈ feed_entries (feed r)
                      ∧ e_raw e = RawEntry fe
                      ∧ (Some (e_id e) = fe_id fe ∨ Some (e_id e) = fe_guid fe)
                      ∧ (opt_truthy (fe_id fe) = true
                         → Some (e_id e) = fe_id fe))
           (_parse_rss r)
  ∧ Forall (fun e => e_id e ≠ "") (parse_response r)
  ∧ ∀ monotonic net target_type value c t,
      Forall (fun e => e_id e ≠ "")
        (fetch_target decimal monotonic net target_type value c t).1.1.1.1.
Proof.
  assert (Hrss : ∀ l, Forall (fun e => e_id e ≠ "") (omap rss_entry l)).
  { intros l. apply Forall_forall. intros e (fe & _ & He)%list_elem_of_omap.
    by apply rss_entry_spec in He as (? & _). }
  assert (Hparse : ∀ r', Forall (fun e => e_id e ≠ "") (parse_response r')).
  { intros r'. unfold Nitter.parse_response, _parse_rss.
    destruct (bozo (feed r')).
    - destruct (negb _); [| constructor].
      apply html_ids_not_empty.
    - pose proof (Hrss (feed_entries (feed r'))) as H.
      destruct (omap rss_entry (feed_entries (feed r'))); [| done].
      destruct (negb _); [| constructor].
      apply html_ids_not_empty. }
  unfold _parse_rss. split; [by intros -> |]. split.
  { intros ->. induction (feed_entries (feed r)) as [| fe l IH]; [done |].
    cbn [omap list_omap List.filter]. unfold rss_entry at 1.
    destruct (fe_id fe) as [a |]; simpl.
    - destruct (str_truthy a) eqn:Ea; simpl.
      + rewrite Ea. simpl. by rewrite IH.
      + destruct (fe_guid fe) as [g |]; simpl; [| done].
        destruct (str_truthy g) eqn:Eg; simpl; [| done].
        rewrite Eg. simpl. by rewrite IH.
    - destruct (fe_guid fe) as [g |]; simpl; [| done].
      destruct (str_truthy g) eqn:Eg; simpl; [| done].
      rewrite Eg. simpl. by rewrite IH. }
  split.
  { destruct (bozo (feed r)); [constructor |].
    apply Forall_forall. intros e (fe & Hfe & He)%list_elem_of_omap.
    exists fe. split; [done |].
    pose proof (rss_entry_spec fe e He) as (_ & Hid & Hor & Hraw).
    split; [done |]. split; [done |]. intros Ht. rewrite Ht in Hid.
    destruct (fe_id fe) as [a |]; simpl in *; [| done].
    rewrite Ht in Hid. by rewrite Hid. }
  split; [apply Hparse |].
  intros monotonic net target_type value c t. unfold fetch_target.
  destruct (_acquire_instance monotonic c t) as [[[i |] c1] t1];
    [| constructor].
  unfold _fetch. destruct (net _) as [r' | exc]; simpl; [| constructor].
  destruct (400 <=? status_code r'); simpl; [constructor | apply Hparse].
Qed.
End ParserFacts.

(** * More properties of the event broker *)

Section BrokerMoreFacts.
Import App.

Lemma existsb_eqb_elem (x : nat) (l : list nat) :
  existsb (Nat.eqb x) l = true ↔ x ∈ l.
Proof.
  rewrite existsb_exists. split.
  - intros (y & Hy & ->%Nat.eqb_eq). by apply list_elem_of_In.
  - intros H. exists x. split; [by apply list_elem_of_In | apply Nat.eqb_refl].
Qed.

Lemma list_remove_absent (x : nat) (l : list nat) :
  x ∉ l → list_remove x l = l.
Proof.
  induction l as [| y l IH]; intros H; simpl; [done |].
  apply not_elem_of_cons in H as [Hne Hl].
  destruct (Nat.eqb_spec x y); [done |]. by rewrite IH.
Qed.

Lemma list_remove_last (x : nat) (l : list nat) :
  x ∉ l → list_remove x (l ++ [x]) = l.
Proof.
  induction l as [| y l IH]; intros H; simpl.
  - by rewrite Nat.eqb_refl.
  - apply not_elem_of_cons in H as [Hne Hl].
    destruct (Nat.eqb_spec x y); [done |]. by rewrite IH.
Qed.

Lemma list_remove_other (x y : nat) (l : list nat) :
  x ≠ y → y ∈ list_remove x l ↔ y ∈ l.
Proof.
  intros Hne. induction l as [| z l IH]; simpl; [done |].
  destruct (Nat.eqb_spec x z) as [<- | Hz].
  - rewrite elem_of_cons. split; [by right | by intros [-> | ?]].
  - by rewrite !elem_of_cons, IH.
Qed.

Lemma next_ref_fresh (b : EventBroker) :
  broker_ok b → (next_ref b ∉ clients b) ∧ objects b !! next_ref b = None.
Proof.
  intros (_ & Hcl & Hobj).
  assert (objects b !! next_ref b = None) as Hnone.
  { destruct (objects b !! next_ref b) as [q |] eqn:E; [| done].
    apply Hobj in E as [_ ?]. lia. }
  split; [| done]. intros [q Hq]%Hcl. congruence.
Qed.

(** X18. On a broker built by the program, [register] hands out a
    reference that no queue ever had, subscribes it last in the list with an
    empty queue without bound, and leaves the other queues alone;
    [unregister] of that reference gives back the subscriber list as it
    was. Unregistering twice is unregistering once, and unregistering a
    queue that is not subscribed changes nothing. *)
Theorem register_unregister (b : EventBroker) :
  broker_ok b →
  let r := (register b).1 in
  let b1 := (register b).2 in
  (r ∉ clients b) ∧ objects b !! r = None
  ∧ clients b1 = clients b ++ [r]
  ∧ objects b1 !! r = Some (mkQueue 0 [])
  ∧ (∀ r', r' ≠ r → objects b1 !! r' = objects b !! r')
  ∧ broker_ok b1
  ∧ clients (unregister r b1) = clients b
  ∧ unregister r (unregister r b1) = unregister r b1
  ∧ ∀ r', r' ∉ clients b → unregister r' b = b.
Proof.
  intros Hok r b1. destruct (next_ref_fresh b Hok) as [Hfresh Hnone].
  subst r b1. unfold register. cbn [fst snd clients objects next_ref].
  split; [done |]. split; [done |]. split; [done |].
  split; [apply lookup_insert_eq |].
  split; [by intros r' Hr'; apply lookup_insert_ne |].
  split; [apply (broker_step_ok b BRegister Hok) |].
  assert (Hin : existsb (Nat.eqb (next_ref b)) (clients b ++ [next_ref b])
                = true).
  { apply existsb_eqb_elem, elem_of_app. right. by constructor. }
  assert (Hout : existsb (Nat.eqb (next_ref b)) (clients b) = false).
  { apply not_true_iff_false. by rewrite existsb_eqb_elem. }
  unfold unregister. cbn [clients objects next_ref]. rewrite Hin.
  cbn [clients objects next_ref]. rewrite list_remove_last by done.
  rewrite Hout. split; [done |]. split; [done |].
  intros r' Hr'.
  assert (existsb (Nat.eqb r') (clients b) = false) as ->; [| done].
  apply not_true_iff_false. by rewrite existsb_eqb_elem.
Qed.

(** A subscriber that is not unregistered gets every payload. *)
Lemma subscriber_gets_all (r : nat) (ops : list BrokerOp) (b : EventBroker)
    (q : Queue) :
  broker_ok b → r ∈ clients b → objects b !! r = Some q →
  Forall (fun op => op ≠ BUnregister r) ops →
  let b' := fold_left broker_step ops b in
  r ∈ clients b'
  ∧ objects b' !! r = Some (mkQueue 0 (items q ++ published ops)).
Proof.
  intros Hok Hr Hq Hops. revert b q Hok Hr Hq.
  induction Hops as [| op ops Hop _ IH]; intros b q Hok Hr Hq; simpl.
  { split; [done |]. rewrite app_nil_r, Hq. destruct Hok as (_ & _ & Hobj).
    apply Hobj in Hq as [Hm _]. destruct q. simpl in *. by subst. }
  pose proof (broker_step_ok b op Hok) as Hok1.
  destruct op as [| r' | payload].
  - destruct (IH (broker_step b BRegister) q Hok1) as [H1 H2].
    + simpl. apply elem_of_app. by left.
    + simpl. rewrite lookup_insert_ne; [done |].
      destruct Hok as (_ & _ & Hobj). apply Hobj in Hq as [_ ?]. lia.
    + done.
  - assert (r' ≠ r) as Hne by congruence.
    destruct (IH (broker_step b (BUnregister r')) q Hok1) as [H1 H2].
    + simpl. unfold unregister. destruct (existsb _ _); [| done].
      simpl. by apply list_remove_other.
    + simpl. unfold unregister. by destruct (existsb _ _).
    + done.
  - destruct Hok as (Hnd & Hcl & Hobj).
    pose proof (Hobj _ _ Hq) as [Hm _].
    pose proof (unbounded_not_full q Hm) as Hf.
    destruct (publish_loop_spec payload (clients b) b Hnd Hnd)
      as (Ho & Hc & _).
    destruct (IH (broker_step b (BPublish payload)) (appended q payload) Hok1)
      as [H1 H2].
    + simpl. rewrite Hc. apply list_elem_of_In, filter_In.
      split; [by apply list_elem_of_In |].
      unfold is_full. by rewrite Hq, Hf, andb_false_r.
    + simpl. by rewrite Ho, decide_True, Hq; simpl; rewrite ?Hf.
    + split; [done |]. rewrite H2. simpl. by rewrite <- app_assoc.
Qed.

Lemma published_payloads (payloads : list string) :
  published (map BPublish payloads) = payloads.
Proof.
  unfold published. induction payloads as [| p l IH]; [done |].
  cbn [map omap list_omap]. by rewrite IH.
Qed.

(** C3. [publish] removes a subscriber only when [put_nowait] raises
    [queue.Full], and [register] builds every queue without a bound: on
    every broker that the program's calls can build no subscriber is full
    and a publish removes nobody. So a subscriber that never takes an
    event from its queue, as in scenario S6, stays subscribed through any
    number of events, and its queue holds every one of them. *)
Theorem slow_subscriber_is_never_dropped (before : list BrokerOp)
    (payloads : list string) :
  let b0 := broker_after before in
  let r := (register b0).1 in
  let b := fold_left broker_step (map BPublish payloads) (register b0).2 in
  (∀ ops r', r' ∈ clients (broker_after ops) →
     is_full (broker_after ops) r' = false)
  ∧ (∀ ops payload,
       clients (broker_step (broker_after ops) (BPublish payload))
       = clients (broker_after ops))
  ∧ maxsize <$> objects (register b0).2 !! r = Some 0
  ∧ r ∈ clients b
  ∧ objects b !! r = Some (mkQueue 0 payloads).
Proof.
  intros b0 r b.
  assert (Hfull : ∀ ops r', is_full (broker_after ops) r' = false).
  { intros ops r'. unfold is_full.
    destruct (objects (broker_after ops) !! r') as [q |] eqn:Hq; [| done].
    destruct (broker_after_ok ops) as (_ & _ & Hobj).
    apply Hobj in Hq as [Hm _]. by apply unbounded_not_full. }
  split; [by intros ops r' _ |]. split.
  { intros ops payload. simpl.
    destruct (broker_after_ok ops) as (Hnd & _ & _).
    rewrite publish_loop_clients by done. apply filter_all.
    intros x _. by rewrite Hfull. }
  split; [simpl; by rewrite lookup_insert_eq |].
  pose proof (broker_after_ok before) as Hok. fold b0 in Hok.
  destruct (subscriber_gets_all r (map BPublish payloads) (register b0).2
              (mkQueue 0 []))
    as [H1 H2].
  - apply (broker_step_ok b0 BRegister Hok).
  - simpl. apply elem_of_app. right. by constructor.
  - simpl. apply lookup_insert_eq.
  - apply Forall_forall. intros op (p & -> & _)%list_elem_of_fmap. done.
  - split; [done |]. fold b in H2. by rewrite published_payloads in H2.
Qed.

(** X19. A subscriber gets every event that is published between its
    registration and its unregistration, in the order of publication and
    nothing else, whatever other subscribers come and go in between; it
    stays subscribed all the while. *)
Theorem events_delivered_in_order (before after : list BrokerOp) :
  let b0 := broker_after before in
  let r := (register b0).1 in
  Forall (fun op => op ≠ BUnregister r) after →
  let b := fold_left broker_step after (register b0).2 in
  r ∈ clients b
  ∧ objects b !! r = Some (mkQueue 0 (published after))
  ∧ b = broker_after (before ++ BRegister :: after).
Proof.
  intros b0 r Hops b.
  pose proof (broker_after_ok before) as Hok. fold b0 in Hok.
  destruct (subscriber_gets_all r after (register b0).2 (mkQueue 0 []))
    as [H1 H2].
  - apply (broker_step_ok b0 BRegister Hok).
  - simpl. apply elem_of_app. right. by constructor.
  - simpl. apply lookup_insert_eq.
  - done.
  - split; [done |]. split; [done |].
    subst b b0. unfold broker_after. by rewrite fold_left_app.
Qed.
End BrokerMoreFacts.

(** X18 on a broker with one subscriber. *)
Lemma register_unregister_witness :
  let b := (App.register App.new_broker).2 in
  App.clients (App.unregister (App.register b).1 (App.register b).2)
  = App.clients b.
Proof.
  intros b.
  destruct (register_unregister b) as (_ & _ & _ & _ & _ & _ & H & _).
  - apply (broker_after_ok [App.BRegister]).
  - exact H.
Defined.

(** X19 on a second subscriber that sees two events while the first
    subscriber leaves. *)
Lemma events_delivered_in_order_witness :
  let b := App.broker_after
             [App.BRegister; App.BRegister; App.BPublish "e1";
              App.BUnregister 0; App.BPublish "e2"] in
  App.clients b = [1%nat]
  ∧ App.objects b !! 1%nat = Some (App.mkQueue 0 ["e1"; "e2"]).
Proof.
  intros b. split; [reflexivity |].
  destruct (events_delivered_in_order [App.BRegister]
              [App.BPublish "e1"; App.BUnregister 0; App.BPublish "e2"])
    as (_ & H & _).
  - repeat (constructor; [discriminate |]). constructor.
  - exact H.
Defined.

(** * More properties of the fetch pipeline *)

Section PipelineMoreFacts.
Import App.
Variable json_dumps : JSON → string.
Variable order_by : list Storage.TweetRow → list Storage.TweetRow.
Variable decimal : N → bool.
Variable monotonic : nat → Q.
Variable utcnow : nat → Z.
Variable isoformat : Z → string.

Local Abbreviation store_entry := (store_entry json_dumps utcnow isoformat).
Local Abbreviation _store_entries :=
  (_store_entries json_dumps order_by utcnow isoformat).
Local Abbreviation _fetch_target :=
  (_fetch_target json_dumps order_by decimal monotonic utcnow isoformat).

(** One iteration of the loop of [_store_entries] either leaves the posts
    as they are or appends one row, which it counts. *)
Lemma store_entry_step (target_row : Storage.TargetRow)
    (instance : option string) (entry : Nitter.Entry) (n : Z) (a : AppState) :
  let out := store_entry target_row instance entry (n, a) in
  (Storage.targets (storage out.2) = Storage.targets (storage a)
   ∧ Storage.next_target_id (storage out.2)
     = Storage.next_target_id (storage a)
   ∧ client out.2 = client a ∧ last_run out.2 = last_run a
   ∧ mono_reads out.2 = mono_reads a
   ∧ (wall_reads a ≤ wall_reads out.2 ≤ wall_reads a + 2)%nat)
  ∧ ((out.1 = n
      ∧ Storage.tweets (storage out.2) = Storage.tweets (storage a))
     ∨ (out.1 = n + 1
        ∧ ∃ row, Storage.tweets (storage out.2)
                 = Storage.tweets (storage a) ++ [row]
            ∧ new_row target_row instance entry row
            ∧ Storage.tw_id row ∉ Storage.ids (Storage.tweets (storage a)))).
Proof.
  unfold App.store_entry, new_row, tweet_id_of.
  set (tid := if str_truthy (Nitter.e_id entry) then _ else _).
  destruct (str_truthy (Nitter.e_published entry));
    destruct (str_truthy tid) eqn:Et; cbn [negb].
  all: try (simpl; split; [repeat split; (done || lia) | by left]).
  all: unfold Storage.upsert_tweet; destruct (Storage.mem tid _) eqn:Em.
  all: cbn -[Z.add].
  all: (split; [repeat split; (done || lia) |]).
  all: try (by left).
  all: right; (split; [done |]); eexists; (split; [done |]); simpl.
  all: apply str_truthy_true in Et; apply mem_false in Em; done.
Qed.

(** The loop of [_store_entries]. *)
Lemma store_loop (target_row : Storage.TargetRow) (instance : option string)
    (entries : list Nitter.Entry) (n : Z) (a : AppState) :
  let out :=
    fold_left (fun acc e => store_entry target_row instance e acc)
              entries (n, a) in
  (Storage.targets (storage out.2) = Storage.targets (storage a)
   ∧ Storage.next_target_id (storage out.2)
     = Storage.next_target_id (storage a)
   ∧ client out.2 = client a ∧ last_run out.2 = last_run a
   ∧ mono_reads out.2 = mono_reads a
   ∧ (wall_reads a ≤ wall_reads out.2
      ≤ wall_reads a + 2 * length entries)%nat)
  ∧ ∃ rows, Storage.tweets (storage out.2)
            = Storage.tweets (storage a) ++ rows
      ∧ out.1 = n + Z.of_nat (length rows)
      ∧ (length rows ≤ length entries)%nat
      ∧ Forall (fun row => ∃ e, e ∈ entries
                             ∧ new_row target_row instance e row) rows
      ∧ (NoDup (Storage.ids (Storage.tweets (storage a))) →
         NoDup (Storage.ids (Storage.tweets (storage out.2)))).
Proof.
  revert n a. induction entries as [| e entries IH]; intros n a.
  { simpl. split; [repeat split; (done || lia) |]. exists [].
    rewrite app_nil_r. simpl. repeat split; (done || lia). }
  cbn [fold_left].
  pose proof (store_entry_step target_row instance e n a) as [Hf Hs].
  destruct (store_entry target_row instance e (n, a)) as [n1 a1].
  simpl in Hf, Hs. destruct Hf as (F1 & F2 & F3 & F4 & F5 & F6).
  specialize (IH n1 a1). cbv zeta in IH.
  destruct IH as [(G1 & G2 & G3 & G4 & G5 & G6)
                    (rows & R1 & R2 & R3 & R4 & R5)].
  cbn [length]. split; [repeat split; (congruence || lia) |].
  assert (R4' : Forall (fun row => ∃ e0, e0 ∈ e :: entries
                           ∧ new_row target_row instance e0 row) rows).
  { eapply Forall_impl; [exact R4 |]. intros row (e0 & ? & ?).
    exists e0. split; [by right | done]. }
  destruct Hs as [[-> Hsame] | [-> (row & Hrow & Hnew & Hfresh)]].
  - exists rows. split; [by rewrite R1, Hsame |].
    split; [done |]. split; [lia |]. split; [done |].
    intros Hnd. apply R5. by rewrite Hsame.
  - exists (row :: rows). split; [by rewrite R1, Hrow, <- app_assoc |].
    split; [simpl length; lia |]. split; [simpl; lia |]. split.
    + constructor; [| done]. exists e. split; [by left | done].
    + intros Hnd. apply R5. rewrite Hrow. unfold Storage.ids.
      rewrite map_app. apply NoDup_app. split; [done |]. split.
      * intros x Hx Hin. simpl in Hin.
        apply list_elem_of_singleton in Hin as ->. done.
      * simpl. apply NoDup_singleton.
Qed.

Lemma prune_NoDup (n : Z) (db : Storage.DB) :
  NoDup (Storage.ids (Storage.tweets db)) →
  NoDup (Storage.ids (Storage.tweets (Storage.prune_old_entries order_by n db))).
Proof.
  unfold Storage.prune_old_entries. simpl.
  generalize (Storage.distinct_targets (Storage.tweets db)) as ts.
  generalize (Storage.tweets db) as l. intros l ts. revert l.
  induction ts as [| t ts IH]; intros l Hnd; simpl; [done |].
  apply IH. unfold Storage.prune_target. by apply NoDup_ids_filter.
Qed.

(** X20. [_store_entries] returns the number of rows it added. Without a
    pruning limit (none configured, or zero) the posts after the call are
    the posts before it followed by that many new rows; with a limit,
    every row afterwards was there before or is one of the new rows. Each
    new row has a non-empty id that was not stored before, taken from an
    entry (its id, or its link when the id is empty), the target key
    [type:value] and the instance. Distinct ids stay distinct, the count
    is at most the number of entries, and targets and pool are not
    touched. *)
Theorem store_entries_effect (config : Config)
    (target_row : Storage.TargetRow) (entries : list Nitter.Entry)
    (instance : option string) (a : AppState) :
  NoDup (Storage.ids (Storage.tweets (storage a))) →
  let out := _store_entries config target_row entries instance a in
  0 ≤ out.1 ≤ Z.of_nat (length entries)
  ∧ NoDup (Storage.ids (Storage.tweets (storage out.2)))
  ∧ Storage.targets (storage out.2) = Storage.targets (storage a)
  ∧ client out.2 = client a
  ∧ (∃ rows,
       Z.of_nat (length rows) = out.1
       ∧ Forall (fun row =>
                   (Storage.tw_id row ∉ Storage.ids (Storage.tweets (storage a)))
                   ∧ ∃ e, e ∈ entries ∧ new_row target_row instance e row)
                rows
       ∧ (∀ x, x ∈ Storage.tweets (storage out.2) →
               x ∈ Storage.tweets (storage a) ++ rows)
       ∧ (keep_only_last_n_per_target config = None
          ∨ keep_only_last_n_per_target config = Some 0 →
          Storage.tweets (storage out.2)
          = Storage.tweets (storage a) ++ rows)).
Proof.
  intros Hnd out. subst out. unfold App._store_entries.
  pose proof (store_loop target_row instance entries 0 a)
    as [(F1 & F2 & F3 & F4 & F5 & F6) (rows & R1 & R2 & R3 & R4 & R5)].
  destruct (fold_left _ entries (0, a)) as [n1 a1]. simpl in *.
  specialize (R5 Hnd).
  assert (Hfresh : Forall
            (fun row =>
               (Storage.tw_id row ∉ Storage.ids (Storage.tweets (storage a)))
               ∧ ∃ e, e ∈ entries ∧ new_row target_row instance e row) rows).
  { apply Forall_forall. intros row Hrow. split.
    - rewrite R1 in R5. unfold Storage.ids in R5. rewrite map_app in R5.
      apply NoDup_app in R5 as (_ & Hdis & _). intros Hin.
      apply (Hdis _ Hin). by apply list_elem_of_fmap_2.
    - rewrite Forall_forall in R4. by apply R4. }
  destruct (keep_only_last_n_per_target config) as [k |] eqn:Ek.
  - destruct (k =? 0) eqn:E0; simpl.
    + split; [lia |]. repeat (split; [done |]). exists rows.
      split; [lia |]. split; [done |]. split; [by rewrite R1 |]. done.
    + split; [lia |]. split; [by apply prune_NoDup |].
      split; [done |]. split; [done |]. exists rows.
      split; [lia |]. split; [done |]. split.
      * intros x Hx%prune_subset. by rewrite <- R1.
      * intros [? | [= ->]]; [done |]. done.
  - simpl. split; [lia |]. repeat (split; [done |]). exists rows.
    split; [lia |]. split; [done |]. split; [by rewrite R1 |]. done.
Qed.

(** What [_store_entries] leaves alone. *)
Lemma store_entries_frame (config : Config) (target_row : Storage.TargetRow)
    (entries : list Nitter.Entry) (instance : option string) (a : AppState) :
  let out := _store_entries config target_row entries instance a in
  0 ≤ out.1
  ∧ Storage.targets (storage out.2) = Storage.targets (storage a)
  ∧ Storage.next_target_id (storage out.2)
    = Storage.next_target_id (storage a)
  ∧ client out.2 = client a ∧ last_run out.2 = last_run a
  ∧ mono_reads out.2 = mono_reads a
  ∧ (wall_reads a ≤ wall_reads out.2)%nat
  ∧ (NoDup (Storage.ids (Storage.tweets (storage a))) →
     NoDup (Storage.ids (Storage.tweets (storage out.2)))).
Proof.
  intros out. subst out. unfold App._store_entries.
  pose proof (store_loop target_row instance entries 0 a)
    as [(F1 & F2 & F3 & F4 & F5 & F6) (rows & R1 & R2 & R3 & R4 & R5)].
  destruct (fold_left _ entries (0, a)) as [n1 a1]. simpl in *.
  destruct (keep_only_last_n_per_target config) as [k |];
    [destruct (k =? 0) |]; simpl; repeat split; try (done || lia).
  intros Hnd. by apply prune_NoDup, R5.
Qed.

Lemma update_fixed_columns (i : Z) (lid lat : option string)
    (db : Storage.DB) :
  map fixed_columns
      (Storage.targets (Storage.update_target_fetch_state i lid lat db))
  = map fixed_columns (Storage.targets db).
Proof.
  unfold Storage.update_target_fetch_state. simpl.
  induction (Storage.targets db) as [| x l IH]; simpl; [done |].
  rewrite IH. f_equal. by destruct (Storage.tg_id x =? i).
Qed.

Lemma update_get_other (i j : Z) (lid lat : option string) (db : Storage.DB) :
  j ≠ i →
  Storage.get_target j (Storage.update_target_fetch_state i lid lat db)
  = Storage.get_target j db.
Proof.
  intros Hj. unfold Storage.update_target_fetch_state, Storage.get_target.
  simpl. induction (Storage.targets db) as [| x l IH]; simpl; [done |].
  destruct (Storage.tg_id x =? i) eqn:E; simpl.
  - apply Z.eqb_eq in E.
    destruct (Z.eqb_spec (Storage.tg_id x) j); [congruence | apply IH].
  - destruct (Storage.tg_id x =? j); [done | apply IH].
Qed.

Lemma update_get_same (i : Z) (lid lat : option string) (db : Storage.DB) :
  Storage.get_target i (Storage.update_target_fetch_state i lid lat db)
  = fetched lid lat <$> Storage.get_target i db.
Proof.
  unfold Storage.update_target_fetch_state, Storage.get_target. simpl.
  induction (Storage.targets db) as [| x l IH]; simpl; [done |].
  destruct (Storage.tg_id x =? i) eqn:E; simpl; [by rewrite E | by rewrite E, IH].
Qed.

(** X21. One run of [_fetch_target] reports its target's value and a
    count that is not negative, keeps the ids of the posts distinct, and
    writes no row of the targets table but its own, of which it changes
    the two fetch columns only. When it reports an error, the error text is
    not empty, the count is zero, and the database and [last_run] are as
    before, so the target is as due as it was. When it reports none, it
    records the time read at its start as [last_run] and as the target's
    [last_fetched_at]. *)
Theorem fetch_target_frame (config : Config)
    (net : string → Nitter.HttpOutcome) (target_row : Storage.TargetRow)
    (a : AppState) :
  NoDup (Storage.ids (Storage.tweets (storage a))) →
  let out := _fetch_target config net target_row a in
  let now_iso := isoformat (utcnow (wall_reads a)) in
  let i := Storage.tg_id target_row in
  r_target out.1 = Storage.tg_value target_row
  ∧ 0 ≤ r_new out.1
  ∧ NoDup (Storage.ids (Storage.tweets (storage out.2)))
  ∧ map fixed_columns (Storage.targets (storage out.2))
    = map fixed_columns (Storage.targets (storage a))
  ∧ (∀ j, j ≠ i →
          Storage.get_target j (storage out.2) = Storage.get_target j (storage a))
  ∧ (wall_reads a < wall_reads out.2)%nat
  ∧ match r_error out.1 with
    | Some e =>
        e ≠ "" ∧ r_new out.1 = 0 ∧ storage out.2 = storage a
        ∧ last_run out.2 = last_run a
    | None =>
        last_run out.2 = Some now_iso
        ∧ Storage.tg_last_fetched_at <$> Storage.get_target i (storage out.2)
          = (fun _ => Some now_iso) <$> Storage.get_target i (storage a)
    end.
Proof.
  intros Hnd out now_iso i. subst out now_iso i. unfold App._fetch_target.
  destruct (Nitter.fetch_target decimal monotonic net _ _ _ _)
    as [[[[entries instance] error] c1] t1].
  destruct (opt_truthy error) eqn:Et; cbn [fst snd].
  - destruct error as [e |]; [| done]. simpl in Et.
    apply str_truthy_true in Et. simpl.
    repeat split; (done || lia).
  - set (a1 := mkApp (storage a) c1 (broker a) (last_run a) t1
                     (S (wall_reads a))).
    pose proof (store_entries_frame config target_row entries instance a1)
      as (F0 & F1 & F2 & F3 & F4 & F5 & F6 & F7).
    destruct (_store_entries config target_row entries instance a1)
      as [n2 a2]. subst a1.
    cbn [fst snd storage client last_run wall_reads mono_reads r_target
         r_new r_error] in *.
    split; [done |]. split; [done |]. split; [by apply F7 |].
    split.
    { rewrite update_fixed_columns. by rewrite F1. }
    split.
    { intros j Hj. rewrite update_get_other by done.
      unfold Storage.get_target. by rewrite F1. }
    split; [lia |]. split; [done |].
    rewrite update_get_same. unfold Storage.get_target. rewrite F1.
    by destruct (List.find _ _).
Qed.

(** What every run of [_fetch_target] keeps. *)
Lemma fetch_target_keeps (config : Config)
    (net : string → Nitter.HttpOutcome) (target_row : Storage.TargetRow)
    (a : AppState) :
  let out := _fetch_target config net target_row a in
  r_target out.1 = Storage.tg_value target_row
  ∧ 0 ≤ r_new out.1
  ∧ (∀ e, r_error out.1 = Some e → e ≠ "")
  ∧ (NoDup (Storage.ids (Storage.tweets (storage a))) →
     NoDup (Storage.ids (Storage.tweets (storage out.2))))
  ∧ map fixed_columns (Storage.targets (storage out.2))
    = map fixed_columns (Storage.targets (storage a))
  ∧ (∀ j, j ≠ Storage.tg_id target_row →
          Storage.get_target j (storage out.2) = Storage.get_target j (storage a))
  ∧ (wall_reads a < wall_reads out.2)%nat.
Proof.
  intros out. subst out. unfold App._fetch_target.
  destruct (Nitter.fetch_target decimal monotonic net _ _ _ _)
    as [[[[entries instance] error] c1] t1].
  destruct (opt_truthy error) eqn:Et; cbn [fst snd].
  - destruct error as [e |]; [| done]. simpl in Et.
    apply str_truthy_true in Et. simpl.
    repeat split; try (done || lia). by intros e' [= <-].
  - set (a1 := mkApp (storage a) c1 (broker a) (last_run a) t1
                     (S (wall_reads a))).
    pose proof (store_entries_frame config target_row entries instance a1)
      as (F0 & F1 & F2 & F3 & F4 & F5 & F6 & F7).
    destruct (_store_entries config target_row entries instance a1)
      as [n2 a2]. subst a1.
    cbn [fst snd storage client last_run wall_reads mono_reads r_target
         r_new r_error] in *.
    split; [done |]. split; [done |]. split; [done |]. split; [done |].
    split; [by rewrite update_fixed_columns, F1 |].
    split; [| lia].
    intros j Hj. rewrite update_get_other by done.
    unfold Storage.get_target. by rewrite F1.
Qed.

Variable fromisoformat : string → option Z.
Variable naive : string → bool.

Local Abbreviation is_due := (is_due fromisoformat).
Local Abbreviation due_raises := (due_raises fromisoformat naive).
Local Abbreviation tested := (tested fromisoformat naive).
Local Abbreviation run_target :=
  (run_target json_dumps order_by decimal monotonic utcnow isoformat
              fromisoformat).
Local Abbreviation run_targets :=
  (run_targets json_dumps order_by decimal monotonic utcnow isoformat
               fromisoformat naive).
Local Abbreviation run_cycle :=
  (run_cycle json_dumps order_by decimal monotonic utcnow isoformat
             fromisoformat naive).
Local Abbreviation api_fetch_once :=
  (api_fetch_once json_dumps order_by decimal monotonic utcnow isoformat).
Local Abbreviation fetch_once_step :=
  (fetch_once_step json_dumps order_by decimal monotonic utcnow isoformat).

(** The body of the scheduler's loop for one target. *)
Lemma run_target_frame (config : Config) (net : string → Nitter.HttpOutcome)
    (now : Z) (a : AppState) (s : Scheduler) (target : Storage.TargetRow) :
  let out := run_target config net now (a, s) target in
  (is_due now target = false → out = (a, s))
  ∧ (is_due now target = true →
     is_Some (sched_last_run out.2) ∧ (wall_reads a + 2 ≤ wall_reads out.1)%nat)
  ∧ (0 ≤ queue_size s → queue_size out.2 = queue_size s)
  ∧ (NoDup (Storage.ids (Storage.tweets (storage a))) →
     NoDup (Storage.ids (Storage.tweets (storage out.1))))
  ∧ map fixed_columns (Storage.targets (storage out.1))
    = map fixed_columns (Storage.targets (storage a))
  ∧ (∀ j, (Storage.tg_id target = j → is_due now target = false) →
          Storage.get_target j (storage out.1) = Storage.get_target j (storage a))
  ∧ (wall_reads a ≤ wall_reads out.1)%nat.
Proof.
  unfold App.run_target. destruct (is_due now target) eqn:Ed.
  2: { simpl. repeat split; done. }
  set (a1 := mkApp (storage a) (client a) _ (last_run a) (mono_reads a)
                   (wall_reads a)).
  pose proof (fetch_target_keeps config net target a1)
    as (_ & _ & _ & K1 & K2 & K3 & K4).
  destruct (_fetch_target config net target a1) as [res a2]. subst a1.
  cbn [fst snd storage wall_reads queue_size sched_last_run] in *.
  split; [done |]. split; [intros _; split; [by eexists | lia] |].
  split; [lia |]. split; [done |]. split; [done |]. split; [| lia].
  intros j Hj. apply K3. intros ->. specialize (Hj eq_refl). congruence.
Qed.

(** The scheduler's loop over a list of targets. *)
Lemma run_targets_frame (config : Config) (net : string → Nitter.HttpOutcome)
    (now : Z) (targets : list Storage.TargetRow) (a : AppState)
    (s : Scheduler) :
  let out := fold_left (run_target config net now) targets (a, s) in
  (Forall (fun t => is_due now t = false) targets → out = (a, s))
  ∧ (Exists (fun t => is_due now t = true) targets →
     is_Some (sched_last_run out.2) ∧ (wall_reads a + 2 ≤ wall_reads out.1)%nat)
  ∧ (0 ≤ queue_size s → queue_size out.2 = queue_size s)
  ∧ (NoDup (Storage.ids (Storage.tweets (storage a))) →
     NoDup (Storage.ids (Storage.tweets (storage out.1))))
  ∧ map fixed_columns (Storage.targets (storage out.1))
    = map fixed_columns (Storage.targets (storage a))
  ∧ (∀ j, (∀ t, t ∈ targets → Storage.tg_id t = j → is_due now t = false) →
          Storage.get_target j (storage out.1) = Storage.get_target j (storage a))
  ∧ (wall_reads a ≤ wall_reads out.1)%nat.
Proof.
  revert a s. induction targets as [| t targets IH]; intros a s.
  { simpl. split; [done |]. split; [by intros ?%Exists_nil |].
    repeat split; done. }
  cbn [fold_left].
  pose proof (run_target_frame config net now a s t)
    as (A1 & A2 & A3 & A4 & A5 & A6 & A7).
  destruct (run_target config net now (a, s) t) as [a1 s1].
  cbn [fst snd] in *.
  specialize (IH a1 s1). cbv zeta in IH.
  destruct IH as (B1 & B2 & B3 & B4 & B5 & B6 & B7).
  split.
  { intros [Ht Hts]%Forall_cons. rewrite B1 by done. by apply A1. }
  split.
  { intros [Ht | Hts]%Exists_cons.
    - destruct (A2 Ht) as [[x Hx] Hw].
      destruct (decide (Forall (fun t => is_due now t = false) targets))
        as [Hall | Hex].
      + rewrite (B1 Hall). simpl. split; [by eexists | lia].
      + apply not_Forall_Exists in Hex; [| intros x'; apply _].
        destruct B2 as [B2 B2'].
        * eapply Exists_impl; [exact Hex |]. simpl. intros t'.
          by destruct (is_due now t').
        * split; [done | lia].
    - destruct (B2 Hts) as [B2a B2b]. split; [done | lia]. }
  split.
  { intros Hq. rewrite B3; [by apply A3 | by rewrite A3]. }
  split; [by intros Hnd; apply B4, A4 |].
  split; [by rewrite B5 |]. split; [| lia].
  intros j Hj. rewrite B6.
  - apply A6. intros Hid. apply (Hj t); [by left | done].
  - intros t' Ht'. apply Hj. by right.
Qed.

(** The loop of a pass is the loop over the targets it looks at. *)
Lemma run_targets_tested (config : Config) (net : string → Nitter.HttpOutcome)
    (now : Z) (targets : list Storage.TargetRow) (w : AppState * Scheduler) :
  run_targets config net now targets w
  = (fold_left (run_target config net now) (tested targets) w,
     existsb due_raises targets).
Proof.
  revert w. induction targets as [| t targets IH]; intros w; [done |].
  cbn [App.run_targets App.tested existsb].
  destruct (due_raises t); [done |]. cbn [fold_left orb]. apply IH.
Qed.

Lemma tested_all (targets : list Storage.TargetRow) :
  existsb due_raises targets = false → tested targets = targets.
Proof.
  induction targets as [| t targets IH]; [done |]. cbn [existsb App.tested].
  destruct (due_raises t); [done |]. simpl. intros H. by rewrite IH.
Qed.


(** The loop of [api_fetch_once]. *)
Lemma fetch_once_loop (config : Config) (net : string → Nitter.HttpOutcome)
    (targets : list Storage.TargetRow) (summary : Summary) (a : AppState) :
  let out := fold_left (fetch_once_step config net) targets (summary, a) in
  (∀ v, is_Some (newCountsByTarget out.1 !! v)
        ↔ is_Some (newCountsByTarget summary !! v)
          ∨ v ∈ map Storage.tg_value targets)
  ∧ ((∀ v n, newCountsByTarget summary !! v = Some n → 0 ≤ n) →
     ∀ v n, newCountsByTarget out.1 !! v = Some n → 0 ≤ n)
  ∧ (∃ new, failedInstances out.1 = failedInstances summary ++ new
       ∧ map f_target new `sublist_of` map Storage.tg_value targets
       ∧ Forall (fun f => ∃ e, f_error f = Some e ∧ e ≠ "") new)
  ∧ (NoDup (Storage.ids (Storage.tweets (storage a))) →
     NoDup (Storage.ids (Storage.tweets (storage out.2))))
  ∧ map fixed_columns (Storage.targets (storage out.2))
    = map fixed_columns (Storage.targets (storage a))
  ∧ (wall_reads a + length targets ≤ wall_reads out.2)%nat.
Proof using Type.
  revert summary a. induction targets as [| t targets IH]; intros summary a.
  { simpl. split.
    - intros v. split; [by left | intros [? | ?%elem_of_nil]; done].
    - split; [done |]. split; [| repeat split; (done || lia)].
      exists []. by rewrite app_nil_r. }
  cbn [fold_left].
  pose proof (fetch_target_keeps config net t a)
    as (_ & K0 & Ke & K1 & K2 & _ & K4).
  destruct (fetch_once_step config net (summary, a) t) as [summary1 a1] eqn:Es.
  unfold App.fetch_once_step in Es.
  destruct (_fetch_target config net t a) as [res a0].
  injection Es as Es ->. cbn [fst snd] in *.
  specialize (IH summary1 a1). cbv zeta in IH.
  destruct IH as (B1 & B2 & (new & B3 & B4 & B5) & B6 & B7 & B8).
  split.
  { intros v. rewrite B1. subst summary1. cbn [newCountsByTarget map].
    rewrite lookup_insert_is_Some, elem_of_cons.
    destruct (decide (Storage.tg_value t = v)) as [<- | Hne].
    { split; intros _; [right; by left | left; by left]. }
    split; [intros [[? | [_ ?]] | ?]; auto | intros [? | [? | ?]]; auto]. }
  split.
  { intros H0. apply B2. subst summary1. cbn [newCountsByTarget].
    intros v n [[_ <-] | [_ Hv]]%lookup_insert_Some; [done | by eapply H0]. }
  split.
  { subst summary1. cbn [failedInstances] in B3.
    destruct (opt_truthy (r_error res)) eqn:Et.
    - exists (mkFailed (r_instance res) (r_error res) (Storage.tg_value t)
              :: new).
      split; [by rewrite B3, <- app_assoc |]. split.
      + simpl. by apply sublist_skip.
      + constructor; [| done]. simpl.
        destruct (r_error res) as [e |]; [| done]. exists e.
        split; [done | by apply Ke].
    - exists new. split; [done |]. split; [| done].
      simpl. by apply sublist_cons. }
  split; [by intros Hnd; apply B6, K1 |].
  split; [by rewrite B7 |]. simpl. lia.
Qed.

(** X23. The summary of [api_fetch_once] has a count for exactly the
    values of the targets, none of them negative, also when two targets
    share a value (the later one's count is kept), and lists a failure,
    in the order of the targets, for fetches that reported an error, whose
    text is then not empty. Every target is fetched, whether due or not;
    the fixed columns of the targets stay, and the ids of the posts stay
    distinct. *)
Theorem fetch_once_summary (config : Config)
    (net : string → Nitter.HttpOutcome) (a : AppState) :
  NoDup (Storage.ids (Storage.tweets (storage a))) →
  let targets := Storage.get_targets (storage a) in
  let out := api_fetch_once config net a in
  (∀ v, is_Some (newCountsByTarget out.1 !! v)
        ↔ v ∈ map Storage.tg_value targets)
  ∧ (∀ v n, newCountsByTarget out.1 !! v = Some n → 0 ≤ n)
  ∧ map f_target (failedInstances out.1)
      `sublist_of` map Storage.tg_value targets
  ∧ Forall (fun f => ∃ e, f_error f = Some e ∧ e ≠ "")
           (failedInstances out.1)
  ∧ NoDup (Storage.ids (Storage.tweets (storage out.2)))
  ∧ map fixed_columns (Storage.targets (storage out.2))
    = map fixed_columns targets
  ∧ (wall_reads a + length targets ≤ wall_reads out.2)%nat.
Proof using Type.
  intros Hnd targets out. subst out. unfold App.api_fetch_once. fold targets.
  pose proof (fetch_once_loop config net targets (mkSummary ∅ []) a)
    as (B1 & B2 & (new & B3 & B4 & B5) & B6 & B7 & B8).
  destruct (fold_left (fetch_once_step config net) targets _) as [sm a1].
  cbn [fst snd newCountsByTarget failedInstances] in *.
  split.
  { intros v. rewrite B1, lookup_empty. split; [| by right].
    by intros [[? ?] | ?]. }
  split; [apply B2; intros v n; by rewrite lookup_empty |].
  rewrite B3. simpl. repeat split; try done. by apply B6.
Qed.
End PipelineMoreFacts.

(** X20 on the application with three posts stored: of a new post and a
    known one, one row is added. *)
Lemma store_entries_effect_witness :
  let out := App._store_entries Examples.dumps_const Examples.sorter
               Examples.utcnow Examples.isoformat Examples.config
               Examples.alice [Examples.post "t4"; Examples.post "t1"]
               (Some "https://a") Examples.app0 in
  out.1 = 1
  ∧ NoDup (Storage.ids (Storage.tweets (App.storage out.2))).
Proof.
  intros out. split; [reflexivity |].
  destruct (store_entries_effect Examples.dumps_const Examples.sorter
              Examples.utcnow Examples.isoformat Examples.config
              Examples.alice [Examples.post "t4"; Examples.post "t1"]
              (Some "https://a") Examples.app0)
    as (_ & H & _).
  - apply (bool_decide_unpack _). vm_compute. exact I.
  - exact H.
Defined.

(** X21 on a fetch that is answered with an empty feed. *)
Lemma fetch_target_frame_witness :
  let out := App._fetch_target Examples.dumps_const Examples.sorter Examples.decimal
               Examples.clock Examples.utcnow Examples.isoformat
               Examples.config Examples.net_empty_feed Examples.alice
               Examples.app0 in
  App.r_target out.1 = "alice"
  ∧ map App.fixed_columns (Storage.targets (App.storage out.2))
    = [(1, "user", "alice", Some 60)].
Proof.
  intros out.
  destruct (fetch_target_frame Examples.dumps_const Examples.sorter Examples.decimal
              Examples.clock Examples.utcnow Examples.isoformat
              Examples.config Examples.net_empty_feed Examples.alice
              Examples.app0)
    as (H1 & _ & _ & H2 & _).
  - apply (bool_decide_unpack _). vm_compute. exact I.
  - split; [exact H1 | exact H2].
Defined.


(** X23 on a network on which every request fails. *)
Lemma fetch_once_summary_witness :
  let out := App.api_fetch_once Examples.dumps_const Examples.sorter Examples.decimal
               Examples.clock Examples.utcnow Examples.isoformat
               Examples.config Examples.net_down Examples.app0 in
  App.newCountsByTarget out.1 !! "alice" = Some 0
  ∧ map App.f_target (App.failedInstances out.1) = ["alice"]
  ∧ Forall (fun f => ∃ e, App.f_error f = Some e ∧ e ≠ "")
           (App.failedInstances out.1).
Proof.
  intros out. split; [reflexivity |]. split; [reflexivity |].
  destruct (fetch_once_summary Examples.dumps_const Examples.sorter Examples.decimal
              Examples.clock Examples.utcnow Examples.isoformat
              Examples.config Examples.net_down Examples.app0)
    as (_ & _ & _ & H & _).
  - apply (bool_decide_unpack _). vm_compute. exact I.
  - exact H.
Defined.

(** * Properties of the handlers that write targets *)

Section HandlerFacts.
Import App.
Variable json_dumps : JSON → string.
Variable utcnow : nat → Z.
Variable isoformat : Z → string.

Local Abbreviation api_targets_create :=
  (api_targets_create json_dumps utcnow isoformat).
Local Abbreviation api_targets_delete := (api_targets_delete json_dumps).

Lemma lstrip_spec (s : list ascii) :
  (∃ pre, s = pre ++ lstrip s
          ∧ Forall (fun c => isspace c = true) pre)
  ∧ ∀ c, head (lstrip s) = Some c → isspace c = false.
Proof.
  induction s as [| x s [(pre & Hpre & Hsp) Hhd]]; simpl.
  - split; [by exists [] | done].
  - destruct (isspace x) eqn:E.
    + split; [| done]. exists (x :: pre). simpl. rewrite <- Hpre.
      split; [done | by constructor].
    + split; [by exists [] |]. simpl. by intros c [= <-].
Qed.

(** [strip] takes white space off both ends and nothing else. *)
Lemma strip_spec (s : string) :
  stripped (list_ascii_of_string (strip s))
  ∧ ∃ pre post,
      list_ascii_of_string s = pre ++ list_ascii_of_string (strip s) ++ post
      ∧ Forall (fun c => isspace c = true) pre
      ∧ Forall (fun c => isspace c = true) post.
Proof.
  unfold strip, stripped. rewrite list_ascii_of_string_of_list_ascii.
  set (l := list_ascii_of_string s).
  destruct (lstrip_spec l) as [(pre & Hpre & Hsp) Hhd].
  set (x := lstrip l) in *.
  destruct (lstrip_spec (rev x)) as [(pre2 & Hpre2 & Hsp2) Hhd2].
  set (y := lstrip (rev x)) in *.
  assert (Hx : x = rev y ++ rev pre2).
  { rewrite <- rev_app_distr, <- Hpre2. by rewrite rev_involutive. }
  split; [split |].
  - intros c Hc. apply Hhd. rewrite Hx.
    destruct (rev y) as [| d r]; [done |]. done.
  - intros c Hc. apply Hhd2. rewrite <- Hc.
    rewrite <- (rev_involutive y) at 1. generalize (rev y) as z. intros z.
    destruct z as [| d z] using rev_ind; [done |].
    by rewrite rev_app_distr, last_snoc.
  - exists pre, (rev pre2). rewrite <- Hx. split; [done |]. split; [done |].
    apply Forall_forall. intros c Hc. rewrite Forall_forall in Hsp2.
    apply Hsp2. apply list_elem_of_In, in_rev. by apply list_elem_of_In.
Qed.


Lemma delete_get_same (i : Z) (db : Storage.DB) :
  Storage.get_target i (Storage.delete_target i db) = None.
Proof.
  unfold Storage.delete_target, Storage.get_target. simpl.
  induction (Storage.targets db) as [| x l IH]; simpl; [done |].
  destruct (Storage.tg_id x =? i) eqn:E; simpl; [done | by rewrite E].
Qed.

Lemma delete_get_other (i j : Z) (db : Storage.DB) :
  j ≠ i →
  Storage.get_target j (Storage.delete_target i db) = Storage.get_target j db.
Proof.
  intros Hj. unfold Storage.delete_target, Storage.get_target. simpl.
  induction (Storage.targets db) as [| x l IH]; simpl; [done |].
  destruct (Storage.tg_id x =? i) eqn:E; simpl.
  - apply Z.eqb_eq in E.
    destruct (Z.eqb_spec (Storage.tg_id x) j); [congruence | apply IH].
  - destruct (Storage.tg_id x =? j); [done | apply IH].
Qed.

Lemma find_target_elem (i : Z) (l : list Storage.TargetRow)
    (r : Storage.TargetRow) :
  List.find (fun x => Storage.tg_id x =? i) l = Some r →
  r ∈ l ∧ Storage.tg_id r = i.
Proof.
  intros [Hin Hid]%find_some. split; [by apply list_elem_of_In | lia].
Qed.

Lemma delete_one_row (i : Z) (l : list Storage.TargetRow) :
  NoDup (map Storage.tg_id l) → i ∈ map Storage.tg_id l →
  S (length (List.filter (fun x => negb (Storage.tg_id x =? i)) l)) = length l.
Proof.
  induction l as [| x l IH]; simpl; intros Hnd Hin.
  - by apply elem_of_nil in Hin.
  - apply NoDup_cons in Hnd as [Hx Hnd].
    destruct (Z.eqb_spec (Storage.tg_id x) i) as [Hxi | Hne]; simpl.
    + f_equal. f_equal. apply filter_all. intros y Hy.
      apply negb_true_iff, Z.eqb_neq. intros Heq. apply Hx.
      rewrite Hxi, <- Heq. by apply list_elem_of_fmap_2.
    + f_equal. apply IH; [done |].
      apply elem_of_cons in Hin as [? | ?]; [congruence | done].
Qed.

Lemma sqlite_int_true (n : Z) :
  Storage.sqlite_int n = true ↔ - 2 ^ 63 ≤ n < 2 ^ 63.
Proof.
  unfold Storage.sqlite_int.
  change (2 ^ 63) with 9223372036854775808. rewrite andb_true_iff. lia.
Qed.

Lemma sqlite_int_false (n : Z) :
  Storage.sqlite_int n = false ↔ n < - 2 ^ 63 ∨ 2 ^ 63 ≤ n.
Proof.
  unfold Storage.sqlite_int.
  change (2 ^ 63) with 9223372036854775808. rewrite andb_false_iff. lia.
Qed.

(** X25. For an id that SQLite cannot hold, one outside its 64 bits,
    [api_targets_delete] raises and changes nothing. For any other id it
    answers 404 and changes nothing when no target has the id; otherwise
    it answers 200 and removes that one row: the table is one row shorter,
    the id is gone, so that a second request is answered 404, every other
    target reads as before, and the posts, also those of the deleted
    target, stay. *)
Theorem delete_handler (target_id : Z) (a : AppState) :
  Storage.targets_ok (storage a) →
  let out := api_targets_delete target_id a in
  let not_found :=
    ApiResponse 404 (JObj [("error", JStr "Target nicht gefunden")]) in
  (target_id < - 2 ^ 63 ∨ 2 ^ 63 ≤ target_id → out = (ApiRaised, a))
  ∧ (- 2 ^ 63 ≤ target_id < 2 ^ 63 →
     (Storage.get_target target_id (storage a) = None → out = (not_found, a))
     ∧ (∀ r, Storage.get_target target_id (storage a) = Some r →
          out.1 = ApiResponse 200 (JObj [("status", JStr "deleted")])
          ∧ S (length (Storage.targets (storage out.2)))
            = length (Storage.targets (storage a))
          ∧ Storage.get_target target_id (storage out.2) = None
          ∧ (∀ j, j ≠ target_id →
                  Storage.get_target j (storage out.2)
                  = Storage.get_target j (storage a))
          ∧ Storage.tweets (storage out.2) = Storage.tweets (storage a)
          ∧ client out.2 = client a
          ∧ (api_targets_delete target_id out.2).1 = not_found)).
Proof.
  intros Hok out not_found. subst out not_found.
  unfold App.api_targets_delete.
  destruct (Storage.sqlite_int target_id) eqn:Hint; cbn [negb].
  2: { split; [done |]. intros Hr. exfalso.
       apply sqlite_int_false in Hint. lia. }
  split.
  { intros Hr. exfalso. apply sqlite_int_true in Hint. lia. }
  intros _.
  destruct (Storage.get_target target_id (storage a)) as [r |] eqn:Hget.
  - split; [done |]. intros r' _. cbn [fst snd storage client].
    split; [done |]. split.
    { unfold Storage.delete_target. simpl. apply delete_one_row.
      - by apply targets_ok_NoDup.
      - apply find_target_elem in Hget as [Hin <-].
        by apply list_elem_of_fmap_2. }
    split; [apply delete_get_same |].
    split; [by intros j Hj; apply delete_get_other |].
    split; [done |]. split; [done |]. by rewrite delete_get_same.
  - split; [done |]. by intros r [=].
Qed.

Lemma seed_fold (configured : list (string * string * Z)) (db : Storage.DB) :
  let db' :=
    fold_left
      (fun d (t : string * string * Z) =>
         (Storage.add_target t.1.1 t.1.2 t.2 d).2)
      configured db in
  Storage.targets db'
  = Storage.targets db
    ++ imap (fun k (t : string * string * Z) =>
               Storage.mkTarget (Storage.next_target_id db + Z.of_nat k)
                                t.1.1 t.1.2 (Some t.2) None None)
            configured
  ∧ Storage.next_target_id db'
    = Storage.next_target_id db + Z.of_nat (length configured)
  ∧ Storage.tweets db' = Storage.tweets db.
Proof.
  revert db. induction configured as [| t ts IH]; intros db; simpl.
  { rewrite app_nil_r. repeat split; (done || lia). }
  specialize (IH (Storage.add_target t.1.1 t.1.2 t.2 db).2). simpl in IH.
  destruct IH as (H1 & H2 & H3). rewrite H1, H2, H3, <- app_assoc.
  split; [| split; [lia | done]]. simpl. rewrite Z.add_0_r. do 2 f_equal.
  apply imap_ext. intros k x _. simpl. f_equal. lia.
Qed.

(** X26. Writing the configured targets at startup is done once: on a
    targets table that has rows nothing is written, on an empty one every
    configured target is added, in the configured order, with consecutive
    ids from the AUTOINCREMENT counter on and no fetch state, whatever its
    type, value and interval are; doing it again changes nothing, and the
    posts are never touched. *)
Theorem seed_targets_once (configured : list (string * string * Z))
    (db : Storage.DB) :
  let db' := seed_targets configured db in
  (Storage.get_targets db ≠ [] → db' = db)
  ∧ (Storage.get_targets db = [] →
     Storage.get_targets db'
     = imap (fun k (t : string * string * Z) =>
               Storage.mkTarget (Storage.next_target_id db + Z.of_nat k)
                                t.1.1 t.1.2 (Some t.2) None None)
            configured)
  ∧ length (Storage.get_targets db')
    = (if decide (Storage.get_targets db = []) then length configured
       else length (Storage.get_targets db))
  ∧ seed_targets configured db' = db'
  ∧ Storage.tweets db' = Storage.tweets db.
Proof.
  intros db'. subst db'. unfold seed_targets, Storage.get_targets.
  pose proof (seed_fold configured db) as H. cbv zeta in H.
  destruct H as (H1 & H2 & H3).
  destruct (Storage.targets db) as [| r l] eqn:Ht.
  - rewrite app_nil_l in H1. split; [done |]. split; [done |]. split.
    { rewrite H1, length_imap. by rewrite decide_True. }
    split; [| done]. rewrite H1.
    by destruct configured as [| t ts].
  - rewrite Ht. split; [done |]. split; [done |].
    split; [by rewrite decide_False |]. done.
Qed.
End HandlerFacts.

(** X25 on the application with the one target [alice]. *)
Lemma delete_handler_witness :
  let out := App.api_targets_delete Examples.dumps_const 1 Examples.app0 in
  out.1 = App.ApiResponse 200 (JObj [("status", JStr "deleted")])
  ∧ Storage.targets (App.storage out.2) = []
  ∧ length (Storage.tweets (App.storage out.2)) = 3%nat.
Proof.
  intros out. split; [| split; reflexivity].
  destruct (delete_handler Examples.dumps_const 1 Examples.app0)
    as (_ & H).
  - split; simpl; repeat constructor.
  - destruct (H ltac:(lia)) as (_ & H').
    by destruct (H' Examples.alice eq_refl) as (H1 & _).
Defined.

(** * The export of a database that the program wrote *)

Section ExportMoreFacts.
Import Storage.
Variable json_dumps : JSON → string.
Variable json_loads : string → option JSON.
Variable order_by : list TweetRow → list TweetRow.

(** Every [raw] that [upsert_tweet] stores was written by [json.dumps]. *)
Lemma calls_raw (cs : list UpsertCall) (db : DB) :
  Forall (fun r => ∃ j, tw_raw r = json_dumps j) (tweets db) →
  Forall (fun r => ∃ j, tw_raw r = json_dumps j)
         (tweets (calls json_dumps cs db).2).
Proof.
  revert db. induction cs as [| c cs IH]; intros db Hdb; [done |].
  rewrite calls_cons. simpl. apply IH. unfold call, upsert_tweet.
  destruct (mem (c_id c) (ids (tweets db))); simpl; [done |].
  apply Forall_app. split; [done |]. constructor; [| constructor].
  by exists (c_raw c).
Qed.

(** X27. On a database that was filled by [upsert_tweet] only, the
    export does not fail: given that [json.loads] reads what [json.dumps]
    writes, which is never the empty text, [export_tweets] yields one line
    for every stored row, in the order of ORDER BY, each with the stored
    [raw] parsed back, and ends normally. *)
Theorem export_after_upserts (cs : list UpsertCall) :
  (∀ l, order_by l ≡ₚ l) →
  (∀ j, is_Some (json_loads (json_dumps j))) → (∀ j, json_dumps j ≠ "") →
  let db := (calls json_dumps cs empty_db).2 in
  let out := export_tweets json_dumps json_loads order_by db in
  out.2 = Exhausted
  ∧ length out.1 = length (tweets db)
  ∧ Forall2
      (fun line r =>
         ∃ raw, json_loads (tw_raw r) = Some raw
           ∧ line
             = json_dumps
                 (JObj [("id", JStr (tw_id r)); ("target", JStr (tw_target r));
                        ("content", JStr (tw_content r));
                        ("created_at", JStr (tw_created_at r)); ("raw", raw);
                        ("fetched_at", JStr (tw_fetched_at r));
                        ("instance", JStr (tw_instance r))]))
      out.1 (order_by (tweets db)).
Proof.
  intros Hperm Hround Hne db out.
  assert (Hraw : Forall (fun r => ∃ j, tw_raw r = json_dumps j) (tweets db)).
  { apply calls_raw. constructor. }
  assert (Hdata : ∀ r, r ∈ tweets db →
            ∃ raw, json_loads (tw_raw r) = Some raw
              ∧ export_data json_loads r
                = Some (JObj [("id", JStr (tw_id r));
                              ("target", JStr (tw_target r));
                              ("content", JStr (tw_content r));
                              ("created_at", JStr (tw_created_at r));
                              ("raw", raw);
                              ("fetched_at", JStr (tw_fetched_at r));
                              ("instance", JStr (tw_instance r))])).
  { intros r Hr. rewrite Forall_forall in Hraw.
    destruct (Hraw r Hr) as [j Hj]. destruct (Hround j) as [raw Hl].
    exists raw. rewrite Hj. split; [done |].
    unfold export_data, str_or. rewrite Hj.
    pose proof (Hne j) as Hj'. apply str_truthy_true in Hj'.
    by rewrite Hj', Hl. }
  destruct (export_tweets_all json_dumps json_loads order_by db Hperm)
    as [Hall Hlen].
  { intros r Hr. destruct (Hdata r Hr) as (raw & _ & ->). by eexists. }
  subst out. rewrite Hall. cbn [fst snd].
  split; [done |]. split; [by rewrite length_map, Hperm |].
  apply Forall2_fmap_l, Forall_Forall2_diag, Forall_forall.
  intros r Hr. rewrite Hperm in Hr. destruct (Hdata r Hr) as (raw & H1 & H2).
  exists raw. by rewrite H2.
Qed.
End ExportMoreFacts.

(** X27 on a table filled by three calls, two of them with the same id. *)
Lemma export_after_upserts_witness :
  let c1 := Storage.mkCall "t1" "user:alice" "a" "T1" JNull "F1" "https://a" in
  let c2 := Storage.mkCall "t2" "user:alice" "b" "T2" JNull "F2" "https://a" in
  let db := (Storage.calls Examples.dumps_const [c1; c2; c1]
               Storage.empty_db).2 in
  Storage.export_tweets Examples.dumps_const Examples.loads_only_empty
    Examples.sorter db
  = (["{}"; "{}"], Storage.Exhausted)
  ∧ (Storage.export_tweets Examples.dumps_const Examples.loads_only_empty
       Examples.sorter db).2 = Storage.Exhausted.
Proof.
  intros c1 c2 db. split; [reflexivity |].
  destruct (export_after_upserts Examples.dumps_const
              Examples.loads_only_empty Examples.sorter [c1; c2; c1])
    as (H & _).
  - intros l. apply (sort_desc_ok Examples.datetime_id).
  - intros j. by eexists.
  - discriminate.
  - exact H.
Defined.

(** * The rate limit *)

Section RateFacts.
Import Nitter.
Variable monotonic : nat → Q.

Local Abbreviation spent := (spent monotonic).

Lemma spent_refl (m : Z) (t t' : nat) (s : InstanceState) :
  spent m 0 t t' s s.
Proof.
  split; [| by left]. change (inject_Z (Z.of_nat 0)) with 0%Q. lra.
Qed.

Lemma spent_trans (m : Z) (k1 k2 : nat) (t1 t2 t3 : nat)
    (s1 s2 s3 : InstanceState) :
  (t1 ≤ t2)%nat → (t2 ≤ t3)%nat →
  spent m k1 t1 t2 s1 s2 → spent m k2 t2 t3 s2 s3 →
  spent m (k1 + k2) t1 t3 s1 s3.
Proof.
  intros H12 H23 [P1 L1] [P2 L2]. split.
  - rewrite Nat2Z.inj_add, inject_Z_plus. lra.
  - destruct L2 as [-> | (r & Hr & ->)].
    + destruct L1 as [-> | (r & Hr & ->)]; [by left |].
      right. exists r. split; [lia | done].
    + right. exists r. split; [lia | done].
Qed.

Lemma refill_spent (m : Z) (s : InstanceState) (t : nat) :
  spent m 0 t (S t) s (_refill_tokens monotonic m s t).1.
Proof.
  unfold Nitter.spent, potential, _refill_tokens.
  change (inject_Z (Z.of_nat 0)) with 0%Q.
  set (e := (monotonic t - last_refill s)%Q).
  set (a := (inject_Z m / 60 * e)%Q).
  assert (a == inject_Z m * (1 # 60) * monotonic t
               - inject_Z m * (1 # 60) * last_refill s)%Q as Hadd
    by (unfold a, e; field).
  clearbody a. clear e.
  destruct (Qltb 0 a) eqn:E; simpl.
  - split; [| right; exists t; split; [lia | done]].
    unfold pymin. destruct (Qltb (tokens s + a)%Q (inject_Z m)) eqn:E2; simpl.
    + lra.
    + apply Qltb_false in E2. lra.
  - split; [lra | by left].
Qed.

(** The loop of [_acquire_instance] on the state at any index [j]. *)
Lemma acquire_loop_spent (n : nat) (c : NitterClient) (t : nat) (j : nat)
    (s : InstanceState) :
  states c !! j = Some s →
  let out := acquire_loop monotonic n c t in
  let k := match out.1.1 with
           | Some i => if Nat.eqb j i then 1%nat else 0%nat
           | None => 0%nat
           end in
  ∃ s', states out.1.2 !! j = Some s'
    ∧ spent (max_requests_per_minute c) k t out.2 s s'.
Proof.
  revert c t s. induction n as [| n IH]; intros c t s Hs.
  { simpl. exists s. split; [done | apply spent_refl]. }
  destruct (states c !! rotation_index c) as [s0 |] eqn:Hs0.
  2: { simpl. rewrite Hs0. simpl. exists s. split; [done | apply spent_refl]. }
  rewrite (acquire_loop_step monotonic n c t s0 Hs0).
  pose proof (refill_spent (max_requests_per_minute c) s0 t) as Hr.
  set (s1 := (_refill_tokens monotonic (max_requests_per_minute c) s0 t).1) in *.
  set (c2 := with_states
               (with_rotation c
                  ((rotation_index c + 1) mod length (states c))%nat)
               (<[rotation_index c := s1]> (states c))).
  assert (Hc2 : ∃ s2, states c2 !! j = Some s2
            ∧ spent (max_requests_per_minute c) 0 t (S (S t)) s s2
            ∧ (j = rotation_index c → s2 = s1)).
  { simpl. destruct (decide (rotation_index c = j)) as [<- | Hne].
    - exists s1. rewrite list_lookup_insert_eq by by eapply lookup_lt_Some.
      split; [done |]. split; [| done]. rewrite Hs0 in Hs. injection Hs as <-.
      destruct Hr as [P L]. split; [done |].
      destruct L as [-> | (r & Hr & ->)]; [by left |].
      right. exists r. split; [lia | done].
    - exists s. rewrite list_lookup_insert_ne by done.
      split; [done |]. split; [apply spent_refl | congruence]. }
  destruct Hc2 as (s2 & Hs2 & Hsp & Hrot).
  assert (Hskip :
    let out := acquire_loop monotonic n c2 (S (S t)) in
    let k := match out.1.1 with
             | Some i => if Nat.eqb j i then 1%nat else 0%nat
             | None => 0%nat
             end in
    ∃ s', states out.1.2 !! j = Some s'
      ∧ spent (max_requests_per_minute c) k t out.2 s s').
  { destruct (IH c2 (S (S t)) s2 Hs2) as (s' & Hs' & Hsp').
    exists s'. split; [done |].
    pose proof (acquire_loop_clock monotonic n c2 (S (S t))) as Hcl.
    by apply (spent_trans _ 0 _ t (S (S t)) _ s s2 s'); [lia | lia | |]. }
  destruct (Qltb (monotonic (S t)) (backoff_until s1)); [exact Hskip |].
  destruct (Qltb (tokens s1) 1); [exact Hskip |].
  cbv zeta. cbn [fst snd]. subst c2. cbn [states with_states with_rotation].
  rewrite list_insert_insert_eq.
  destruct (Nat.eqb_spec j (rotation_index c)) as [-> | Hne].
  - exists (set_tokens s1 (tokens s1 - 1)%Q (last_refill s1)).
    rewrite list_lookup_insert_eq by by eapply lookup_lt_Some.
    split; [done |]. rewrite (Hrot eq_refl) in Hsp.
    destruct Hsp as [P L]. split; [| done].
    change (inject_Z (Z.of_nat 0)) with 0%Q in P.
    change (inject_Z (Z.of_nat 1)) with 1%Q.
    unfold potential in *. simpl in *. lra.
  - exists s. rewrite list_lookup_insert_ne by done.
    split; [done |]. apply spent_refl.
Qed.

(** One operation of the pool on the state at any index [j]. *)
Lemma step_spent (w : NitterClient * nat) (op : Op) (j : nat)
    (s : InstanceState) :
  states w.1 !! j = Some s →
  let w' := step monotonic w op in
  max_requests_per_minute w'.1 = max_requests_per_minute w.1
  ∧ (w.2 ≤ w'.2)%nat
  ∧ ∃ s', states w'.1 !! j = Some s'
      ∧ spent (max_requests_per_minute w.1)
              (acquisitions monotonic j [op] w) w.2 w'.2 s s'.
Proof.
  destruct w as [c t]. intros Hs. cbn [fst snd] in *.
  destruct op as [i | | i rtt | i sc]; cbn [step acquisitions].
  - destruct (states c !! i) as [s0 |] eqn:Hs0.
    2: { split; [done |]. split; [done |]. exists s.
         split; [done | apply spent_refl]. }
    pose proof (refill_spent (max_requests_per_minute c) s0 t) as Hr.
    pose proof (refill_only_tokens monotonic (max_requests_per_minute c) s0 t)
      as [_ Ht].
    destruct (_refill_tokens monotonic (max_requests_per_minute c) s0 t)
      as [s1 t1]. cbn [fst snd] in *. subst t1.
    split; [done |]. split; [lia |]. cbn [states with_states Nat.add].
    destruct (decide (i = j)) as [-> | Hne].
    + exists s1. rewrite list_lookup_insert_eq by by eapply lookup_lt_Some.
      split; [done |]. rewrite Hs0 in Hs. by injection Hs as <-.
    + exists s. rewrite list_lookup_insert_ne by done.
      split; [done |]. apply spent_refl.
  - unfold _acquire_instance. cbn [fst snd].
    pose proof (acquire_loop_spent (length (states c)) c t j s Hs) as H.
    pose proof (acquire_loop_only_tokens monotonic (length (states c)) c t)
      as (_ & _ & Hm).
    pose proof (acquire_loop_clock monotonic (length (states c)) c t) as Hcl.
    destruct (acquire_loop monotonic (length (states c)) c t)
      as [[r c'] t']. cbn [fst snd] in *.
    split; [done |]. split; [lia |]. by rewrite Nat.add_0_r.
  - split; [done |]. split; [done |].
    destruct (decide (i = j)) as [-> | Hne].
    + exists (on_success rtt s). simpl. rewrite list_lookup_alter_eq, Hs.
      split; [done |]. split; [| by left].
      change (inject_Z (Z.of_nat 0)) with 0%Q. unfold potential. simpl. lra.
    + exists s. simpl. rewrite list_lookup_alter_ne by done.
      split; [done | apply spent_refl].
  - simpl. split; [done |]. split; [lia |].
    destruct (decide (i = j)) as [-> | Hne].
    + eexists (on_error _ sc _ s). simpl. rewrite list_lookup_alter_eq, Hs.
      split; [done |]. split; [| by left].
      change (inject_Z (Z.of_nat 0)) with 0%Q. unfold potential. simpl. lra.
    + exists s. simpl. rewrite list_lookup_alter_ne by done.
      split; [done |]. apply spent_refl.
Qed.

Lemma run_spent (ops : list Op) (w : NitterClient * nat) (j : nat)
    (s : InstanceState) :
  states w.1 !! j = Some s →
  let w' := run monotonic ops w in
  (w.2 ≤ w'.2)%nat
  ∧ ∃ s', states w'.1 !! j = Some s'
      ∧ spent (max_requests_per_minute w.1)
              (acquisitions monotonic j ops w) w.2 w'.2 s s'.
Proof.
  revert w s. unfold run.
  induction ops as [| op ops IH]; intros w s Hs; cbn [fold_left].
  { split; [done |]. exists s. split; [done | apply spent_refl]. }
  destruct (step_spent w op j s Hs) as (Hm & Ht & s1 & Hs1 & Hsp1).
  destruct (IH (step monotonic w op) s1 Hs1) as (Ht2 & s2 & Hs2 & Hsp2).
  split; [lia |]. exists s2. split; [done |]. rewrite Hm in Hsp2.
  cbn [acquisitions] in *. rewrite Nat.add_0_r in Hsp1.
  by eapply spent_trans; [| | exact Hsp1 | exact Hsp2].
Qed.

(** X28. The rate limit. In any run of refills, acquisitions and releases
    on a pool that is in order, the number of acquisitions that returned
    one and the same instance is at most its token balance at the start,
    and so at most [max_requests_per_minute], plus [max_requests_per_minute
    / 60] for each second between its last refill at the start and its
    last refill at the end, which is its last refill at the start or a
    clock reading made during the run. *)
Theorem rate_limit (m base : Z) (ops : list Op) (c : NitterClient) (t : nat)
    (i : nat) (s : InstanceState) :
  0 ≤ base → (∀ n, (0 <= monotonic n)%Q) → pool_ok m base c →
  states c !! i = Some s →
  let w' := run monotonic ops (c, t) in
  let k := inject_Z (Z.of_nat (acquisitions monotonic i ops (c, t))) in
  ∃ s', states w'.1 !! i = Some s'
    ∧ (k <= tokens s - tokens s'
            + inject_Z m * (1 # 60) * (last_refill s' - last_refill s))%Q
    ∧ (k <= inject_Z m
            + inject_Z m * (1 # 60) * (last_refill s' - last_refill s))%Q
    ∧ (last_refill s' = last_refill s
       ∨ ∃ r, (t ≤ r < w'.2)%nat ∧ last_refill s' = monotonic r).
Proof.
  intros Hbase Hclock Hok Hs w' k. subst w' k.
  destruct (run_spent ops (c, t) i s Hs) as (_ & s' & Hs' & [P L]).
  pose proof (run_ok monotonic m base ops (c, t) Hbase Hclock Hok)
    as (_ & _ & Hall).
  destruct Hok as (Hm & _ & Hall0). cbn [fst snd] in *.
  rewrite Forall_lookup in Hall, Hall0.
  destruct (Hall _ _ Hs') as (H0 & _ & _).
  destruct (Hall0 _ _ Hs) as (_ & H1 & _).
  exists s'. split; [done |]. rewrite Hm in P. unfold potential in P.
  split; [lra |]. split; [lra | done].
Qed.
End RateFacts.

(** X28 on scenario S1: five acquisitions in a row, of which two return
    the first instance. *)
Lemma rate_limit_witness :
  Nitter.acquisitions Examples.clock 0
    (repeat Nitter.OpAcquire 5) (Examples.s1_start.1, Examples.s1_start.2)
  = 2%nat
  ∧ ∃ s', Nitter.states
            (Nitter.run Examples.clock (repeat Nitter.OpAcquire 5)
               (Examples.s1_start.1, Examples.s1_start.2)).1 !! 0%nat
          = Some s'
      ∧ (inject_Z 2
         <= inject_Z 2
            + inject_Z 2 * (1 # 60)
              * (Nitter.last_refill s' - Examples.clock 0))%Q.
Proof.
  split; [reflexivity |].
  destruct (rate_limit Examples.clock 2 2 (repeat Nitter.OpAcquire 5)
              Examples.s1_start.1 Examples.s1_start.2 0%nat
              (Nitter.mkState "https://a" 2 (Examples.clock 0) 0 0 None None))
    as (s' & H1 & _ & H3 & _).
  - lia.
  - apply clock_nonneg.
  - split; [reflexivity |]. split; [reflexivity |].
    repeat (constructor; [repeat split; unfold Qle; simpl; lia |]).
    constructor.
  - reflexivity.
  - exists s'. split; [exact H1 | exact H3].
Defined.

(** * The listing of posts next to their export *)

Section ListingFacts.
Import Storage.
Variable json_dumps : JSON → string.
Variable json_loads : string → option JSON.
Variable order_by : list TweetRow → list TweetRow.
Variable int_of_str : string → option Z.

(** X29. [api_tweets] answers for every state of the table, also one on
    which [export_tweets] fails: for a [limit] that [int] accepts and that
    SQLite can hold, one within its 64 bits, it returns one item for each
    row of [get_tweets], in that order. For a row with a non-empty [raw]
    that [json.loads] accepts the item is the very dictionary that the
    export writes; for a row whose [raw] it rejects, on which the export
    ends with the exception, the item holds the empty object. For a limit
    outside the 64 bits it raises. Without a [limit] parameter the limit
    is 50. *)
Theorem api_tweets_tolerant (target q : option string) (s : string) (n : Z)
    (db : DB) :
  int_of_str s = Some n →
  let rows := get_tweets order_by target n q db in
  let out :=
    App.api_tweets json_loads order_by int_of_str target (Some s) q db in
  (n < - 2 ^ 63 ∨ 2 ^ 63 ≤ n → out = App.ApiRaised)
  ∧ (- 2 ^ 63 ≤ n < 2 ^ 63 →
     ∃ items,
    out = App.ApiResponse 200 (JArr items)
    ∧ length items = length rows
    ∧ Forall2
        (fun item row =>
           (∀ d, tw_raw row ≠ "" → export_data json_loads row = Some d →
                 item = d)
           ∧ (json_loads (tw_raw row) = None →
              item
              = JObj [("id", JStr (tw_id row)); ("target", JStr (tw_target row));
                      ("content", JStr (tw_content row));
                      ("created_at", JStr (tw_created_at row));
                      ("raw", JObj []);
                      ("fetched_at", JStr (tw_fetched_at row));
                      ("instance", JStr (tw_instance row))]
              ∧ (tw_raw row ≠ "" →
                 (export_rows json_dumps json_loads [row]).2 = Raised)))
        items rows)
  ∧ App.api_tweets json_loads order_by int_of_str target None q db
    = App.ApiResponse 200
        (JArr (map (App.tweet_json json_loads)
                   (get_tweets order_by target 50 q db))).
Proof.
  intros Hn rows out. subst out. unfold App.api_tweets. rewrite Hn.
  fold rows. split; [| split; [| done]].
  { intros Hr. apply sqlite_int_false in Hr. by rewrite Hr. }
  intros Hr. apply sqlite_int_true in Hr. rewrite Hr. cbn [negb].
  exists (map (App.tweet_json json_loads) rows).
  split; [done |]. split; [by rewrite length_map |].
  apply Forall2_fmap_l, Forall_Forall2_diag, Forall_forall.
  intros row _. unfold App.tweet_json, export_data, str_or. split.
  - intros d Hne%str_truthy_true. rewrite Hne.
    destruct (json_loads (tw_raw row)); [by intros [= <-] | done].
  - intros Hbad. rewrite Hbad. split; [done |].
    intros Hne%str_truthy_true. simpl. unfold export_data, str_or.
    by rewrite Hne, Hbad.
Qed.
End ListingFacts.

(** X29 on the table with a damaged row, on which the export fails. *)
Lemma api_tweets_tolerant_witness :
  ∃ items,
    App.api_tweets Examples.loads_only_empty Examples.sorter
      Examples.int_of_str None (Some "10") None Examples.damaged
    = App.ApiResponse 200 (JArr items)
    ∧ length items = 2%nat.
Proof.
  destruct (api_tweets_tolerant Examples.dumps_const
              Examples.loads_only_empty Examples.sorter
              Examples.int_of_str None None "10" 10 Examples.damaged)
    as (_ & H & _); [reflexivity |].
  destruct (H ltac:(lia)) as (items & H1 & H2 & _).
  exists items. split; [exact H1 | exact H2].
Defined.
